(** * 10th Man Protocol MCP: orchestration core

    A shallow embedding of the agent resolver ([resolveAgents]), the agent
    invoker ([invokeExternal], [parseAgentOutput], [executeAgents]) and the
    result merger ([computeConsensus]), with the properties of the
    specification stated against them.

    Modelling conventions.
    - TypeScript string-literal unions are inductive types, interfaces are
      records.
    - A JavaScript [number] is a binary64 value ([number]): a finite
      value, held as the rational it is, an infinity or NaN, with the
      arithmetic rounding to nearest, ties to even.  A numeral of the
      source or of a JSON text is a [Q], and [binary64] gives the number it
      denotes.  The sign of a zero is not kept.
    - A JavaScript string is a [string] whose characters are code units in
      the range 0..255.
    - A [Set<'codex' | 'gemini'>] is a [gset ExternalEngine].
    - Code that may throw returns a [completion]: [Normal v] or [Throw e];
      [try_catch] is the try/catch statement.
    - The child process and the clock are the environment: a function from
      the command line to what [execFileAsync] settles with. *)

From Stdlib Require Import ZArith QArith Qround Qpower Qabs String Ascii List Lia.
From Stdlib Require Import DecimalString Lqa.
From stdpp Require Import base decidable countable gmap.
Import ListNotations.

Local Open Scope list_scope.
Local Open Scope string_scope.

Set Warnings "-register-all".

(** ** Type definitions (types.ts) *)

Inductive Verdict := proceed | proceed_with_changes | block.
Inductive Mode := auto_mode | standard_mode.
Inductive AgentEngine := codex | gemini | claude.
Inductive AgentRole := devils_advocate | architecture_critic | pragmatist.
Inductive Via := subprocess | subagent_prompt.
Inductive Status := completed | timeout | error.

(** The element type of [RuntimeConfig.available_agents]:
    ['codex' | 'gemini']. *)
Inductive ExternalEngine := ext_codex | ext_gemini.

#[global] Instance Verdict_eq_dec : EqDecision Verdict.
Proof. solve_decision. Defined.
#[global] Instance AgentEngine_eq_dec : EqDecision AgentEngine.
Proof. solve_decision. Defined.
#[global] Instance AgentRole_eq_dec : EqDecision AgentRole.
Proof. solve_decision. Defined.
#[global] Instance Via_eq_dec : EqDecision Via.
Proof. solve_decision. Defined.
#[global] Instance Status_eq_dec : EqDecision Status.
Proof. solve_decision. Defined.
#[global] Instance ExternalEngine_eq_dec : EqDecision ExternalEngine.
Proof. solve_decision. Defined.

Definition ExternalEngine_encode (e : ExternalEngine) : positive :=
  match e with ext_codex => 1%positive | ext_gemini => 2%positive end.

Definition ExternalEngine_decode (p : positive) : option ExternalEngine :=
  match p with
  | 1%positive => Some ext_codex
  | 2%positive => Some ext_gemini
  | _ => None
  end.

#[global] Instance ExternalEngine_countable : Countable ExternalEngine.
Proof.
  refine {| encode := ExternalEngine_encode; decode := ExternalEngine_decode |}.
  by intros [].
Defined.

Record AgentAssignment := {
  a_role : AgentRole;
  a_engine : AgentEngine;
  a_model : string;
  a_via : Via;
}.

Inductive Severity := high | critical | blocker.

Record ReviewInput := {
  i_task_description : string;
  i_proposed_changes : string;
  i_affected_files : list string;
  i_severity : Severity;
  i_context_files : option (list string);
  i_mode : option Mode;
}.

Record SubagentSpawnInstruction := {
  s_role : AgentRole;
  s_model : string;
  s_prompt : string;
  s_tools : list string;
}.

Record RuntimeConfig := {
  available_agents : gset ExternalEngine;
  timeout_seconds : N;
  auto_trigger_patterns : list string;
  default_mode : Mode;
  repo_root : string;
}.

Module MODELS.
Definition codex : string := "gpt-5.3-codex".
Definition gemini : string := "gemini-3-pro-preview".
Definition claude : string := "claude-opus-4-6".
End MODELS.

Definition ROLE_LABELS_label (r : AgentRole) : string :=
  match r with
  | devils_advocate => "Devil's Advocate"
  | architecture_critic => "Architecture Critic"
  | pragmatist => "Pragmatist"
  end.

(** ** Agent resolver (agent-resolver.ts) *)

(** [Set.prototype.has]. *)
Definition has (s : gset ExternalEngine) (e : ExternalEngine) : bool :=
  bool_decide (e ∈ s).

Definition resolveAgents (config : RuntimeConfig) : list AgentAssignment :=
  let hasCodex := has (available_agents config) ext_codex in
  let hasGemini := has (available_agents config) ext_gemini in
  if hasCodex && hasGemini then
    [ {| a_role := devils_advocate; a_engine := codex;
         a_model := MODELS.codex; a_via := subprocess |};
      {| a_role := architecture_critic; a_engine := gemini;
         a_model := MODELS.gemini; a_via := subprocess |};
      {| a_role := pragmatist; a_engine := claude;
         a_model := MODELS.claude; a_via := subagent_prompt |} ]
  else if hasCodex then
    [ {| a_role := devils_advocate; a_engine := codex;
         a_model := MODELS.codex; a_via := subprocess |};
      {| a_role := architecture_critic; a_engine := claude;
         a_model := MODELS.claude; a_via := subagent_prompt |};
      {| a_role := pragmatist; a_engine := claude;
         a_model := MODELS.claude; a_via := subagent_prompt |} ]
  else if hasGemini then
    [ {| a_role := devils_advocate; a_engine := gemini;
         a_model := MODELS.gemini; a_via := subprocess |};
      {| a_role := architecture_critic; a_engine := claude;
         a_model := MODELS.claude; a_via := subagent_prompt |};
      {| a_role := pragmatist; a_engine := claude;
         a_model := MODELS.claude; a_via := subagent_prompt |} ]
  else
    [ {| a_role := devils_advocate; a_engine := claude;
         a_model := MODELS.claude; a_via := subagent_prompt |};
      {| a_role := architecture_critic; a_engine := claude;
         a_model := MODELS.claude; a_via := subagent_prompt |};
      {| a_role := pragmatist; a_engine := claude;
         a_model := MODELS.claude; a_via := subagent_prompt |} ].

(** ** Completions: code that may throw *)

(** A thrown value: an [Error] object with its [name], its [message] and
    the [killed] flag that [child_process] sets on the error of a child it
    killed ([false] when the property is absent). *)
Record JsError := {
  err_name : string;
  err_message : string;
  err_killed : bool;
}.

Inductive completion (A : Type) :=
| Normal (a : A)
| Throw (e : JsError).
Arguments Normal {A} a.
Arguments Throw {A} e.

#[global] Instance completion_ret : MRet completion := fun A a => Normal a.
#[global] Instance completion_bind : MBind completion := fun A B f c =>
  match c with
  | Normal a => f a
  | Throw e => Throw e
  end.

(** [try { body } catch (e) { handler }]. *)
Definition try_catch {A} (body : completion A) (handler : JsError -> completion A)
  : completion A :=
  match body with
  | Normal a => Normal a
  | Throw e => handler e
  end.

(** [Array.prototype.map] with a callback that may throw: the first throw
    ends the loop. *)
Fixpoint sequence {A} (cs : list (completion A)) : completion (list A) :=
  match cs with
  | [] => Normal []
  | c :: rest => a ← c; l ← sequence rest; Normal (a :: l)
  end.

Definition new_Error (msg : string) : JsError :=
  {| err_name := "Error"; err_message := msg; err_killed := false |}.
Definition SyntaxError (msg : string) : JsError :=
  {| err_name := "SyntaxError"; err_message := msg; err_killed := false |}.
Definition TypeError (msg : string) : JsError :=
  {| err_name := "TypeError"; err_message := msg; err_killed := false |}.

(** [Error.prototype.toString], what [`${reason}`] gives for an error. *)
Definition Error_toString (e : JsError) : string :=
  match err_name e, err_message e with
  | "", msg => msg
  | name, "" => name
  | name, msg => name ++ ": " ++ msg
  end.

(** ** JSON values

    A number is kept as its numeral, the rational that the text writes. *)

Inductive json :=
| JNull
| JBool (b : bool)
| JNum (q : Q)
| JStr (s : string)
| JArr (items : list json)
| JObj (fields : list (string * json)).

(** Own property [k] of an object parsed from text whose members are
    [fields] in source order: the last member named [k] wins. *)
Fixpoint obj_get (fields : list (string * json)) (k : string) : option json :=
  match fields with
  | [] => None
  | (k', v) :: rest =>
      match obj_get rest k with
      | Some w => Some w
      | None => if String.eqb k' k then Some v else None
      end
  end.

(** [value.k] for a property name [k] that no prototype defines (such as
    [verdict], [confidence], [title]): [None] is [undefined]; reading a
    property of [null] throws a TypeError. *)
Definition get_property (value : json) (k : string) : completion (option json) :=
  match value with
  | JNull => Throw (TypeError ("Cannot read properties of null (reading '" ++ k ++ "')"))
  | JObj fields => Normal (obj_get fields k)
  | _ => Normal None
  end.

(** ** String primitives *)

(** White space of [String.prototype.trim] and of the regular expression
    class [\s], among the code units 0..255: TAB, LF, VT, FF, CR, SP, NBSP. *)
Definition isWhiteSpace (c : ascii) : bool :=
  let n := N_of_ascii c in
  ((9 <=? n) && (n <=? 13) || (n =? 32) || (n =? 160))%N.

Fixpoint trimStart (s : string) : string :=
  match s with
  | String c t => if isWhiteSpace c then trimStart t else s
  | EmptyString => EmptyString
  end.

Fixpoint trimEnd (s : string) : string :=
  match s with
  | String c t =>
      match trimEnd t with
      | EmptyString => if isWhiteSpace c then EmptyString else String c EmptyString
      | t' => String c t'
      end
  | EmptyString => EmptyString
  end.

Definition trim (s : string) : string := trimEnd (trimStart s).

(** [s.slice(0, n)]. *)
Fixpoint slice0 (n : nat) (s : string) : string :=
  match n, s with
  | S n', String c t => String c (slice0 n' t)
  | _, _ => EmptyString
  end.

(** Equality of code units under the [i] flag, for an ASCII letter given
    in lower case. *)
Definition eqb_ignore_case (c lower : ascii) : bool :=
  Ascii.eqb c lower || (N_of_ascii c + 32 =? N_of_ascii lower)%N.

(** [s.replace(/^```(?:json)?\s*/i, '')]. *)
Definition strip_opening_fence (s : string) : string :=
  match s with
  | String "`" (String "`" (String "`" rest)) =>
      let rest' :=
        match rest with
        | String j (String s' (String o (String n rest''))) =>
            if eqb_ignore_case j "j" && eqb_ignore_case s' "s"
               && eqb_ignore_case o "o" && eqb_ignore_case n "n"
            then rest'' else rest
        | _ => rest
        end in
      trimStart rest'
  | _ => s
  end.

(** Whether the whole of [s] matches [\s*```\s*$]. *)
Definition closing_fence_here (s : string) : bool :=
  match trimStart s with
  | String "`" (String "`" (String "`" rest)) =>
      match trimStart rest with EmptyString => true | _ => false end
  | _ => false
  end.

(** [s.replace(/\s*```\s*$/i, '')]: the match is tried at each position
    from the left; the first position that matches is cut off. *)
Fixpoint strip_closing_fence (s : string) : string :=
  if closing_fence_here s then EmptyString
  else match s with
       | String c t => String c (strip_closing_fence t)
       | EmptyString => EmptyString
       end.

(** [[\s\S]*\}] matched at the start of [s]: the star takes as much as it
    can and gives characters back until a closing brace follows; the
    result is the text matched. *)
Fixpoint star_then_close (s : string) : option string :=
  match s with
  | EmptyString => None
  | String c t =>
      match star_then_close t with
      | Some m => Some (String c m)
      | None => if Ascii.eqb c "}" then Some (String c EmptyString) else None
      end
  end.

(** [s.match(/\{[\s\S]*\}/)]: the text of the leftmost match, if any. *)
Fixpoint match_braces (s : string) : option string :=
  match s with
  | EmptyString => None
  | String c t =>
      if Ascii.eqb c "{" then
        match star_then_close t with
        | Some m => Some (String c m)
        | None => match_braces t
        end
      else match_braces t
  end.

(** ** [JSON.parse]

    The platform's parser, following the JSON grammar of ECMA-404 on texts
    over the code units 0..255.  An escape [\uXXXX] is decoded when it
    names a code unit of that range; other code points are outside the
    modelled alphabet and are not accepted.  A number is read as its
    numeral, exactly; [binary64] gives the value.  The recursion is
    bounded by a fuel of twice the length of the text plus two; a nested
    value costs two units and a list element one, and each consumes a
    character. *)

Definition DQUOTE : ascii := "034".

(** [quote s] is [s] between double quotes, for writing JSON texts. *)
Definition quote (s : string) : string :=
  String DQUOTE s ++ String DQUOTE EmptyString.

Module JSON.

Definition is_ws (c : ascii) : bool :=
  let n := N_of_ascii c in
  ((n =? 9) || (n =? 10) || (n =? 13) || (n =? 32))%N.

Fixpoint skip_ws (s : string) : string :=
  match s with
  | String c t => if is_ws c then skip_ws t else s
  | EmptyString => EmptyString
  end.

Definition digit (c : ascii) : option Z :=
  let n := Z.of_N (N_of_ascii c) in
  if ((48 <=? n) && (n <=? 57))%Z then Some (n - 48)%Z else None.

Definition hex_digit (c : ascii) : option N :=
  let n := N_of_ascii c in
  if ((48 <=? n) && (n <=? 57))%N then Some (n - 48)%N
  else if ((97 <=? n) && (n <=? 102))%N then Some (n - 87)%N
  else if ((65 <=? n) && (n <=? 70))%N then Some (n - 55)%N
  else None.

(** A run of decimal digits: the value read after [acc], how many
    digits were read after [count], and the rest of the text. *)
Fixpoint digits (acc : Z) (count : nat) (s : string) : Z * nat * string :=
  match s with
  | String c t =>
      match digit c with
      | Some d => digits (10 * acc + d)%Z (S count) t
      | None => (acc, count, s)
      end
  | EmptyString => (acc, count, s)
  end.

(** [0 | [1-9][0-9]*] *)
Definition parse_int (s : string) : option (Z * string) :=
  match s with
  | String "0" t => Some (0%Z, t)
  | String c t =>
      match digit c with
      | Some d => let '(v, _, rest) := digits d 1 t in Some (v, rest)
      | None => None
      end
  | EmptyString => None
  end.

(** [(\.[0-9]+)?] *)
Definition parse_frac (s : string) : option (Z * nat * string) :=
  match s with
  | String "." t =>
      match digits 0 0 t with
      | (_, O, _) => None
      | r => Some r
      end
  | _ => Some (0%Z, O, s)
  end.

(** [([eE][+-]?[0-9]+)?] *)
Definition parse_exp (s : string) : option (Z * string) :=
  match s with
  | String c t =>
      if Ascii.eqb c "e" || Ascii.eqb c "E" then
        let '(sign, t') :=
          match t with
          | String "+" u => (1%Z, u)
          | String "-" u => ((-1)%Z, u)
          | _ => (1%Z, t)
          end in
        match digits 0 0 t' with
        | (_, O, _) => None
        | (v, _, rest) => Some ((sign * v)%Z, rest)
        end
      else Some (0%Z, s)
  | EmptyString => Some (0%Z, s)
  end.

Definition parse_number (s : string) : option (Q * string) :=
  let '(neg, s1) :=
    match s with String "-" t => (true, t) | _ => (false, s) end in
  '(i, s2) ← parse_int s1;
  '(f, n, s3) ← parse_frac s2;
  '(e, s4) ← parse_exp s3;
  let scale := (10 ^ Z.of_nat n)%Z in
  let q := (inject_Z (i * scale + f) / inject_Z scale * 10 ^ e)%Q in
  Some (Qred (if neg then - q else q)%Q, s4).

Definition simple_escape (c : ascii) : option ascii :=
  if Ascii.eqb c DQUOTE then Some DQUOTE
  else if Ascii.eqb c "\" then Some "\"%char
  else if Ascii.eqb c "/" then Some "/"%char
  else if Ascii.eqb c "b" then Some "008"%char
  else if Ascii.eqb c "f" then Some "012"%char
  else if Ascii.eqb c "n" then Some "010"%char
  else if Ascii.eqb c "r" then Some "013"%char
  else if Ascii.eqb c "t" then Some "009"%char
  else None.

Definition hex4 (a b c d : ascii) : option ascii :=
  x3 ← hex_digit a; x2 ← hex_digit b; x1 ← hex_digit c; x0 ← hex_digit d;
  let n := (((x3 * 16 + x2) * 16 + x1) * 16 + x0)%N in
  if (n <? 256)%N then Some (ascii_of_N n) else None.

(** The characters of a string after its opening quote, up to and
    including the closing quote. *)
Fixpoint parse_chars (s : string) : option (string * string) :=
  match s with
  | EmptyString => None
  | String c t =>
      if Ascii.eqb c DQUOTE then Some (EmptyString, t)
      else if Ascii.eqb c "\" then
        match t with
        | String e u =>
            match simple_escape e with
            | Some c' =>
                '(body, rest) ← parse_chars u; Some (String c' body, rest)
            | None =>
                if Ascii.eqb e "u" then
                  match u with
                  | String h3 (String h2 (String h1 (String h0 v))) =>
                      c' ← hex4 h3 h2 h1 h0;
                      '(body, rest) ← parse_chars v;
                      Some (String c' body, rest)
                  | _ => None
                  end
                else None
            end
        | EmptyString => None
        end
      else if (N_of_ascii c <? 32)%N then None
      else '(body, rest) ← parse_chars t; Some (String c body, rest)
  end.

Definition literal (word : string) (s : string) : option string :=
  if String.prefix word s
  then Some (String.substring (String.length word)
                              (String.length s - String.length word) s)
  else None.

Fixpoint parse_value (fuel : nat) (s : string) : option (json * string) :=
  match fuel with
  | O => None
  | S fuel' =>
      match skip_ws s with
      | String "{" t =>
          match skip_ws t with
          | String "}" rest => Some (JObj [], rest)
          | t' => '(fields, rest) ← parse_members fuel' t'; Some (JObj fields, rest)
          end
      | String "[" t =>
          match skip_ws t with
          | String "]" rest => Some (JArr [], rest)
          | t' => '(items, rest) ← parse_elements fuel' t'; Some (JArr items, rest)
          end
      | String c t as s' =>
          if Ascii.eqb c DQUOTE then
            '(str, rest) ← parse_chars t; Some (JStr str, rest)
          else
            match literal "true" s', literal "false" s', literal "null" s' with
            | Some rest, _, _ => Some (JBool true, rest)
            | _, Some rest, _ => Some (JBool false, rest)
            | _, _, Some rest => Some (JNull, rest)
            | _, _, _ => '(q, rest) ← parse_number s'; Some (JNum q, rest)
            end
      | EmptyString => None
      end
  end
with parse_elements (fuel : nat) (s : string) : option (list json * string) :=
  match fuel with
  | O => None
  | S fuel' =>
      '(v, rest) ← parse_value fuel' s;
      match skip_ws rest with
      | String "," rest' =>
          '(vs, rest'') ← parse_elements fuel' rest'; Some (v :: vs, rest'')
      | String "]" rest' => Some ([v], rest')
      | _ => None
      end
  end
with parse_members (fuel : nat) (s : string)
  : option (list (string * json) * string) :=
  match fuel with
  | O => None
  | S fuel' =>
      match skip_ws s with
      | String c t =>
          if Ascii.eqb c DQUOTE then
            '(k, rest) ← parse_chars t;
            match skip_ws rest with
            | String ":" rest1 =>
                '(v, rest2) ← parse_value fuel' rest1;
                match skip_ws rest2 with
                | String "," rest3 =>
                    '(ms, rest4) ← parse_members fuel' rest3;
                    Some ((k, v) :: ms, rest4)
                | String "}" rest3 => Some ([(k, v)], rest3)
                | _ => None
                end
            | _ => None
            end
          else None
      | EmptyString => None
      end
  end.

Definition parse (text : string) : completion json :=
  match parse_value (2 * String.length text + 2) text with
  | Some (v, rest) =>
      match skip_ws rest with
      | EmptyString => Normal v
      | _ => Throw (SyntaxError "Unexpected non-whitespace character after JSON")
      end
  | None => Throw (SyntaxError "Unexpected token in JSON")
  end.

End JSON.

(** ** Numbers

    A JavaScript number is an IEEE 754 binary64 value: a finite value,
    held here as the rational that it is, one of the two infinities, or
    NaN.  The two zeros are one: nothing in the code below tells them
    apart (no division has a zero divisor, and [-0 > 0] is false as
    [0 > 0] is).

    A numeral, of the source text or of a JSON text, is a rational [Q];
    the number it denotes is [binary64] of it. *)

Inductive number :=
| Num (q : Q)
| PosInfinity
| NegInfinity
| NaN.

Definition pow2 (e : Z) : Q := (2 ^ e)%Q.

(** The exponent [e] with [2^e <= a < 2^(e+1)], for [a] positive. *)
Definition ilog2 (a : Q) : Z :=
  let l := (Z.log2 (Qnum a) - Z.log2 (Z.pos (Qden a)))%Z in
  if Qle_bool (pow2 l) a then l else (l - 1)%Z.

(** The nearest integer, ties to the even one. *)
Definition round_half_even (r : Q) : Z :=
  let f := Qfloor r in
  match (r - inject_Z f ?= 1 # 2)%Q with
  | Lt => f
  | Gt => (f + 1)%Z
  | Eq => if Z.even f then f else (f + 1)%Z
  end.

(** The exponent of the unit in the last place of [a]: 53 bits of
    significand, and no exponent below that of the subnormal numbers. *)
Definition ulp_exponent (a : Q) : Z := Z.max (ilog2 a - 52) (-1074).

Definition round64_pos (a : Q) : Q :=
  let t := ulp_exponent a in
  (inject_Z (round_half_even (a / pow2 t)) * pow2 t)%Q.

(** The nearest multiple of the unit in the last place, as if the
    exponent had no upper bound. *)
Definition round64 (q : Q) : Q :=
  match (q ?= 0)%Q with
  | Eq => 0%Q
  | Gt => round64_pos q
  | Lt => (- round64_pos (- q))%Q
  end.

(** The binary64 value nearest to [q]: an infinity when the rounded value
    reaches [2^1024]. *)
Definition binary64 (q : Q) : number :=
  let r := round64 (Qred q) in
  if Qle_bool (pow2 1024) (Qabs r)
  then (if Qle_bool 0 q then PosInfinity else NegInfinity)
  else Num (Qred r).

(** 1, -1, or 0 for a zero and for NaN. *)
Definition number_sign (a : number) : Z :=
  match a with
  | Num q => Z.sgn (Qnum q)
  | PosInfinity => 1
  | NegInfinity => -1
  | NaN => 0
  end.

Definition infinity (sign : Z) : number :=
  if (0 <? sign)%Z then PosInfinity else NegInfinity.

(** [a + b] *)
Definition number_add (a b : number) : number :=
  match a, b with
  | Num x, Num y => binary64 (x + y)
  | NaN, _ | _, NaN => NaN
  | PosInfinity, NegInfinity | NegInfinity, PosInfinity => NaN
  | PosInfinity, _ | _, PosInfinity => PosInfinity
  | NegInfinity, _ | _, NegInfinity => NegInfinity
  end.

(** [a * b] *)
Definition number_mul (a b : number) : number :=
  match a, b with
  | Num x, Num y => binary64 (x * y)
  | NaN, _ | _, NaN => NaN
  | _, _ =>
      let s := (number_sign a * number_sign b)%Z in
      if (s =? 0)%Z then NaN else infinity s
  end.

(** [a / b]; a zero divisor counts as the positive zero. *)
Definition number_div (a b : number) : number :=
  match a, b with
  | NaN, _ | _, NaN => NaN
  | Num x, Num y =>
      if Qeq_bool y 0
      then (if Qeq_bool x 0 then NaN else infinity (number_sign a))
      else binary64 (x / y)
  | Num _, _ => Num 0
  | _, Num y => infinity (number_sign a * (if Qle_bool 0 y then 1 else -1))
  | _, _ => NaN
  end.

(** [a > b] *)
Definition number_gtb (a b : number) : bool :=
  match a, b with
  | NaN, _ | _, NaN => false
  | Num x, Num y => negb (Qle_bool x y)
  | PosInfinity, PosInfinity => false
  | PosInfinity, _ => true
  | NegInfinity, _ => false
  | Num _, PosInfinity => false
  | Num _, NegInfinity => true
  end.

(** [Math.round]: the nearest integer, ties upwards. *)
Definition Math_round (a : number) : number :=
  match a with
  | Num x => Num (inject_Z (Qfloor (x + (1 # 2))))
  | _ => a
  end.

(** ** Verdict records (types.ts) *)

(** The confidence of a verdict is kept as the numeral it was written
    with, in the source or in the JSON text; the number is [binary64] of
    it. *)
Record AgentVerdict := {
  v_role : AgentRole;
  v_engine : AgentEngine;
  v_model : string;
  v_verdict : Verdict;
  v_confidence : Q;
  v_raw_output : json;
  v_duration_ms : Z;
  v_status : Status;
  v_error : option string;
}.

Record Consensus := {
  c_verdict : Verdict;
  c_confidence : number;
  c_critical_issues : list string;
  c_recommendations : list string;
}.

(** ** Agent invoker (agent-invoker.ts) *)

Definition VALID_VERDICTS : list string :=
  ["proceed"; "proceed_with_changes"; "block"].

(** The type guard [isVerdict]: [Some w] when the guard holds, [w] being
    the value narrowed to a [Verdict]; [None] when it does not.  The
    argument is [None] for [undefined]. *)
Definition isVerdict (v : option json) : option Verdict :=
  match v with
  | Some (JStr s) =>
      if bool_decide (s ∈ VALID_VERDICTS) then
        if String.eqb s "proceed" then Some proceed
        else if String.eqb s "proceed_with_changes" then Some proceed_with_changes
        else Some block
      else None
  | _ => None
  end.

(** [typeof v === 'number'], with the number. *)
Definition isNumber (v : option json) : option Q :=
  match v with
  | Some (JNum q) => Some q
  | _ => None
  end.

(** What [execFileAsync] is called with, and what it settles with: the
    standard output or the error it rejects with, and the time that
    passed on the clock. *)
Record ExecOptions := {
  cwd : string;
  timeout_ms : N;
  maxBuffer : N;
}.

Record ExecSettled := {
  settled : completion string;
  elapsed_ms : Z;
}.

Definition engine_name (e : AgentEngine) : string :=
  match e with codex => "codex" | gemini => "gemini" | claude => "claude" end.

Definition Number_of_N (n : N) : string := NilZero.string_of_uint (N.to_uint n).

(** The payload [parseAgentOutput] returns when nothing parses. *)
Definition fallback_payload (output : string) (role : AgentRole) : json :=
  JObj [ ("verdict", JStr "proceed_with_changes");
         ("confidence", JNum 0.4);
         ("reasoning",
           JStr ("[" ++ ROLE_LABELS_label role
                 ++ "] Raw output (could not parse as JSON): "
                 ++ slice0 500 output));
         ("critical_issues", JArr []);
         ("recommendations", JArr []) ].

(** The command line of an external engine: the [if]/[else if] chain at
    the head of [invokeExternal], which throws for any other engine. *)
Definition external_command (engine : AgentEngine) (prompt : string)
  : completion (string * list string) :=
  match engine with
  | codex =>
      Normal ("npx",
              ["codex"; "exec"; "--model"; MODELS.codex;
               "--model-reasoning-effort"; "high"; "-q"; prompt])
  | gemini =>
      Normal ("gemini",
              ["-p"; prompt; "--model"; MODELS.gemini;
               "--output-format"; "json"; "--sandbox"])
  | claude =>
      Throw (new_Error ("Unsupported external engine: " ++ engine_name engine))
  end.

Definition exec_options (config : RuntimeConfig) : ExecOptions :=
  {| cwd := repo_root config;
     timeout_ms := timeout_seconds config * 1000;
     maxBuffer := 10 * 1024 * 1024 |}.

(** The verdict the [catch] block of [invokeExternal] returns for the
    error [err] caught [duration] milliseconds after the start. *)
Definition failure_verdict (assignment : AgentAssignment) (config : RuntimeConfig)
    (duration : Z) (err : JsError) : AgentVerdict :=
  {| v_role := a_role assignment;
     v_engine := a_engine assignment;
     v_model := a_model assignment;
     v_verdict := proceed_with_changes;
     v_confidence := 0.3%Q;
     v_raw_output := JNull;
     v_duration_ms := duration;
     v_status := if err_killed err then timeout else error;
     v_error :=
       Some (if err_killed err
             then "Agent timed out after "
                  ++ Number_of_N (timeout_seconds config) ++ "s"
             else "Agent failed: " ++ err_message err) |}.

(** The verdict [executeAgents] puts in place of an invocation that
    rejected with [reason]. *)
Definition rejected_verdict (a : AgentAssignment) (reason : JsError) : AgentVerdict :=
  {| v_role := a_role a;
     v_engine := a_engine a;
     v_model := a_model a;
     v_verdict := proceed_with_changes;
     v_confidence := 0.3%Q;
     v_raw_output := JNull;
     v_duration_ms := 0;
     v_status := error;
     v_error := Some ("Unexpected failure: " ++ Error_toString reason) |}.

Section AgentInvoker.

(** The platform and the collaborators of the invoker. *)
Variable JSON_parse : string -> completion json.
Variable buildPrompt : AgentRole -> ReviewInput -> string.
Variable execFileAsync : string -> list string -> ExecOptions -> ExecSettled.

Definition buildStructuredPrompt (role : AgentRole) (input : ReviewInput) : string :=
  buildPrompt role input ++ "

IMPORTANT: Respond ONLY with valid JSON. No markdown fences, no preamble, no explanation outside the JSON structure. The response must start with { and end with }.".

Definition clean_output (output : string) : string :=
  trim (strip_closing_fence (strip_opening_fence (trim output))).

Definition parseAgentOutput (output : string) (role : AgentRole) : completion json :=
  let cleaned := clean_output output in
  try_catch (JSON_parse cleaned)
    (fun _ =>
       match match_braces cleaned with
       | Some jsonMatch =>
           try_catch (JSON_parse jsonMatch)
             (fun _ => Normal (fallback_payload output role))
       | None => Normal (fallback_payload output role)
       end).

Definition invokeExternal (assignment : AgentAssignment) (input : ReviewInput)
    (config : RuntimeConfig) : completion AgentVerdict :=
  let prompt := buildStructuredPrompt (a_role assignment) input in
  '(cmd, args) ← external_command (a_engine assignment) prompt;
  let child := execFileAsync cmd args (exec_options config) in
  let duration := elapsed_ms child in
  try_catch
    (stdout ← settled child;
     parsed ← parseAgentOutput stdout (a_role assignment);
     parsed_verdict ← get_property parsed "verdict";
     parsed_confidence ← get_property parsed "confidence";
     Normal {| v_role := a_role assignment;
               v_engine := a_engine assignment;
               v_model := a_model assignment;
               v_verdict := default proceed_with_changes (isVerdict parsed_verdict);
               v_confidence := default 0.5%Q (isNumber parsed_confidence);
               v_raw_output := parsed;
               v_duration_ms := duration;
               v_status := completed;
               v_error := None |})
    (fun err => Normal (failure_verdict assignment config duration err)).

Definition buildSubagentInstruction (assignment : AgentAssignment)
    (input : ReviewInput) : SubagentSpawnInstruction :=
  let prompt := buildPrompt (a_role assignment) input in
  {| s_role := a_role assignment;
     s_model := "opus";
     s_prompt := prompt;
     s_tools := ["Read"; "Glob"; "Grep"] |}.

(** [Promise.allSettled] over the invocations: every invocation settles
    with its own completion, [Normal] for fulfilled and [Throw] for
    rejected, whatever the others do. *)
Definition executeAgents (assignments : list AgentAssignment) (input : ReviewInput)
    (config : RuntimeConfig)
  : completion (list AgentVerdict * list SubagentSpawnInstruction) :=
  let externalAssignments := filter (fun a => a_via a = subprocess) assignments in
  let claudeAssignments := filter (fun a => a_via a = subagent_prompt) assignments in
  let externalResults :=
    map (fun a => invokeExternal a input config) externalAssignments in
  verdicts ←
    sequence
      (imap (fun i result =>
               match result with
               | Normal value => Normal value
               | Throw reason =>
                   match externalAssignments !! i with
                   | Some a => Normal (rejected_verdict a reason)
                   | None =>
                       Throw (TypeError
                         "Cannot read properties of undefined (reading 'role')")
                   end
               end)
            externalResults);
  let subagent_prompts :=
    map (fun a => buildSubagentInstruction a input) claudeAssignments in
  Normal (verdicts, subagent_prompts).

End AgentInvoker.

(** ** Result merger (result-merger.ts) *)

(** [typeof v === 'object' && v !== null]: objects and arrays. *)
Definition is_object (v : json) : bool :=
  match v with
  | JObj _ | JArr _ => true
  | _ => false
  end.

(** [v.k] for a value that is not [null], for a property name that no
    prototype defines. *)
Definition field (v : json) (k : string) : option json :=
  match v with
  | JObj fields => obj_get fields k
  | _ => None
  end.

(** [a ?? b] *)
Definition nullish_or (a b : option json) : option json :=
  match a with
  | None | Some JNull => b
  | _ => a
  end.

(** The elements of [v] when [Array.isArray(v)]. *)
Definition array_items (v : option json) : list json :=
  match v with
  | Some (JArr items) => items
  | _ => []
  end.

(** [[...new Set(l)]]: the distinct strings of [l] in first-seen order. *)
Fixpoint dedupe_seen (seen : list string) (l : list string) : list string :=
  match l with
  | [] => []
  | x :: rest =>
      if bool_decide (x ∈ seen) then dedupe_seen seen rest
      else x :: dedupe_seen (x :: seen) rest
  end.

Definition dedupe (l : list string) : list string := dedupe_seen [] l.

(** [Math.round(x * 100) / 100] *)
Definition round2 (x : number) : number :=
  number_div (Math_round (number_mul x (binary64 100))) (binary64 100).

(** The body of the confidence loop, on the pair of [totalWeight] and
    [weightedConfidence]. *)
Definition add_weighted (acc : number * number) (v : AgentVerdict)
  : number * number :=
  let '(totalWeight, weightedConfidence) := acc in
  let weight :=
    if decide (v_status v = completed) then binary64 1 else binary64 0.3 in
  (number_add totalWeight weight,
   number_add weightedConfidence
     (number_mul (binary64 (v_confidence v)) weight)).

(** A loop that pushes onto one array what its body gives for each
    element, with a body that may throw: the first throw ends the loop. *)
Fixpoint flat_mapM {A B} (f : A -> completion (list B)) (l : list A)
  : completion (list B) :=
  match l with
  | [] => Normal []
  | x :: rest => ys ← f x; zs ← flat_mapM f rest; Normal (app ys zs)
  end.

Record Counts := {
  n_proceed : nat;
  n_proceed_with_changes : nat;
  n_block : nat;
}.

(** [counts[v]++] *)
Definition increment (counts : Counts) (v : Verdict) : Counts :=
  match v with
  | proceed =>
      {| n_proceed := S (n_proceed counts);
         n_proceed_with_changes := n_proceed_with_changes counts;
         n_block := n_block counts |}
  | proceed_with_changes =>
      {| n_proceed := n_proceed counts;
         n_proceed_with_changes := S (n_proceed_with_changes counts);
         n_block := n_block counts |}
  | block =>
      {| n_proceed := n_proceed counts;
         n_proceed_with_changes := n_proceed_with_changes counts;
         n_block := S (n_block counts) |}
  end.

Section ResultMerger.

(** The platform: [JSON.stringify] and the conversion of a number to a
    string. *)
Variable JSON_stringify : json -> string.
Variable Number_toString : Q -> string.

(** [String(v)].  An object is converted by the [toString] that it
    inherits, unless it has a member of that name: no value of a JSON text
    can be called and [valueOf], inherited or not, gives no primitive
    value, so that the conversion throws a TypeError.  An array is
    converted by [join], which converts its elements in turn. *)
Fixpoint ToString (v : json) : completion string :=
  match v with
  | JNull => Normal "null"
  | JBool true => Normal "true"
  | JBool false => Normal "false"
  | JNum q => Normal (Number_toString q)
  | JStr s => Normal s
  | JArr items =>
      parts ← sequence
                (map (fun x => match x with
                               | JNull => Normal ""
                               | _ => ToString x
                               end) items);
      Normal (String.concat "," parts)
  | JObj fields =>
      match obj_get fields "toString" with
      | Some _ => Throw (TypeError "Cannot convert object to primitive value")
      | None => Normal "[object Object]"
      end
  end.

(** [String(v)] and [`${v}`] where [v] may be [undefined]. *)
Definition String_of (v : option json) : completion string :=
  match v with
  | None => Normal "undefined"
  | Some w => ToString w
  end.

(** [String(obj.title ?? obj.description ?? JSON.stringify(issue))] *)
Definition title_of (issue : json) : completion string :=
  String_of (nullish_or (field issue "title")
               (nullish_or (field issue "description")
                  (Some (JStr (JSON_stringify issue))))).

(** The body of the loop of [extractCriticalIssues]: what one verdict
    pushes. *)
Definition issues_of_verdict (v : AgentVerdict) : completion (list string) :=
  if negb (is_object (v_raw_output v)) then Normal []
  else
    let output := v_raw_output v in
    critical ← flat_mapM
                 (fun issue =>
                    match issue with
                    | JStr s => Normal [s]
                    | JObj _ | JArr _ => title ← title_of issue; Normal [title]
                    | _ => Normal []
                    end)
                 (array_items (field output "critical_issues"));
    structural ← flat_mapM
                   (fun issue =>
                      if is_object issue
                      then title ← title_of issue; Normal [title]
                      else Normal [])
                   (array_items (field output "structural_issues"));
    Normal (app critical structural).

Definition extractCriticalIssues (verdicts : list AgentVerdict)
  : completion (list string) :=
  issues ← flat_mapM issues_of_verdict verdicts;
  Normal (dedupe issues).

(** The body of the loop of [extractRecommendations]. *)
Definition recommendations_of_verdict (v : AgentVerdict)
  : completion (list string) :=
  if negb (is_object (v_raw_output v)) then Normal []
  else
    let output := v_raw_output v in
    listed ← flat_mapM
               (fun rec =>
                  match rec with
                  | JStr s => Normal [s]
                  | JObj _ | JArr _ => title ← title_of rec; Normal [title]
                  | _ => Normal []
                  end)
               (array_items (field output "recommendations"));
    phases ← flat_mapM
               (fun phase =>
                  if is_object phase then
                    number ← String_of (field phase "phase");
                    title ← String_of (nullish_or (field phase "title")
                                                  (field phase "scope"));
                    Normal ["Phase " ++ number ++ ": " ++ title]
                  else Normal [])
               (array_items (field output "phasing_suggestion"));
    Normal (app listed phases).

Definition extractRecommendations (verdicts : list AgentVerdict)
  : completion (list string) :=
  recs ← flat_mapM recommendations_of_verdict verdicts;
  Normal (dedupe recs).

Definition computeConsensus (verdicts : list AgentVerdict) : completion Consensus :=
  let completedVerdicts := filter (fun v => v_status v = completed) verdicts in
  if (length completedVerdicts =? 0)%nat then
    Normal
      {| c_verdict := proceed_with_changes;
         c_confidence := binary64 0.2;
         c_critical_issues :=
           ["All agents failed or timed out — proceed with extreme caution"];
         c_recommendations :=
           ["Re-run the protocol or manually review the changes"] |}
  else
    let counts :=
      fold_left (fun counts v => increment counts (v_verdict v))
                completedVerdicts
                {| n_proceed := 0; n_proceed_with_changes := 0; n_block := 0 |} in
    let verdict :=
      if (2 <=? n_block counts)%nat then block
      else if (n_block counts =? 1)%nat && (1 <=? n_proceed_with_changes counts)%nat
      then proceed_with_changes
      else if (n_block counts =? 1)%nat then proceed_with_changes
      else if (1 <=? n_proceed_with_changes counts)%nat then proceed_with_changes
      else proceed in
    let '(totalWeight, weightedConfidence) :=
      fold_left add_weighted completedVerdicts (binary64 0, binary64 0) in
    let confidence :=
      if number_gtb totalWeight (binary64 0)
      then round2 (number_div weightedConfidence totalWeight)
      else binary64 0.5 in
    critical_issues ← extractCriticalIssues verdicts;
    recommendations ← extractRecommendations verdicts;
    Normal {| c_verdict := verdict;
              c_confidence := confidence;
              c_critical_issues := critical_issues;
              c_recommendations := recommendations |}.

End ResultMerger.

(** ** The specification's reading of two operations

    Definitions written from the words of the specification, to compare
    with the code's. *)

(** The confidence of section 4.5: the mean of the confidence of every
    verdict, weighted 1.0 when completed and 0.3 otherwise, rounded to two
    decimals, and 0.5 when the total weight is 0. *)
Definition spec_weight (v : AgentVerdict) : Q :=
  if decide (v_status v = completed) then 1%Q else 0.3%Q.

Definition spec_confidence (verdicts : list AgentVerdict) : number :=
  let totalWeight :=
    fold_left (fun acc v => number_add acc (binary64 (spec_weight v)))
              verdicts (binary64 0) in
  let weighted :=
    fold_left (fun acc v =>
                 number_add acc (number_mul (binary64 (v_confidence v))
                                            (binary64 (spec_weight v))))
              verdicts (binary64 0) in
  if number_gtb totalWeight (binary64 0)
  then round2 (number_div weighted totalWeight)
  else binary64 0.5.

(** The second stage of section 4.3: the first balanced brace-delimited
    substring.  [balanced_rest depth s] is the text up to the brace that
    closes [depth] open ones. *)
Fixpoint balanced_rest (depth : nat) (s : string) : option string :=
  match s with
  | EmptyString => None
  | String c t =>
      if Ascii.eqb c "{" then String c <$> balanced_rest (S depth) t
      else if Ascii.eqb c "}" then
        match depth with
        | O => Some (String c EmptyString)
        | S d => String c <$> balanced_rest d t
        end
      else String c <$> balanced_rest depth t
  end.

Fixpoint first_balanced_braces (s : string) : option string :=
  match s with
  | EmptyString => None
  | String c t =>
      if Ascii.eqb c "{" then
        match balanced_rest 0 t with
        | Some m => Some (String c m)
        | None => first_balanced_braces t
        end
      else first_balanced_braces t
  end.

(** The verdict recorded for the assignment [a] once its invocation has
    settled with [result]: the callback of [externalResults.map]. *)
Definition settled_verdict (a : AgentAssignment)
    (result : completion AgentVerdict) : AgentVerdict :=
  match result with
  | Normal value => value
  | Throw reason => rejected_verdict a reason
  end.

(** The number of completed verdicts in [verdicts] whose decision is [d]. *)
Definition completed_with (d : Verdict) (verdicts : list AgentVerdict) : nat :=
  length (filter (fun v => v_status v = completed ∧ v_verdict v = d) verdicts).

(** The text of [s] from its first opening brace to its last closing
    brace, when the first comes before the last. *)
Fixpoint first_index (c : ascii) (s : string) : option nat :=
  match s with
  | EmptyString => None
  | String c' t => if Ascii.eqb c' c then Some 0 else S <$> first_index c t
  end.

Fixpoint last_index (c : ascii) (s : string) : option nat :=
  match s with
  | EmptyString => None
  | String c' t =>
      match last_index c t with
      | Some j => Some (S j)
      | None => if Ascii.eqb c' c then Some 0 else None
      end
  end.

Definition brace_span (s : string) : option string :=
  match first_index "{" s, last_index "}" s with
  | Some i, Some j =>
      if (i <? j)%nat then Some (String.substring i (j - i + 1) s) else None
  | _, _ => None
  end.

Definition spec_parseAgentOutput (JSON_parse : string -> completion json)
    (output : string) (role : AgentRole) : completion json :=
  let cleaned := clean_output output in
  try_catch (JSON_parse cleaned)
    (fun _ =>
       match first_balanced_braces cleaned with
       | Some sub =>
           try_catch (JSON_parse sub)
             (fun _ => Normal (fallback_payload output role))
       | None => Normal (fallback_payload output role)
       end).

(** ** Sample data for the examples *)

Definition sample_input : ReviewInput :=
  {| i_task_description := "Refactor auth from session-based to JWT";
     i_proposed_changes := "Replace express-session with jsonwebtoken";
     i_affected_files := ["src/middleware/auth.ts"];
     i_severity := critical;
     i_context_files := None;
     i_mode := None |}.

Definition sample_config (available : gset ExternalEngine) : RuntimeConfig :=
  {| available_agents := available;
     timeout_seconds := 180;
     auto_trigger_patterns := ["**/auth/**"; "**/migrations/**"; "**/*.schema.*"];
     default_mode := standard_mode;
     repo_root := "/repo" |}.

Definition sample_prompt (role : AgentRole) (input : ReviewInput) : string :=
  "[" ++ ROLE_LABELS_label role ++ "] " ++ i_task_description input.

(** A child process that always settles the same way after 12 ms. *)
Definition exec_settling (result : completion string)
  : string -> list string -> ExecOptions -> ExecSettled :=
  fun _ _ _ => {| settled := result; elapsed_ms := 12 |}.

(** The error of a child killed on its timeout. *)
Definition killed_error : JsError :=
  {| err_name := "Error"; err_message := "Command failed: npx codex exec";
     err_killed := true |}.

Definition codex_assignment : AgentAssignment :=
  {| a_role := devils_advocate; a_engine := codex;
     a_model := MODELS.codex; a_via := subprocess |}.

(** Outputs of an external agent: two objects in prose, prose alone, an
    object whose verdict is a number and that has no confidence, and the
    JSON text [null]. *)
Definition block_object : string :=
  "{" ++ quote "verdict" ++ ":" ++ quote "block" ++ "}".

Definition two_objects_output : string :=
  "Verdict: " ++ block_object ++ " (alternatives: {none})".

Definition prose_output : string := "I could not review this change.".

Definition untyped_output : string := "{" ++ quote "verdict" ++ ": 5}".

Definition null_output : string := "null".

Definition sample_verdict (status : Status) (decision : Verdict) (confidence : Q)
  : AgentVerdict :=
  {| v_role := devils_advocate; v_engine := codex; v_model := MODELS.codex;
     v_verdict := decision; v_confidence := confidence; v_raw_output := JNull;
     v_duration_ms := 12; v_status := status; v_error := None |}.

(** ** Quantities used to state the properties *)

(** No object inside [v] has a member named [toString]: the values that
    [String] converts without throwing. *)
Fixpoint plain (v : json) : bool :=
  match v with
  | JArr items => forallb plain items
  | JObj fields =>
      match obj_get fields "toString" with
      | Some _ => false
      | None => forallb (fun member => plain member.2) fields
      end
  | _ => true
  end.

(** A number of the unit interval, and a number written with two
    decimals in it: one of 0, 0.01, ..., 1. *)
Definition in_unit_interval (a : number) : Prop :=
  match a with
  | Num r => (0 <= r <= 1)%Q
  | _ => False
  end.

Definition hundredth (a : number) : Prop :=
  exists k : Z, (0 <= k <= 100)%Z /\ a = binary64 (inject_Z k / 100).

(** A number that, when it is finite, is written with two decimals: the
    value of [k / 100] for an integer [k]. *)
Definition two_decimals (a : number) : Prop :=
  match a with
  | Num _ => exists k : Z, a = binary64 (inject_Z k / 100)
  | _ => True
  end.

(** The decision that the ordered rule gives to the completed verdicts. *)
Definition tallied_decision (verdicts : list AgentVerdict) : Verdict :=
  if (2 <=? completed_with block verdicts)%nat then block
  else if (completed_with block verdicts =? 1)%nat then proceed_with_changes
  else if (1 <=? completed_with proceed_with_changes verdicts)%nat
  then proceed_with_changes
  else proceed.

(** The confidence that the loop gives to [verdicts], all of them
    completed. *)
Definition completed_confidence (verdicts : list AgentVerdict) : number :=
  let '(totalWeight, weightedConfidence) :=
    fold_left add_weighted verdicts (binary64 0, binary64 0) in
  if number_gtb totalWeight (binary64 0)
  then round2 (number_div weightedConfidence totalWeight)
  else binary64 0.5.

(** The sum of the confidences of [l], added in order. *)
Definition sum_confidence (l : list AgentVerdict) : number :=
  fold_left (fun acc v => number_add acc (binary64 (v_confidence v)))
            l (binary64 0).

(** A completed verdict whose payload lists an issue titled by an object
    with a member named [toString]. *)
Definition shadowed_title_verdict : AgentVerdict :=
  {| v_role := devils_advocate; v_engine := codex; v_model := MODELS.codex;
     v_verdict := block; v_confidence := 0.9;
     v_raw_output :=
       JObj [("critical_issues",
              JArr [JObj [("title", JObj [("toString", JNum 1)])]])];
     v_duration_ms := 12; v_status := completed; v_error := None |}.

(** A completed verdict whose payload lists one issue twice, once as an
    object with a title and once as a string. *)
Definition race_issues : list json :=
  [JObj [("title", JStr "Token refresh race")]; JStr "Token refresh race"].

Definition race_verdict : AgentVerdict :=
  {| v_role := devils_advocate; v_engine := codex; v_model := MODELS.codex;
     v_verdict := block; v_confidence := 0.9;
     v_raw_output := JObj [("critical_issues", JArr race_issues)];
     v_duration_ms := 12; v_status := completed; v_error := None |}.

(** The string of a decision, as the payloads and the reports spell it. *)
Definition Verdict_string (d : Verdict) : string :=
  match d with
  | proceed => "proceed"
  | proceed_with_changes => "proceed_with_changes"
  | block => "block"
  end.

(** An assignment that asks for the claude engine as a subprocess, which
    [resolveAgents] never makes. *)
Definition claude_subprocess : AgentAssignment :=
  {| a_role := pragmatist; a_engine := claude;
     a_model := MODELS.claude; a_via := subprocess |}.

(** Strings made of white space only, and strings without a backtick. *)
Fixpoint all_whitespace (s : string) : bool :=
  match s with
  | EmptyString => true
  | String c t => isWhiteSpace c && all_whitespace t
  end.

Fixpoint no_backtick (s : string) : bool :=
  match s with
  | EmptyString => true
  | String c t => negb (Ascii.eqb c "`") && no_backtick t
  end.

(** ** Agent resolver, continued (agent-resolver.ts) *)

Definition describeAgentConfig (assignments : list AgentAssignment) : string :=
  let external := filter (fun a => a_via a = subprocess) assignments in
  let internal := filter (fun a => a_via a = subagent_prompt) assignments in
  match external with
  | [e0; e1] =>
      "3 agents: " ++ engine_name (a_engine e0) ++ " (" ++ a_model e0 ++ ") + "
      ++ engine_name (a_engine e1) ++ " (" ++ a_model e1 ++ ") + Claude ("
      ++ MODELS.claude ++ ")"
  | [e0] =>
      "3 agents: " ++ engine_name (a_engine e0) ++ " (" ++ a_model e0
      ++ ") + 2× Claude (" ++ MODELS.claude ++ ") isolated subagents"
  | _ =>
      "3 isolated Claude (" ++ MODELS.claude
      ++ ") subagents — separate context windows, zero opinion bleed"
  end.

(** The engine an element of the availability set names. *)
Definition external_engine (e : ExternalEngine) : AgentEngine :=
  match e with ext_codex => codex | ext_gemini => gemini end.

(** ** Configuration (config/loader.ts, index.ts) *)

Record ConfigureInput := {
  in_available_agents : option (list ExternalEngine);
  in_timeout_seconds : option N;
  in_auto_trigger_patterns : option (list string);
  in_default_mode : option Mode;
}.

(** [a ?? b] for optional fields. *)
Definition or_else {A} (a b : option A) : option A :=
  match a with
  | Some _ => a
  | None => b
  end.

(** [buildRuntimeConfig], given what [loadRepoConfig] read from the
    repository ([repoConfig], the empty record when there is no readable
    file) and what [detectAgents] found ([detected]). *)
Definition buildRuntimeConfig (repoRoot : string) (repoConfig : ConfigureInput)
    (detected : gset ExternalEngine) (userOverrides : option ConfigureInput)
  : RuntimeConfig :=
  let agents :=
    default (elements detected)
      (or_else (userOverrides ≫= in_available_agents)
               (in_available_agents repoConfig)) in
  {| available_agents := list_to_set agents;
     timeout_seconds :=
       default 180%N
         (or_else (userOverrides ≫= in_timeout_seconds)
                  (in_timeout_seconds repoConfig));
     auto_trigger_patterns :=
       default ["**/auth/**"; "**/migrations/**"; "**/*.schema.*"]
         (or_else (userOverrides ≫= in_auto_trigger_patterns)
                  (in_auto_trigger_patterns repoConfig));
     default_mode :=
       default standard_mode
         (or_else (userOverrides ≫= in_default_mode)
                  (in_default_mode repoConfig));
     repo_root := repoRoot |}.

(** The record the [tenth_man_configure] handler writes to
    [.tenth-man/config.json]: the existing one with every field the
    overrides define replaced. *)
Definition merge_overrides (existing overrides : ConfigureInput) : ConfigureInput :=
  {| in_available_agents :=
       match in_available_agents overrides with
       | Some l => Some l
       | None => in_available_agents existing
       end;
     in_timeout_seconds :=
       match in_timeout_seconds overrides with
       | Some t => Some t
       | None => in_timeout_seconds existing
       end;
     in_auto_trigger_patterns :=
       match in_auto_trigger_patterns overrides with
       | Some p => Some p
       | None => in_auto_trigger_patterns existing
       end;
     in_default_mode :=
       match in_default_mode overrides with
       | Some m => Some m
       | None => in_default_mode existing
       end |}.

Definition no_config : ConfigureInput :=
  {| in_available_agents := None; in_timeout_seconds := None;
     in_auto_trigger_patterns := None; in_default_mode := None |}.

(** ** Repository files (config/loader.ts, config/gitignore.ts,
    config/claude-md.ts)

    The file system is a finite map from paths to the contents of regular
    files; reading and writing such a file succeeds.  [path.join] is a
    parameter. *)

(** [s.includes(sub)] *)
Fixpoint includes (s sub : string) : bool :=
  String.prefix sub s
  || match s with
     | String _ t => includes t sub
     | EmptyString => false
     end.

Definition CLAUDE_MD_MARKER : string := "## 10th Man Protocol".

Definition CLAUDE_MD_SNIPPET : string := "
## 10th Man Protocol
Before implementing changes that affect 3+ files, touch auth/security/data layers, or involve breaking changes, ALWAYS call the `tenth_man_review` MCP tool first.
When the tool returns `pending_subagents`, you MUST spawn ALL of them as separate Task calls with isolated contexts — do not skip any agent, each provides a different critical perspective.
After review in standard mode: present findings to the user and wait for approval before creating an execution plan. In auto mode: incorporate findings into your plan and proceed.
".

Section RepositoryFiles.

Variable join : string -> string -> string.

(** [ensureGitignore] of config/loader.ts. *)
Definition loader_ensureGitignore (fs : gmap string string) (repoRoot : string)
  : gmap string string :=
  let gitignorePath := join repoRoot ".gitignore" in
  let entry := ".tenth-man/" in
  match fs !! gitignorePath with
  | Some content =>
      if negb (includes content entry) then
        <[gitignorePath := content ++ "
# 10th Man Protocol audit files
" ++ entry ++ "
"]> fs
      else fs
  | None =>
      <[gitignorePath := "# 10th Man Protocol audit files
" ++ entry ++ "
"]> fs
  end.

(** [ensureGitignore] of config/gitignore.ts. *)
Definition ensureGitignore (fs : gmap string string) (repoRoot : string)
  : gmap string string :=
  let gitignorePath := join repoRoot ".gitignore" in
  match fs !! gitignorePath with
  | Some content =>
      if negb (includes content ".tenth-man/") then
        <[gitignorePath := trimEnd content ++ "

# 10th Man Protocol audit files
" ++ ".tenth-man/" ++ "
"]> fs
      else fs
  | None =>
      <[gitignorePath := "# 10th Man Protocol audit files
" ++ ".tenth-man/" ++ "
"]> fs
  end.

Definition ensureClaudeMd (fs : gmap string string) (repoRoot : string)
  : gmap string string :=
  let claudeMdPath := join repoRoot "CLAUDE.md" in
  match fs !! claudeMdPath with
  | Some content =>
      if negb (includes content CLAUDE_MD_MARKER) then
        <[claudeMdPath := trimEnd content ++ "
" ++ CLAUDE_MD_SNIPPET]> fs
      else fs
  | None => <[claudeMdPath := trimStart CLAUDE_MD_SNIPPET]> fs
  end.

End RepositoryFiles.

(** ** Audit index (audit/writer.ts)

    [index.json] holds the list of audit entries, newest first.  What
    reading and parsing it gives is [IndexMissing] when there is no file,
    [IndexUnreadable] when reading or parsing throws, and the entries
    otherwise; what [JSON.stringify] writes is read back as the same
    entries. *)

Record AuditEntry := {
  e_audit_id : string;
  e_timestamp : string;
  e_task : string;
  e_severity : Severity;
  e_verdict : Verdict;
  e_agents_used : list (AgentRole * AgentEngine * string);
  e_duration_ms : Z;
  e_mode : Mode;
}.

Inductive IndexFile :=
| IndexMissing
| IndexUnreadable
| IndexEntries (entries : list AuditEntry).

#[global] Instance Severity_eq_dec : EqDecision Severity.
Proof. solve_decision. Defined.

(** [l.slice(0, n)] for an integer [n]: a negative [n] counts from the
    end. *)
Definition slice_to {A} (l : list A) (n : Z) : list A :=
  let len := Z.of_nat (length l) in
  let stop := if (n <? 0)%Z then Z.max (len + n) 0 else Z.min n len in
  take (Z.to_nat stop) l.

Definition updateIndex (index : IndexFile) (entry : AuditEntry) : IndexFile :=
  let entries :=
    match index with
    | IndexEntries entries => entries
    | IndexMissing | IndexUnreadable => []
    end in
  IndexEntries (entry :: entries).

Definition readHistory (index : IndexFile) (lastN : option Z)
    (severityFilter : option Severity) (verdictFilter : option Verdict)
  : list AuditEntry :=
  let lastN := default 5%Z lastN in
  match index with
  | IndexMissing | IndexUnreadable => []
  | IndexEntries entries =>
      let entries :=
        match severityFilter with
        | Some s => filter (fun e => e_severity e = s) entries
        | None => entries
        end in
      let entries :=
        match verdictFilter with
        | Some d => filter (fun e => e_verdict e = d) entries
        | None => entries
        end in
      slice_to entries lastN
  end.

Definition sample_entry (id : string) (severity : Severity) (decision : Verdict)
  : AuditEntry :=
  {| e_audit_id := id; e_timestamp := "2026-02-12T14:30:00.000Z";
     e_task := "Refactor auth"; e_severity := severity; e_verdict := decision;
     e_agents_used := [(devils_advocate, codex, MODELS.codex)];
     e_duration_ms := 1200; e_mode := standard_mode |}.

(** * Properties *)

(** ** Agent resolver *)

Lemma has_true (s : gset ExternalEngine) (e : ExternalEngine) :
  has s e = true <-> e ∈ s.
Proof. unfold has. apply bool_decide_eq_true. Qed.

(** The four availability sets are all there are. *)
Lemma availability_cases (s : gset ExternalEngine) :
  s = ∅ \/ s = {[ext_codex]} \/ s = {[ext_gemini]} \/ s = {[ext_codex; ext_gemini]}.
Proof.
  destruct (decide (ext_codex ∈ s)) as [Hc|Hc];
    destruct (decide (ext_gemini ∈ s)) as [Hg|Hg].
  - right; right; right. apply set_eq. intros []; set_solver.
  - right; left. apply set_eq. intros []; set_solver.
  - right; right; left. apply set_eq. intros []; set_solver.
  - left. apply set_eq. intros []; set_solver.
Qed.

Ltac resolve_cases config :=
  unfold resolveAgents;
  destruct (has (available_agents config) ext_codex) eqn:?Hcodex;
  destruct (has (available_agents config) ext_gemini) eqn:?Hgemini;
  cbn [andb].

(** C3. For every availability set, [resolveAgents] returns exactly three
    assignments, one per role, in the fixed order devils_advocate,
    architecture_critic, pragmatist; the result is a function of which of
    codex and gemini are available and of nothing else in the
    configuration; and whenever an external engine is available the
    devils_advocate assignment is a subprocess on an external engine. *)
Theorem resolveAgents_one_assignment_per_role (config : RuntimeConfig) :
  length (resolveAgents config) = 3%nat
  /\ map a_role (resolveAgents config)
     = [devils_advocate; architecture_critic; pragmatist]
  /\ (forall config' : RuntimeConfig,
        (forall e, e ∈ available_agents config' <-> e ∈ available_agents config) ->
        resolveAgents config' = resolveAgents config)
  /\ ((exists e, e ∈ available_agents config) ->
      forall a, a ∈ resolveAgents config -> a_role a = devils_advocate ->
                a_via a = subprocess /\ a_engine a <> claude).
Proof.
  split; [|split; [|split]].
  - resolve_cases config; reflexivity.
  - resolve_cases config; reflexivity.
  - intros config' Hsame. unfold resolveAgents.
    assert (Heq : forall e, has (available_agents config') e
                            = has (available_agents config) e).
    { intros e. unfold has. apply bool_decide_ext, Hsame. }
    by rewrite !Heq.
  - intros [e He] a Ha Hrole.
    assert (Hsome : has (available_agents config) ext_codex = true
                    \/ has (available_agents config) ext_gemini = true).
    { destruct e; [left|right]; by apply has_true. }
    revert Ha. resolve_cases config; intros Ha;
      repeat (apply elem_of_cons in Ha as [->|Ha]); try (by inversion Ha);
      cbn in *; try discriminate; try (split; congruence).
    destruct Hsome; discriminate.
Qed.

Lemma resolveAgents_one_assignment_per_role_witness :
  (exists e, e ∈ available_agents (sample_config {[ext_gemini]}))
  /\ forall a, a ∈ resolveAgents (sample_config {[ext_gemini]}) ->
               a_role a = devils_advocate ->
               a_via a = subprocess /\ a_engine a <> claude.
Proof.
  split.
  - exists ext_gemini. cbn. set_solver.
  - apply (resolveAgents_one_assignment_per_role (sample_config {[ext_gemini]})).
    exists ext_gemini. cbn. set_solver.
Defined.

(** ** Agent invoker *)

(** The greedy star of [match_braces] stops at the last closing brace. *)
Lemma star_then_close_last (s : string) :
  star_then_close s
  = match last_index "}" s with
    | Some j => Some (String.substring 0 (S j) s)
    | None => None
    end.
Proof.
  induction s as [|c t IH]; [reflexivity|].
  cbn [star_then_close last_index]. rewrite IH.
  destruct (last_index "}" t) as [j|]; [reflexivity|].
  destruct (Ascii.eqb c "}"); [|reflexivity]. by destruct t.
Qed.

(** The regular expression [\{[\s\S]*\}] matches from the first opening
    brace to the last closing brace. *)
Lemma match_braces_span (s : string) : match_braces s = brace_span s.
Proof.
  unfold brace_span. induction s as [|c t IH]; [reflexivity|].
  cbn [match_braces first_index last_index].
  rewrite star_then_close_last.
  destruct (Ascii.eqb c "{") eqn:Hopen.
  - apply Ascii.eqb_eq in Hopen as ->.
    destruct (last_index "}" t) as [j|].
    + cbn [Nat.ltb Nat.leb]. rewrite Nat.sub_0_r, Nat.add_1_r. reflexivity.
    + cbn. rewrite IH. destruct (first_index "{" t); reflexivity.
  - rewrite IH.
    destruct (first_index "{" t) as [i|]; cbn [fmap option_fmap option_map];
      [|reflexivity].
    destruct (last_index "}" t) as [j|].
    + change (S i <? S j)%nat with (i <? j)%nat.
      destruct (i <? j)%nat; [|reflexivity].
      by rewrite Nat.sub_succ.
    + by destruct (Ascii.eqb c "}").
Qed.

Lemma slice0_prefix (n : nat) (s : string) :
  String.prefix (slice0 n s) s = true
  /\ String.length (slice0 n s) = Nat.min n (String.length s).
Proof.
  revert s. induction n as [|n IH]; intros s; [by destruct s|].
  destruct s as [|c t]; [done|]. cbn.
  destruct (IH t) as [Hp Hl]. rewrite Hp, Hl.
  split; [|reflexivity]. by destruct (ascii_dec c c).
Qed.

Section AgentInvokerFacts.

Variable JSON_parse : string -> completion json.
Variable buildPrompt : AgentRole -> ReviewInput -> string.
Variable execFileAsync : string -> list string -> ExecOptions -> ExecSettled.

(** Whatever the parser does with the text, the normalizer returns. *)
Lemma parseAgentOutput_returns (output : string) (role : AgentRole) :
  exists payload, parseAgentOutput JSON_parse output role = Normal payload.
Proof.
  unfold parseAgentOutput, try_catch.
  destruct (JSON_parse (clean_output output)) as [v|e]; [by eexists|].
  destruct (match_braces (clean_output output)) as [m|]; [|by eexists].
  destruct (JSON_parse m); by eexists.
Qed.

(** The [try]/[catch] of [invokeExternal] lets nothing out: once the
    command line is built the invocation fulfils. *)
Lemma invokeExternal_fulfils (a : AgentAssignment) (input : ReviewInput)
    (config : RuntimeConfig) :
  a_engine a <> claude ->
  exists v, invokeExternal JSON_parse buildPrompt execFileAsync a input config = Normal v.
Proof.
  intros Hengine. unfold invokeExternal.
  destruct (a_engine a) eqn:He; try congruence; cbn;
    unfold try_catch;
    match goal with
    | |- context [mbind ?f ?c] => destruct (mbind f c)
    end; by eexists.
Qed.

Lemma sequence_settled (input : ReviewInput) (config : RuntimeConfig)
    (pre l : list AgentAssignment) :
  sequence
    (imap (fun i result =>
             match result with
             | Normal value => Normal value
             | Throw reason =>
                 match (pre ++ l)%list !! (length pre + i)%nat with
                 | Some a => Normal (rejected_verdict a reason)
                 | None =>
                     Throw (TypeError
                       "Cannot read properties of undefined (reading 'role')")
                 end
             end)
          (map (fun a =>
                  invokeExternal JSON_parse buildPrompt execFileAsync a input config)
               l))
  = Normal (map (fun a =>
                   settled_verdict a
                     (invokeExternal JSON_parse buildPrompt execFileAsync
                        a input config))
                l).
Proof.
  revert pre. induction l as [|a l IH]; intros pre; [reflexivity|].
  cbn [map imap sequence].
  assert (Hhere : (pre ++ a :: l)%list !! (length pre + 0)%nat = Some a).
  { rewrite Nat.add_0_r. by rewrite list_lookup_middle. }
  rewrite Hhere.
  match goal with
  | |- context [sequence (imap ?g ?xs)] =>
      assert (Hrest : sequence (imap g xs)
                      = Normal (map (fun a =>
                          settled_verdict a
                            (invokeExternal JSON_parse buildPrompt execFileAsync
                               a input config)) l))
  end.
  { rewrite <- (IH (pre ++ [a])%list). f_equal. apply imap_ext.
    intros i result _. cbn.
    rewrite <- app_assoc, length_app. cbn.
    by rewrite <- Nat.add_assoc. }
  rewrite Hrest.
  by destruct (invokeExternal JSON_parse buildPrompt execFileAsync a input config).
Qed.

(** [executeAgents] never throws: it returns one verdict per subprocess
    assignment, in order, each made from the settlement of its own
    invocation, and one instruction per delegated assignment. *)
Lemma executeAgents_settles_all (assignments : list AgentAssignment)
    (input : ReviewInput) (config : RuntimeConfig) :
  executeAgents JSON_parse buildPrompt execFileAsync assignments input config
  = Normal
      (map (fun a =>
              settled_verdict a
                (invokeExternal JSON_parse buildPrompt execFileAsync a input config))
           (filter (fun a => a_via a = subprocess) assignments),
       map (fun a => buildSubagentInstruction buildPrompt a input)
           (filter (fun a => a_via a = subagent_prompt) assignments)).
Proof.
  unfold executeAgents.
  pose proof (sequence_settled input config []
                (filter (fun a => a_via a = subprocess) assignments)) as H.
  cbn [app length Nat.add] in H. rewrite H. reflexivity.
Qed.

(** What the [catch] block makes of an error [e]: the default decision,
    the low confidence 0.3, no findings, and the status and the error text
    that tell a killed child from any other failure. *)
Lemma invokeExternal_catches (a : AgentAssignment) (input : ReviewInput)
    (config : RuntimeConfig) (cmd : string) (args : list string) (e : JsError) :
  external_command (a_engine a) (buildStructuredPrompt buildPrompt (a_role a) input)
  = Normal (cmd, args) ->
  settled (execFileAsync cmd args (exec_options config)) = Throw e ->
  invokeExternal JSON_parse buildPrompt execFileAsync a input config
  = Normal (failure_verdict a config
              (elapsed_ms (execFileAsync cmd args (exec_options config))) e).
Proof.
  intros Hcmd Hexec. unfold invokeExternal. rewrite Hcmd. cbn.
  rewrite Hexec. reflexivity.
Qed.

Lemma invokeExternal_role (a : AgentAssignment) (input : ReviewInput)
    (config : RuntimeConfig) (v : AgentVerdict) :
  invokeExternal JSON_parse buildPrompt execFileAsync a input config = Normal v ->
  v_role v = a_role a /\ v_engine v = a_engine a /\ v_model v = a_model a.
Proof.
  unfold invokeExternal.
  destruct (external_command _ _) as [[cmd args]|e]; cbn; [|discriminate].
  destruct (settled _) as [stdout|e]; cbn; [|by intros [= <-]].
  destruct (parseAgentOutput _ _ _) as [parsed|e]; cbn; [|by intros [= <-]].
  destruct (get_property parsed "verdict") as [pv|e]; cbn; [|by intros [= <-]].
  destruct (get_property parsed "confidence") as [pc|e]; cbn; by intros [= <-].
Qed.

Lemma settled_verdict_role (a : AgentAssignment) (input : ReviewInput)
    (config : RuntimeConfig) :
  v_role (settled_verdict a
            (invokeExternal JSON_parse buildPrompt execFileAsync a input config))
  = a_role a.
Proof.
  destruct (invokeExternal _ _ _ a input config) as [v|e] eqn:H; cbn; [|done].
  by apply invokeExternal_role in H as [? _].
Qed.

End AgentInvokerFacts.

(** C7. A process-backed invocation that fails yields a verdict and no
    exception.  When the child process fails with error [e], the
    invocation fulfils with decision proceed_with_changes, confidence 0.3,
    no findings, status timeout when the child was killed on the timeout
    and error otherwise, and an error text made from the failure.
    [executeAgents] always returns: one verdict per subprocess assignment,
    each made from the settlement of its own invocation alone, an
    invocation that rejects being recorded as an errored verdict with the
    same defaults. *)
Theorem invocation_failures_become_verdicts
    (JSON_parse : string -> completion json)
    (buildPrompt : AgentRole -> ReviewInput -> string)
    (execFileAsync : string -> list string -> ExecOptions -> ExecSettled)
    (assignments : list AgentAssignment) (input : ReviewInput)
    (config : RuntimeConfig) :
  (forall a cmd args e,
      external_command (a_engine a)
        (buildStructuredPrompt buildPrompt (a_role a) input) = Normal (cmd, args) ->
      settled (execFileAsync cmd args (exec_options config)) = Throw e ->
      exists v,
        invokeExternal JSON_parse buildPrompt execFileAsync a input config = Normal v
        /\ v_role v = a_role a
        /\ v_verdict v = proceed_with_changes
        /\ v_confidence v = 0.3%Q
        /\ v_raw_output v = JNull
        /\ v_status v = (if err_killed e then timeout else error)
        /\ v_error v
           = Some (if err_killed e
                   then "Agent timed out after "
                        ++ Number_of_N (timeout_seconds config) ++ "s"
                   else "Agent failed: " ++ err_message e))
  /\ (forall a reason,
        let v := settled_verdict a (Throw reason) in
        v_role v = a_role a /\ v_verdict v = proceed_with_changes
        /\ v_confidence v = 0.3%Q /\ v_raw_output v = JNull
        /\ v_status v = error
        /\ v_error v = Some ("Unexpected failure: " ++ Error_toString reason))
  /\ exists verdicts prompts,
      executeAgents JSON_parse buildPrompt execFileAsync assignments input config
      = Normal (verdicts, prompts)
      /\ length verdicts
         = length (filter (fun a => a_via a = subprocess) assignments)
      /\ forall i a,
          filter (fun a => a_via a = subprocess) assignments !! i = Some a ->
          verdicts !! i
          = Some (settled_verdict a
                    (invokeExternal JSON_parse buildPrompt execFileAsync
                       a input config)).
Proof.
  split; [|split].
  - intros a cmd args e Hcmd Hexec. eexists. split.
    + by apply invokeExternal_catches.
    + by cbn.
  - intros a reason. by cbn.
  - do 2 eexists. split; [apply executeAgents_settles_all|]. split.
    + by rewrite length_map.
    + intros i a Hi. by rewrite list_lookup_fmap, Hi.
Qed.

Lemma invocation_failures_become_verdicts_witness :
  exists v,
    invokeExternal JSON.parse sample_prompt (exec_settling (Throw killed_error))
      codex_assignment sample_input (sample_config {[ext_codex]}) = Normal v
    /\ v_role v = devils_advocate
    /\ v_verdict v = proceed_with_changes
    /\ v_confidence v = 0.3%Q
    /\ v_raw_output v = JNull
    /\ v_status v = timeout
    /\ v_error v = Some "Agent timed out after 180s".
Proof.
  exact (proj1 (invocation_failures_become_verdicts JSON.parse sample_prompt
                  (exec_settling (Throw killed_error)) [codex_assignment]
                  sample_input (sample_config {[ext_codex]}))
               codex_assignment _ _ killed_error eq_refl eq_refl).
Defined.

(** C10. [resolveAgents] never gives the pragmatist a subprocess: in every
    configuration its assignment is the claude engine through a subagent
    prompt, so [executeAgents] makes no verdict for it and hands back a
    spawn instruction for it; and when codex and gemini are both available
    the devils_advocate runs on codex and the architecture_critic on
    gemini, both as subprocesses. *)
Theorem resolveAgents_pragmatist_delegated (config : RuntimeConfig) :
  (forall a, a ∈ resolveAgents config -> a_role a = pragmatist ->
             a_engine a = claude /\ a_via a = subagent_prompt)
  /\ (ext_codex ∈ available_agents config ->
      ext_gemini ∈ available_agents config ->
      resolveAgents config
      = [ {| a_role := devils_advocate; a_engine := codex;
             a_model := MODELS.codex; a_via := subprocess |};
          {| a_role := architecture_critic; a_engine := gemini;
             a_model := MODELS.gemini; a_via := subprocess |};
          {| a_role := pragmatist; a_engine := claude;
             a_model := MODELS.claude; a_via := subagent_prompt |} ])
  /\ (forall JSON_parse buildPrompt execFileAsync input verdicts prompts,
        executeAgents JSON_parse buildPrompt execFileAsync
          (resolveAgents config) input config = Normal (verdicts, prompts) ->
        (forall v, v ∈ verdicts -> v_role v <> pragmatist)
        /\ exists p, p ∈ prompts /\ s_role p = pragmatist).
Proof.
  split; [|split].
  - intros a. resolve_cases config; intros Ha Hrole;
      repeat (apply elem_of_cons in Ha as [->|Ha]); try (by inversion Ha);
      cbn in *; try discriminate; by split.
  - intros Hc Hg. apply has_true in Hc, Hg. unfold resolveAgents.
    by rewrite Hc, Hg.
  - intros JSON_parse buildPrompt execFileAsync input verdicts prompts.
    rewrite executeAgents_settles_all. intros [= <- <-]. split.
    + intros v [a [-> Ha]]%list_elem_of_fmap.
      rewrite settled_verdict_role.
      apply list_elem_of_filter in Ha as [Hvia Ha]. revert Ha Hvia.
      resolve_cases config; intros Ha Hvia;
        repeat (apply elem_of_cons in Ha as [->|Ha]); try (by inversion Ha);
        cbn in *; congruence.
    + eexists. split.
      * apply list_elem_of_fmap. eexists. split; [reflexivity|].
        apply list_elem_of_filter. split; [|apply list_elem_of_lookup; exists 2%nat].
        -- instantiate (1 := {| a_role := pragmatist; a_engine := claude;
                                a_model := MODELS.claude;
                                a_via := subagent_prompt |}).
           reflexivity.
        -- resolve_cases config; reflexivity.
      * reflexivity.
Qed.

Lemma resolveAgents_pragmatist_delegated_witness :
  resolveAgents (sample_config {[ext_codex; ext_gemini]})
  = [ {| a_role := devils_advocate; a_engine := codex;
         a_model := MODELS.codex; a_via := subprocess |};
      {| a_role := architecture_critic; a_engine := gemini;
         a_model := MODELS.gemini; a_via := subprocess |};
      {| a_role := pragmatist; a_engine := claude;
         a_model := MODELS.claude; a_via := subagent_prompt |} ].
Proof.
  apply (resolveAgents_pragmatist_delegated (sample_config {[ext_codex; ext_gemini]}));
    cbn; set_solver.
Defined.

(** ** Numbers *)

Lemma pow2_pos (e : Z) : (0 < pow2 e)%Q.
Proof. by apply Qpower_0_lt. Qed.

Lemma pow2_add (a b : Z) : (pow2 (a + b) == pow2 a * pow2 b)%Q.
Proof. by apply Qpower_plus. Qed.

Lemma pow2_le (a b : Z) : (a <= b)%Z -> (pow2 a <= pow2 b)%Q.
Proof. intros H. by apply Qpower_le_compat_l. Qed.

Lemma pow2_lt_inv (a b : Z) : (pow2 a < pow2 b)%Q -> (a < b)%Z.
Proof. intros H. by apply (Qpower_lt_compat_l_inv 2). Qed.

Lemma pow2_inject (n : Z) : (0 <= n)%Z -> (pow2 n == inject_Z (2 ^ n))%Q.
Proof. intros H. unfold pow2. by rewrite Zpower_Qpower. Qed.

Lemma ilog2_spec (a : Q) :
  (0 < a)%Q -> (pow2 (ilog2 a) <= a)%Q /\ (a < pow2 (ilog2 a + 1))%Q.
Proof.
  intros Ha. destruct a as [n d]. 
  assert (Hn : (0 < n)%Z) by (unfold Qlt in Ha; cbn in Ha; lia).
  unfold ilog2. cbn [Qnum Qden].
  set (ln := Z.log2 n). set (ld := Z.log2 (Z.pos d)).
  destruct (Z.log2_spec n Hn) as [Hn1 Hn2]. fold ln in Hn1, Hn2.
  destruct (Z.log2_spec (Z.pos d) eq_refl) as [Hd1 Hd2]. fold ld in Hd1, Hd2.
  assert (Hln : (0 <= ln)%Z) by apply Z.log2_nonneg.
  assert (Hld : (0 <= ld)%Z) by apply Z.log2_nonneg.
  assert (Hq : (n # d == inject_Z n / inject_Z (Z.pos d))%Q) by apply Qmake_Qdiv.
  assert (Hdpos : (0 < inject_Z (Z.pos d))%Q) by (by rewrite <- (Zlt_Qlt 0)).
  (* bounds in Q *)
  assert (Qn1 : (pow2 ln <= inject_Z n)%Q)
    by (rewrite pow2_inject by done; by rewrite <- Zle_Qle).
  assert (Qn2 : (inject_Z n < pow2 (ln + 1))%Q).
  { rewrite pow2_inject by lia. rewrite <- Zlt_Qlt. by rewrite <- Z.add_1_r in Hn2. }
  assert (Qd1 : (pow2 ld <= inject_Z (Z.pos d))%Q)
    by (rewrite pow2_inject by done; by rewrite <- Zle_Qle).
  assert (Qd2 : (inject_Z (Z.pos d) < pow2 (ld + 1))%Q).
  { rewrite pow2_inject by lia. rewrite <- Zlt_Qlt. by rewrite <- Z.add_1_r in Hd2. }
  assert (Hup : (n # d < pow2 (ln - ld + 1))%Q).
  { rewrite Hq. apply Qlt_shift_div_r; [exact Hdpos|].
    apply (Qlt_le_trans _ _ _ Qn2).
    replace (ln + 1)%Z with ((ln - ld + 1) + ld)%Z by lia. rewrite pow2_add.
    apply Qmult_le_l; [apply pow2_pos|exact Qd1]. }
  assert (Hlo : (pow2 (ln - ld - 1) < n # d)%Q).
  { rewrite Hq. apply Qlt_shift_div_l; [exact Hdpos|].
    apply (Qlt_le_trans _ (pow2 (ln - ld - 1) * pow2 (ld + 1))).
    - apply Qmult_lt_l; [apply pow2_pos|exact Qd2].
    - rewrite <- pow2_add. by replace (ln - ld - 1 + (ld + 1))%Z with ln by lia. }
  destruct (Qle_bool (pow2 (ln - ld)) (n # d)) eqn:Hb.
  - apply Qle_bool_iff in Hb. by split.
  - split; [by apply Qlt_le_weak|].
    replace (ln - ld - 1 + 1)%Z with (ln - ld)%Z by lia.
    apply Qnot_le_lt. intros Hle. apply Qle_bool_iff in Hle. congruence.
Qed.

Lemma ilog2_mono (x y : Q) : (0 < x)%Q -> (x <= y)%Q -> (ilog2 x <= ilog2 y)%Z.
Proof.
  intros Hx Hxy.
  destruct (ilog2_spec x Hx) as [Hx1 _].
  destruct (ilog2_spec y) as [_ Hy2]; [lra|].
  assert (H : (ilog2 x < ilog2 y + 1)%Z); [|lia].
  apply pow2_lt_inv. lra.
Qed.

Lemma round_half_even_bounds (r : Q) :
  (Qfloor r <= round_half_even r <= Qfloor r + 1)%Z.
Proof.
  unfold round_half_even.
  destruct (r - inject_Z (Qfloor r) ?= 1 # 2)%Q; [destruct (Z.even _)| |]; lia.
Qed.

Lemma round_half_even_inject (k : Z) : round_half_even (inject_Z k) = k.
Proof.
  unfold round_half_even. rewrite Qfloor_Z.
  assert (H : (inject_Z k - inject_Z k ?= 1 # 2)%Q = Lt).
  { apply Qlt_alt. assert (E : (inject_Z k - inject_Z k == 0)%Q) by ring.
    by rewrite E. }
  by rewrite H.
Qed.

Lemma round_half_even_mono (r s : Q) :
  (r <= s)%Q -> (round_half_even r <= round_half_even s)%Z.
Proof.
  intros Hrs.
  pose proof (Qfloor_resp_le _ _ Hrs) as Hf.
  destruct (Z.eq_dec (Qfloor r) (Qfloor s)) as [Heq|Hne].
  - unfold round_half_even. rewrite <- Heq.
    destruct (r - inject_Z (Qfloor r) ?= 1 # 2)%Q eqn:Hr;
      destruct (s - inject_Z (Qfloor r) ?= 1 # 2)%Q eqn:Hs;
      try (destruct (Z.even (Qfloor r))); try lia; exfalso;
      first [apply Qeq_alt in Hr | apply Qlt_alt in Hr | apply Qgt_alt in Hr];
      first [apply Qeq_alt in Hs | apply Qlt_alt in Hs | apply Qgt_alt in Hs];
      revert Hrs Hr Hs; generalize (inject_Z (Qfloor r)); intros; lra.
  - pose proof (round_half_even_bounds r). pose proof (round_half_even_bounds s). lia.
Qed.

Lemma round_half_even_le (r : Q) (k : Z) :
  (r <= inject_Z k)%Q -> (round_half_even r <= k)%Z.
Proof.
  intros H. rewrite <- (round_half_even_inject k). by apply round_half_even_mono.
Qed.

Lemma round_half_even_ge (r : Q) (k : Z) :
  (inject_Z k <= r)%Q -> (k <= round_half_even r)%Z.
Proof.
  intros H. rewrite <- (round_half_even_inject k). by apply round_half_even_mono.
Qed.

Lemma ulp_exponent_mono (x y : Q) :
  (0 < x)%Q -> (x <= y)%Q -> (ulp_exponent x <= ulp_exponent y)%Z.
Proof.
  intros Hx Hxy. unfold ulp_exponent. pose proof (ilog2_mono x y Hx Hxy). lia.
Qed.

Lemma round64_pos_nonneg (a : Q) : (0 < a)%Q -> (0 <= round64_pos a)%Q.
Proof.
  intros Ha. unfold round64_pos.
  apply Qmult_le_0_compat; [|apply Qlt_le_weak, pow2_pos].
  change 0%Q with (inject_Z 0). rewrite <- Zle_Qle.
  apply round_half_even_ge. change (inject_Z 0) with 0%Q.
  apply Qle_shift_div_l; [apply pow2_pos|]. rewrite Qmult_0_l. lra.
Qed.

(** A value below the next power of two rounds to at most that power, or
    to at most one unit in the last place when it is smaller than that. *)
Lemma round64_pos_upper (x : Q) :
  (0 < x)%Q -> (round64_pos x <= pow2 (Z.max (ilog2 x + 1) (ulp_exponent x)))%Q.
Proof.
  intros Hx. destruct (ilog2_spec x Hx) as [_ Hup].
  unfold round64_pos. set (t := ulp_exponent x). set (e := ilog2 x) in *.
  set (k := Z.max (e + 1 - t) 0).
  assert (Hk : (Z.max (e + 1) t = k + t)%Z) by lia.
  rewrite Hk, pow2_add.
  apply Qmult_le_compat_r; [|apply Qlt_le_weak, pow2_pos].
  rewrite (pow2_inject k) by lia. rewrite <- Zle_Qle.
  apply round_half_even_le. rewrite <- (pow2_inject k) by lia.
  apply Qle_shift_div_r; [apply pow2_pos|].
  rewrite <- pow2_add, <- Hk.
  apply Qlt_le_weak, (Qlt_le_trans _ _ _ Hup), pow2_le. lia.
Qed.

(** A normal value rounds to at least the power of two below it. *)
Lemma round64_pos_lower (y : Q) :
  (0 < y)%Q -> (-1074 < ilog2 y - 52)%Z -> (pow2 (ilog2 y) <= round64_pos y)%Q.
Proof.
  intros Hy Hnormal. destruct (ilog2_spec y Hy) as [Hlo _].
  unfold round64_pos.
  assert (Ht : ulp_exponent y = (ilog2 y - 52)%Z) by (unfold ulp_exponent; lia).
  rewrite Ht. set (e := ilog2 y) in *.
  replace e with (52 + (e - 52))%Z at 1 by lia. rewrite pow2_add.
  apply Qmult_le_compat_r; [|apply Qlt_le_weak, pow2_pos].
  rewrite (pow2_inject 52) by lia. rewrite <- Zle_Qle.
  apply round_half_even_ge. rewrite <- (pow2_inject 52) by lia.
  apply Qle_shift_div_l; [apply pow2_pos|].
  rewrite <- pow2_add. by replace (52 + (e - 52))%Z with e by lia.
Qed.

Lemma round64_pos_mono (x y : Q) :
  (0 < x)%Q -> (x <= y)%Q -> (round64_pos x <= round64_pos y)%Q.
Proof.
  intros Hx Hxy. assert (Hy : (0 < y)%Q) by lra.
  pose proof (ulp_exponent_mono x y Hx Hxy) as Ht.
  destruct (Z.eq_dec (ulp_exponent x) (ulp_exponent y)) as [Heq|Hne].
  - unfold round64_pos. rewrite <- Heq.
    apply Qmult_le_compat_r; [|apply Qlt_le_weak, pow2_pos].
    rewrite <- Zle_Qle. apply round_half_even_mono.
    apply Qmult_le_compat_r; [exact Hxy|]. apply Qlt_le_weak, Qinv_lt_0_compat, pow2_pos.
  - assert (Hlt : (ulp_exponent x < ulp_exponent y)%Z) by lia.
    apply (Qle_trans _ _ _ (round64_pos_upper x Hx)).
    unfold ulp_exponent in Hlt.
    apply (Qle_trans _ (pow2 (ilog2 y))); [|apply round64_pos_lower; [exact Hy|lia]].
    apply pow2_le. unfold ulp_exponent. lia.
Qed.

Lemma round64_nonneg (x : Q) : (0 <= x)%Q -> (0 <= round64 x)%Q.
Proof.
  intros Hx. unfold round64. destruct (x ?= 0)%Q eqn:Hc.
  - lra.
  - apply Qlt_alt in Hc. lra.
  - apply Qgt_alt in Hc. by apply round64_pos_nonneg.
Qed.

(** Rounding is monotone (stated for what the confidence needs: values
    that are not negative). *)
Lemma round64_mono (x y : Q) :
  (0 <= x)%Q -> (x <= y)%Q -> (round64 x <= round64 y)%Q.
Proof.
  intros Hx Hxy. unfold round64 at 1. destruct (x ?= 0)%Q eqn:Hc.
  - apply round64_nonneg. lra.
  - apply Qlt_alt in Hc. lra.
  - apply Qgt_alt in Hc. unfold round64.
    assert (Hy : (y ?= 0)%Q = Gt) by (apply Qgt_alt; lra).
    rewrite Hy. by apply round64_pos_mono.
Qed.

Lemma binary64_comp (x y : Q) : (x == y)%Q -> binary64 x = binary64 y.
Proof.
  intros H. unfold binary64. rewrite (Qred_complete _ _ H).
  assert (Hb : Qle_bool 0 x = Qle_bool 0 y).
  { destruct (Qle_bool 0 x) eqn:Hx, (Qle_bool 0 y) eqn:Hy; try reflexivity; exfalso.
    - apply Qle_bool_iff in Hx. rewrite H in Hx. apply Qle_bool_iff in Hx. congruence.
    - apply Qle_bool_iff in Hy. rewrite <- H in Hy. apply Qle_bool_iff in Hy. congruence. }
  by rewrite Hb.
Qed.

(** Between two values that round to finite numbers, a value rounds to a
    finite number between them. *)
Lemma binary64_between (lo x hi a b : Q) :
  (0 <= lo)%Q -> (lo <= x)%Q -> (x <= hi)%Q ->
  binary64 lo = Num a -> binary64 hi = Num b ->
  exists r, binary64 x = Num r /\ (a <= r)%Q /\ (r <= b)%Q.
Proof.
  intros Hlo Hx Hhi Ha Hb.
  assert (Hr : forall q, (Qred q == q)%Q) by apply Qred_correct.
  assert (Hm1 : (round64 (Qred lo) <= round64 (Qred x))%Q)
    by (apply round64_mono; rewrite !Hr; lra).
  assert (Hm2 : (round64 (Qred x) <= round64 (Qred hi))%Q)
    by (apply round64_mono; rewrite !Hr; lra).
  assert (H0 : (0 <= round64 (Qred lo))%Q) by (apply round64_nonneg; rewrite Hr; lra).
  unfold binary64 in *.
  destruct (Qle_bool (pow2 1024) (Qabs (round64 (Qred lo)))) eqn:Elo;
    [by destruct (Qle_bool 0 lo)|].
  destruct (Qle_bool (pow2 1024) (Qabs (round64 (Qred hi)))) eqn:Ehi;
    [by destruct (Qle_bool 0 hi)|].
  injection Ha as <-. injection Hb as <-.
  assert (Hfin : Qle_bool (pow2 1024) (Qabs (round64 (Qred x))) = false).
  { destruct (Qle_bool _ (Qabs (round64 (Qred x)))) eqn:Ex; [|reflexivity].
    exfalso. apply Qle_bool_iff in Ex. rewrite Qabs_pos in Ex by lra.
    assert (Hover : (pow2 1024 <= Qabs (round64 (Qred hi)))%Q)
      by (rewrite Qabs_pos by lra; lra).
    apply Qle_bool_iff in Hover. congruence. }
  rewrite Hfin. eexists. split; [reflexivity|].
  rewrite (Hr (round64 (Qred lo))), (Hr (round64 (Qred x))),
    (Hr (round64 (Qred hi))).
  by split.
Qed.

Lemma binary64_0 : binary64 0 = Num 0.
Proof. by vm_compute. Qed.

Lemma binary64_1 : binary64 1 = Num 1.
Proof. by vm_compute. Qed.

Lemma binary64_100 : binary64 100 = Num 100.
Proof. by vm_compute. Qed.

(** Counting stops at [2^53]: one more is a tie, and it rounds back. *)
Lemma binary64_count_limit :
  binary64 (9007199254740992 + 1) = Num 9007199254740992.
Proof. by vm_compute. Qed.

(** ** Numbers: the values that need no rounding *)

Lemma round_half_even_comp (r s : Q) :
  (r == s)%Q -> round_half_even r = round_half_even s.
Proof.
  intros H. apply Z.le_antisymm; apply round_half_even_mono; rewrite H; apply Qle_refl.
Qed.

Lemma round64_pos_comp (x y : Q) :
  (0 < x)%Q -> (x == y)%Q -> (round64_pos x == round64_pos y)%Q.
Proof.
  intros Hx H. apply Qle_antisym; apply round64_pos_mono; rewrite <- ?H; try done;
    rewrite ?H; apply Qle_refl.
Qed.

Lemma round64_comp (x y : Q) : (x == y)%Q -> (round64 x == round64 y)%Q.
Proof.
  intros H. unfold round64. rewrite <- (Qcompare_comp x y H 0%Q 0%Q (Qeq_refl 0%Q)).
  destruct (x ?= 0)%Q eqn:Hc.
  - reflexivity.
  - apply Qlt_alt in Hc.
    assert (E : (round64_pos (- x) == round64_pos (- y))%Q)
      by (apply round64_pos_comp; [lra|by rewrite H]).
    by rewrite E.
  - apply Qgt_alt in Hc. by apply round64_pos_comp.
Qed.

(** A multiple of a power of two that is at least the unit in the last
    place is its own rounding. *)
Lemma round64_pos_exact (x : Q) (M t : Z) :
  (0 < x)%Q -> (x == inject_Z M * pow2 t)%Q -> (ulp_exponent x <= t)%Z ->
  (round64_pos x == x)%Q.
Proof.
  intros Hx HM Ht. unfold round64_pos. set (u := ulp_exponent x) in *.
  assert (Hsplit : (pow2 t == inject_Z (2 ^ (t - u)) * pow2 u)%Q).
  { rewrite <- (pow2_inject (t - u)) by lia. rewrite <- pow2_add.
    by replace (t - u + u)%Z with t by lia. }
  assert (Hq : (x / pow2 u == inject_Z (M * 2 ^ (t - u)))%Q).
  { rewrite HM, Hsplit, inject_Z_mult. field.
    apply Qnot_eq_sym, Qlt_not_eq, pow2_pos. }
  rewrite (round_half_even_comp _ _ Hq), round_half_even_inject.
  rewrite HM, Hsplit, inject_Z_mult. ring.
Qed.

(** The significand has at most 53 bits, or is [2^53]. *)
Lemma significand_bounds (x : Q) :
  (0 < x)%Q ->
  (0 <= round_half_even (x / pow2 (ulp_exponent x)) <= 2 ^ 53)%Z.
Proof.
  intros Hx. destruct (ilog2_spec x Hx) as [_ Hup]. split.
  - apply round_half_even_ge. change (inject_Z 0) with 0%Q.
    apply Qle_shift_div_l; [apply pow2_pos|]. rewrite Qmult_0_l. lra.
  - apply round_half_even_le. rewrite <- (pow2_inject 53) by lia.
    apply Qle_shift_div_r; [apply pow2_pos|]. rewrite <- pow2_add.
    apply Qlt_le_weak, (Qlt_le_trans _ _ _ Hup), pow2_le.
    unfold ulp_exponent. lia.
Qed.

Lemma ilog2_lt (x : Q) (e : Z) : (0 < x)%Q -> (x < pow2 e)%Q -> (ilog2 x < e)%Z.
Proof.
  intros Hx Hlt. destruct (ilog2_spec x Hx) as [Hlo _].
  apply pow2_lt_inv. lra.
Qed.

Lemma ilog2_le (x : Q) (e : Z) : (0 < x)%Q -> (x <= pow2 e)%Q -> (ilog2 x <= e)%Z.
Proof.
  intros Hx Hle. destruct (ilog2_spec x Hx) as [Hlo _].
  apply (Qpower_le_compat_l_inv 2); [|done]. fold (pow2 (ilog2 x)). fold (pow2 e). lra.
Qed.

(** A rounded value is its own rounding. *)
Lemma round64_pos_idem (q : Q) :
  (0 < q)%Q ->
  (round64_pos q == 0)%Q
  \/ (0 < round64_pos q)%Q /\ (round64_pos (round64_pos q) == round64_pos q)%Q.
Proof.
  intros Hq. pose proof (significand_bounds q Hq) as [HM0 HM1].
  assert (Hd : (round64_pos q
                == inject_Z (round_half_even (q / pow2 (ulp_exponent q)))
                   * pow2 (ulp_exponent q))%Q) by reflexivity.
  set (M := round_half_even (q / pow2 (ulp_exponent q))) in *.
  set (t := ulp_exponent q) in *.
  assert (Ht : (-1074 <= t)%Z) by (unfold t, ulp_exponent; lia).
  pose proof (pow2_pos t) as Hpt.
  destruct (Z.eq_dec M 0%Z) as [HM|HM].
  { left. rewrite Hd, HM. change (inject_Z 0) with 0%Q. ring. }
  right.
  assert (HMpos : (0 < inject_Z M)%Q) by (rewrite <- (Zlt_Qlt 0); lia).
  assert (Hpos : (0 < round64_pos q)%Q).
  { rewrite Hd. apply Qmult_lt_0_compat; [exact HMpos|exact Hpt]. }
  split; [exact Hpos|].
  destruct (Z.eq_dec M (2 ^ 53)%Z) as [Htop|Htop].
  - apply (round64_pos_exact _ 1 (53 + t)); [exact Hpos| |].
    + rewrite Hd, Htop, pow2_add, <- (pow2_inject 53) by lia.
      change (inject_Z 1) with 1%Q. ring.
    + assert (Hle : (ilog2 (round64_pos q) <= 53 + t)%Z).
      { apply ilog2_le; [exact Hpos|].
        rewrite Hd, Htop, pow2_add, <- (pow2_inject 53) by lia. apply Qle_refl. }
      unfold ulp_exponent. lia.
  - apply (round64_pos_exact _ M t); [exact Hpos|exact Hd|].
    assert (Hlt : (ilog2 (round64_pos q) < 53 + t)%Z).
    { apply ilog2_lt; [exact Hpos|]. rewrite Hd, pow2_add.
      apply Qmult_lt_compat_r; [exact Hpt|].
      rewrite (pow2_inject 53) by lia. rewrite <- Zlt_Qlt. lia. }
    unfold ulp_exponent. lia.
Qed.

Lemma round64_zero (x : Q) : (x == 0)%Q -> round64 x = 0%Q.
Proof. intros H. unfold round64. apply Qeq_alt in H. by rewrite H. Qed.

Lemma round64_idem (q : Q) : (round64 (round64 q) == round64 q)%Q.
Proof.
  unfold round64 at 2 3. destruct (q ?= 0)%Q eqn:Hc.
  - by rewrite round64_zero.
  - apply Qlt_alt in Hc.
    destruct (round64_pos_idem (- q)) as [H0|[Hpos Hidem]]; [lra| |].
    + rewrite round64_zero by (rewrite H0; reflexivity). rewrite H0. reflexivity.
    + unfold round64.
      assert (Hlt : (- round64_pos (- q) ?= 0)%Q = Lt).
      { apply (proj1 (Qlt_alt _ _)). lra. }
      rewrite Hlt.
      assert (E : (round64_pos (- - round64_pos (- q))
                   == round64_pos (round64_pos (- q)))%Q)
        by (apply round64_pos_comp; [lra|ring]).
      by rewrite E, Hidem.
  - apply Qgt_alt in Hc.
    destruct (round64_pos_idem q) as [H0|[Hpos Hidem]]; [lra| |].
    + rewrite round64_zero by exact H0. by rewrite H0.
    + unfold round64.
      assert (Hgt : (round64_pos q ?= 0)%Q = Gt) by (apply Qgt_alt; lra).
      by rewrite Hgt.
Qed.

Lemma Qle_bool_comp (a b c d : Q) :
  (a == b)%Q -> (c == d)%Q -> Qle_bool a c = Qle_bool b d.
Proof.
  intros Hab Hcd.
  destruct (Qle_bool a c) eqn:H1, (Qle_bool b d) eqn:H2; try reflexivity; exfalso.
  - apply Qle_bool_iff in H1. rewrite Hab, Hcd in H1.
    apply Qle_bool_iff in H1. congruence.
  - apply Qle_bool_iff in H2. rewrite <- Hab, <- Hcd in H2.
    apply Qle_bool_iff in H2. congruence.
Qed.

(** The value of a number is the numeral of that number. *)
Lemma binary64_idem (q d : Q) : binary64 q = Num d -> binary64 d = Num d.
Proof.
  unfold binary64. set (r := round64 (Qred q)).
  destruct (Qle_bool (pow2 1024) (Qabs r)) eqn:Hfin; [by destruct (Qle_bool 0 q)|].
  intros [= <-]. rewrite (Qred_complete _ _ (Qred_correct r)).
  assert (Hr : (round64 (Qred r) == r)%Q).
  { rewrite (round64_comp (Qred r) r (Qred_correct r)). apply round64_idem. }
  rewrite (Qle_bool_comp (pow2 1024) (pow2 1024) (Qabs (round64 (Qred r))) (Qabs r));
    [|reflexivity|by rewrite Hr].
  rewrite Hfin. f_equal. by apply Qred_complete.
Qed.

(** A product by 1 is not rounded. *)
Lemma number_mul_1 (q : Q) : number_mul (binary64 q) (Num 1) = binary64 q.
Proof.
  destruct (binary64 q) as [d| | |] eqn:Hq; try reflexivity.
  cbn [number_mul]. rewrite (binary64_comp (d * 1) d) by ring.
  by apply (binary64_idem q).
Qed.

Lemma Qred_inject_Z (k : Z) : Qred (inject_Z k) = inject_Z k.
Proof.
  unfold Qred, inject_Z.
  pose proof (Z.ggcd_gcd k 1) as Hg.
  pose proof (Z.ggcd_correct_divisors k 1) as Hd.
  destruct (Z.ggcd k 1) as [g [n d]]. cbn in *. rewrite Z.gcd_1_r in Hg. subst g.
  destruct Hd as [Hn Hd]. rewrite !Z.mul_1_l in *. by subst.
Qed.

(** Nor is an integer below [2^53]. *)
Lemma binary64_integer (k : Z) :
  (0 <= k < 2 ^ 53)%Z -> binary64 (inject_Z k) = Num (inject_Z k).
Proof.
  intros [H0 H1].
  destruct (Z.eq_dec k 0%Z) as [->|Hk]; [by vm_compute|].
  assert (Hpos : (0 < inject_Z k)%Q) by (rewrite <- (Zlt_Qlt 0); lia).
  assert (Hlt : (inject_Z k < pow2 53)%Q)
    by (rewrite (pow2_inject 53) by lia; by rewrite <- Zlt_Qlt).
  pose proof (Qred_inject_Z k) as Hred.
  assert (Hr : (round64 (inject_Z k) == inject_Z k)%Q).
  { unfold round64. assert (Hc : (inject_Z k ?= 0)%Q = Gt) by (by apply Qgt_alt).
    rewrite Hc. apply (round64_pos_exact _ k 0); [exact Hpos| |].
    - change (pow2 0) with 1%Q. ring.
    - pose proof (ilog2_lt _ 53 Hpos Hlt). unfold ulp_exponent. lia. }
  unfold binary64. rewrite Hred.
  assert (Hfin : Qle_bool (pow2 1024) (Qabs (round64 (inject_Z k))) = false).
  { destruct (Qle_bool _ _) eqn:E; [|reflexivity]. exfalso.
    apply Qle_bool_iff in E. rewrite Hr, Qabs_pos in E by lra.
    assert (Hbig : (pow2 53 <= pow2 1024)%Q) by (apply pow2_le; lia). lra. }
  rewrite Hfin. f_equal. rewrite <- Hred at 2. by apply Qred_complete.
Qed.

(** ** Result merger *)

Lemma filter_completed_nil (verdicts : list AgentVerdict) :
  (forall v, v ∈ verdicts -> v_status v <> completed) ->
  filter (fun v => v_status v = completed) verdicts = [].
Proof.
  induction verdicts as [|v l IH]; intros Hnone; [reflexivity|].
  rewrite filter_cons. destruct (decide (v_status v = completed)) as [Hv|_].
  - exfalso. apply (Hnone v); [left|exact Hv].
  - apply IH. intros w Hw. apply Hnone. by right.
Qed.

Lemma filter_completed_idem (verdicts : list AgentVerdict) :
  filter (fun v => v_status v = completed)
         (filter (fun v => v_status v = completed) verdicts)
  = filter (fun v => v_status v = completed) verdicts.
Proof.
  induction verdicts as [|v l IH]; [reflexivity|].
  rewrite filter_cons. destruct (decide (v_status v = completed)) as [Hv|Hv]; [|exact IH].
  rewrite filter_cons. destruct (decide (v_status v = completed)); [|done].
  by rewrite IH.
Qed.

Lemma filter_completed_all (verdicts : list AgentVerdict) :
  Forall (fun v => v_status v = completed)
         (filter (fun v => v_status v = completed) verdicts).
Proof.
  apply Forall_forall. intros v Hv.
  by apply list_elem_of_filter in Hv as [? _].
Qed.

Lemma filter_completed_length (verdicts : list AgentVerdict) :
  (length (filter (fun v => v_status v = completed) verdicts) <= length verdicts)%nat.
Proof.
  induction verdicts as [|v l IH]; [done|]. rewrite filter_cons.
  destruct (decide (v_status v = completed)); cbn; lia.
Qed.

(** The tally loop counts, for each decision, the completed verdicts that
    carry it. *)
Lemma tally_completed (verdicts : list AgentVerdict) (counts : Counts) :
  let counts' :=
    fold_left (fun counts v => increment counts (v_verdict v))
              (filter (fun v => v_status v = completed) verdicts) counts in
  n_proceed counts' = (n_proceed counts + completed_with proceed verdicts)%nat
  /\ n_proceed_with_changes counts'
     = (n_proceed_with_changes counts
        + completed_with proceed_with_changes verdicts)%nat
  /\ n_block counts' = (n_block counts + completed_with block verdicts)%nat.
Proof.
  revert counts. induction verdicts as [|v l IH]; intros counts.
  - cbn. lia.
  - unfold completed_with in *. cbn zeta in *. rewrite !filter_cons.
    destruct (decide (v_status v = completed)) as [Hs|Hs].
    + cbn [fold_left].
      destruct (IH (increment counts (v_verdict v))) as (Hp & Hc & Hb).
      rewrite Hp, Hc, Hb.
      destruct (v_verdict v) eqn:Hv;
        repeat (destruct (decide _) as [[? ?]|?]; try congruence;
                try (exfalso; intuition congruence));
        cbn; lia.
    + destruct (IH counts) as (Hp & Hc & Hb). rewrite Hp, Hc, Hb.
      repeat (destruct (decide _) as [[? ?]|?]; try congruence); lia.
Qed.

Lemma two_decimals_binary64 (k : Z) : two_decimals (binary64 (inject_Z k / 100)).
Proof.
  unfold two_decimals. destruct (binary64 (inject_Z k / 100)) eqn:E; [|done..].
  by exists k.
Qed.

(** What [Math.round(x * 100) / 100] gives is written with two decimals
    when it is finite. *)
Lemma round2_two_decimals (x : number) : two_decimals (round2 x).
Proof.
  unfold round2. rewrite binary64_100.
  destruct (number_mul x (Num 100)) as [y| | |]; try done.
  apply (two_decimals_binary64 (Qfloor (y + (1 # 2)))).
Qed.

Lemma completed_confidence_two_decimals (l : list AgentVerdict) :
  two_decimals (completed_confidence l).
Proof.
  unfold completed_confidence. destruct (fold_left add_weighted l _) as [tw wc].
  destruct (number_gtb tw (binary64 0)); [apply round2_two_decimals|].
  rewrite (binary64_comp 0.5 (inject_Z 50 / 100)) by reflexivity.
  apply two_decimals_binary64.
Qed.

(** Rounding to two decimals keeps the unit interval. *)
Lemma round2_unit_interval (x : Q) :
  (0 <= x <= 1)%Q -> hundredth (round2 (Num x)) /\ in_unit_interval (round2 (Num x)).
Proof.
  intros [H0 H1]. unfold round2. rewrite binary64_100. cbn [number_mul].
  destruct (binary64_between 0 (x * 100) 100 0 100) as (y & Ey & Hy0 & Hy1);
    [lra|lra|lra|apply binary64_0|apply binary64_100|].
  rewrite Ey. cbn [Math_round]. set (k := Qfloor (y + (1 # 2))).
  assert (Hlo : (0 <= k)%Z).
  { apply (Z.le_trans _ (Qfloor (1 # 2))); [done|]. apply Qfloor_resp_le. lra. }
  assert (Hhi : (k <= 100)%Z).
  { apply (Z.le_trans _ (Qfloor (100 + (1 # 2)))); [|done].
    apply Qfloor_resp_le. lra. }
  assert (Hdiv : number_div (Num (inject_Z k)) (Num 100)
                 = binary64 (inject_Z k / 100)) by reflexivity.
  rewrite Hdiv. split; [by exists k|].
  assert (Hk0 : (0 <= inject_Z k)%Q) by (by rewrite <- (Zle_Qle 0)).
  assert (Hk1 : (inject_Z k <= 100)%Q)
    by (change 100%Q with (inject_Z 100); by rewrite <- Zle_Qle).
  destruct (binary64_between 0 (inject_Z k / 100) 1 0 1) as (r & Er & Hr0 & Hr1);
    [lra| | |apply binary64_0|apply binary64_1|].
  - apply Qle_shift_div_l; [reflexivity|]. lra.
  - apply Qle_shift_div_r; [reflexivity|]. lra.
  - rewrite Er. by split.
Qed.

(** Over completed verdicts with confidences in the unit interval the
    loop keeps [0 <= weightedConfidence <= totalWeight], both finite, and
    the total weight is at least 1 once a verdict has been counted. *)
Lemma add_weighted_bounds (l : list AgentVerdict) (tw wc : Q) :
  Forall (fun v => v_status v = completed) l ->
  Forall (fun v => (0 <= v_confidence v <= 1)%Q) l ->
  (0 <= wc <= tw)%Q -> (tw <= 9007199254740992)%Q ->
  exists tw' wc',
    fold_left add_weighted l (Num tw, Num wc) = (Num tw', Num wc')
    /\ (0 <= wc' <= tw')%Q /\ (tw' <= 9007199254740992)%Q
    /\ ((1 <= tw)%Q \/ l <> [] -> (1 <= tw')%Q).
Proof.
  revert tw wc. induction l as [|v l IH]; intros tw wc Hdone Hconf Hacc Hmax.
  - exists tw, wc. cbn. split; [reflexivity|]. split; [exact Hacc|].
    split; [exact Hmax|]. by intros [H|H].
  - apply Forall_cons in Hdone as [Hv Hdone].
    apply Forall_cons in Hconf as [Hc Hconf].
    cbn [fold_left].
    destruct (binary64_between 0 (v_confidence v) 1 0 1) as (c & Ec & Hc0 & Hc1);
      [lra|lra|lra|apply binary64_0|apply binary64_1|].
    destruct (binary64_between 0 (c * 1) 1 0 1) as (p & Ep & Hp0 & Hp1);
      [lra|lra|lra|apply binary64_0|apply binary64_1|].
    destruct (binary64_between 1 (tw + 1) (9007199254740992 + 1) 1 9007199254740992)
      as (tw1 & Etw & Htw0 & Htw1);
      [lra|lra|lra|apply binary64_1|apply binary64_count_limit|].
    destruct (binary64_between 0 (wc + p) (tw + 1) 0 tw1) as (wc1 & Ewc & Hwc0 & Hwc1);
      [lra|lra|lra|apply binary64_0|exact Etw|].
    assert (Hstep : add_weighted (Num tw, Num wc) v = (Num tw1, Num wc1)).
    { unfold add_weighted. destruct (decide (v_status v = completed)); [|done].
      rewrite binary64_1, Ec. cbn [number_mul number_add]. by rewrite Ep, Etw, Ewc. }
    rewrite Hstep.
    destruct (IH tw1 wc1 Hdone Hconf) as (tw' & wc' & Efold & Hb & Hm & Hone);
      [by split|exact Htw1|].
    exists tw', wc'. split; [exact Efold|]. split; [exact Hb|]. split; [exact Hm|].
    intros _. apply Hone. by left.
Qed.

(** The confidence of completed verdicts whose confidences are in the
    unit interval is in it, and has two decimals. *)
Lemma completed_confidence_unit (l : list AgentVerdict) :
  l <> [] ->
  Forall (fun v => v_status v = completed) l ->
  Forall (fun v => (0 <= v_confidence v <= 1)%Q) l ->
  hundredth (completed_confidence l) /\ in_unit_interval (completed_confidence l).
Proof.
  intros Hne Hdone Hconf. unfold completed_confidence. rewrite binary64_0.
  destruct (add_weighted_bounds l 0 0 Hdone Hconf) as (tw & wc & -> & Hb & _ & Hone);
    [lra|done|].
  assert (Htw : (1 <= tw)%Q) by (apply Hone; by right).
  assert (Hgt : number_gtb (Num tw) (Num 0) = true).
  { cbn. destruct (Qle_bool tw 0) eqn:E; [|reflexivity].
    apply Qle_bool_iff in E. lra. }
  rewrite Hgt.
  assert (Hdiv : number_div (Num wc) (Num tw) = binary64 (wc / tw)).
  { cbn. destruct (Qeq_bool tw 0) eqn:E; [|reflexivity].
    apply Qeq_bool_iff in E. lra. }
  rewrite Hdiv.
  destruct (binary64_between 0 (wc / tw) 1 0 1) as (r & Er & Hr0 & Hr1);
    [lra| | |apply binary64_0|apply binary64_1|].
  - apply Qle_shift_div_l; lra.
  - apply Qle_shift_div_r; lra.
  - rewrite Er. apply round2_unit_interval. by split.
Qed.

(** The induction principle of [json], with the elements of an array and
    the members of an object. *)
Lemma json_induction (P : json -> Prop) :
  P JNull -> (forall b, P (JBool b)) -> (forall q, P (JNum q)) ->
  (forall s, P (JStr s)) ->
  (forall items, Forall P items -> P (JArr items)) ->
  (forall fields, Forall (fun member => P member.2) fields -> P (JObj fields)) ->
  forall v, P v.
Proof.
  intros Hnull Hbool Hnum Hstr Harr Hobj. fix IH 1.
  intros [ | b | q | s | items | fields].
  - exact Hnull.
  - apply Hbool.
  - apply Hnum.
  - apply Hstr.
  - apply Harr. induction items as [|x l IHl]; constructor; [apply IH|exact IHl].
  - apply Hobj. induction fields as [|[k x] l IHl]; constructor; [apply IH|exact IHl].
Qed.

Lemma obj_get_elem (fields : list (string * json)) (k : string) (w : json) :
  obj_get fields k = Some w -> exists k', (k', w) ∈ fields.
Proof.
  induction fields as [|[k' x] l IH]; cbn; [discriminate|].
  destruct (obj_get l k) as [y|] eqn:Hrest.
  - intros [= ->]. destruct (IH eq_refl) as (k'' & Hin). exists k''. by right.
  - destruct (String.eqb k' k); [|discriminate].
    intros [= ->]. exists k'. left.
Qed.

Lemma sequence_returns {A} (cs : list (completion A)) :
  Forall (fun c => exists a, c = Normal a) cs -> exists l, sequence cs = Normal l.
Proof.
  induction 1 as [|c cs (a & ->) _ (l & IH)]; [by exists []|].
  exists (a :: l). cbn. by rewrite IH.
Qed.

Lemma flat_mapM_returns {A B} (f : A -> completion (list B)) (l : list A) :
  (exists ys, flat_mapM f l = Normal ys)
  <-> forall x, x ∈ l -> exists ys, f x = Normal ys.
Proof.
  induction l as [|x l IH]; cbn.
  - split; [by intros _ x Hx; inversion Hx|by exists []].
  - split.
    + intros (ys & Hys) y Hy. destruct (f x) as [xs|e] eqn:Hx; [|discriminate].
      cbn in Hys. destruct (flat_mapM f l) as [zs|e] eqn:Hl; [|discriminate].
      apply elem_of_cons in Hy as [->|Hy]; [by exists xs|].
      apply IH; [by exists zs|exact Hy].
    + intros Hall. destruct (Hall x) as (xs & ->); [left|].
      destruct (proj2 IH) as (zs & ->); [intros y Hy; apply Hall; by right|].
      by eexists.
Qed.

(** What a loop that returned has pushed for each element. *)
Lemma flat_mapM_elem {A B} (f : A -> completion (list B)) (l : list A)
    (ys : list B) (x : A) :
  flat_mapM f l = Normal ys -> x ∈ l ->
  exists xs, f x = Normal xs /\ forall y, y ∈ xs -> y ∈ ys.
Proof.
  revert ys. induction l as [|z l IH]; intros ys Hys Hx; [by inversion Hx|].
  cbn in Hys. destruct (f z) as [zs|e] eqn:Hz; [|discriminate].
  cbn in Hys. destruct (flat_mapM f l) as [rest|e] eqn:Hl; [|discriminate].
  injection Hys as <-.
  apply elem_of_cons in Hx as [->|Hx].
  - exists zs. split; [exact Hz|]. intros y Hy. apply elem_of_app. by left.
  - destruct (IH rest eq_refl Hx) as (xs & Hxs & Hsub).
    exists xs. split; [exact Hxs|]. intros y Hy. apply elem_of_app. right. by apply Hsub.
Qed.

(** An element that pushes nothing can be left out. *)
Lemma flat_mapM_skip {A B} (f : A -> completion (list B)) (before after : list A)
    (x : A) :
  f x = Normal [] ->
  flat_mapM f (before ++ x :: after)%list = flat_mapM f (before ++ after)%list.
Proof.
  intros Hx. induction before as [|y l IH]; cbn.
  - rewrite Hx. cbn. by destruct (flat_mapM f after).
  - by rewrite IH.
Qed.

Section ResultMergerFacts.

Variable JSON_stringify : json -> string.
Variable Number_toString : Q -> string.

(** [String] converts a plain value without throwing. *)
Lemma ToString_plain (v : json) :
  plain v = true -> exists s, ToString Number_toString v = Normal s.
Proof.
  induction v as [ | b | q | s | items IH | fields _] using json_induction;
    intros Hplain.
  - by eexists.
  - destruct b; by eexists.
  - by eexists.
  - by eexists.
  - cbn [ToString].
    destruct (sequence_returns
                (map (fun x => match x with
                               | JNull => Normal ""
                               | _ => ToString Number_toString x
                               end) items)) as (parts & ->); [|by eexists].
    apply Forall_map. cbn [plain] in Hplain.
    rewrite forallb_forall in Hplain.
    apply Forall_forall. intros x Hx.
    rewrite Forall_forall in IH.
    specialize (IH x Hx (Hplain x (proj1 (list_elem_of_In _ _) Hx))).
    destruct x; try exact IH. by eexists.
  - cbn [ToString plain] in *.
    destruct (obj_get fields "toString"); [discriminate|by eexists].
Qed.

Lemma String_of_plain (v : option json) :
  (forall w, v = Some w -> plain w = true) ->
  exists s, String_of Number_toString v = Normal s.
Proof.
  destruct v as [w|]; intros H; [|by eexists]. apply ToString_plain. by apply H.
Qed.

(** The members of a plain object are plain. *)
Lemma field_plain (v : json) (k : string) (w : json) :
  plain v = true -> field v k = Some w -> plain w = true.
Proof.
  destruct v as [ | | | | |fields]; try discriminate. cbn [plain field].
  destruct (obj_get fields "toString"); [discriminate|].
  intros Hall Hget. destruct (obj_get_elem _ _ _ Hget) as (k' & Hin).
  rewrite forallb_forall in Hall.
  apply (Hall (k', w)). by apply list_elem_of_In.
Qed.

Lemma nullish_or_plain (a b : option json) (w : json) :
  (forall x, a = Some x -> plain x = true) ->
  (forall x, b = Some x -> plain x = true) ->
  nullish_or a b = Some w -> plain w = true.
Proof.
  intros Ha Hb. destruct a as [[]|]; cbn; intros H; first [by apply Hb|by apply Ha].
Qed.

Lemma array_items_plain (v : option json) (x : json) :
  (forall w, v = Some w -> plain w = true) -> x ∈ array_items v -> plain x = true.
Proof.
  destruct v as [[ | | | |items| ]|]; cbn; intros H Hx; try by inversion Hx.
  specialize (H _ eq_refl). cbn in H. rewrite forallb_forall in H.
  apply H. by apply list_elem_of_In.
Qed.

Lemma title_of_plain (issue : json) :
  plain issue = true ->
  exists s, title_of JSON_stringify Number_toString issue = Normal s.
Proof.
  intros Hplain. apply String_of_plain. intros w Hw.
  apply (nullish_or_plain _ _ _) in Hw; [exact Hw| |].
  - intros x. by apply field_plain.
  - intros x Hx. apply (nullish_or_plain _ _ _) in Hx; [exact Hx| |].
    + intros y. by apply field_plain.
    + by intros y [= <-].
Qed.

Lemma issues_of_verdict_plain (v : AgentVerdict) :
  plain (v_raw_output v) = true ->
  exists l, issues_of_verdict JSON_stringify Number_toString v = Normal l.
Proof.
  intros Hplain. unfold issues_of_verdict.
  destruct (negb (is_object (v_raw_output v))); [by eexists|].
  match goal with
  | |- context [flat_mapM ?f (array_items (field _ "critical_issues"))] =>
      destruct (proj2 (flat_mapM_returns f
                  (array_items (field (v_raw_output v) "critical_issues"))))
        as (critical & ->)
  end.
  { intros x Hx. apply array_items_plain in Hx; [|intros w; by apply field_plain].
    destruct x; try (by eexists);
      destruct (title_of_plain _ Hx) as (s & ->); by eexists. }
  cbn.
  match goal with
  | |- context [flat_mapM ?f (array_items (field _ "structural_issues"))] =>
      destruct (proj2 (flat_mapM_returns f
                  (array_items (field (v_raw_output v) "structural_issues"))))
        as (structural & ->)
  end.
  { intros x Hx. apply array_items_plain in Hx; [|intros w; by apply field_plain].
    destruct (is_object x); [|by eexists].
    destruct (title_of_plain _ Hx) as (s & ->). by eexists. }
  by eexists.
Qed.

Lemma recommendations_of_verdict_plain (v : AgentVerdict) :
  plain (v_raw_output v) = true ->
  exists l, recommendations_of_verdict JSON_stringify Number_toString v = Normal l.
Proof.
  intros Hplain. unfold recommendations_of_verdict.
  destruct (negb (is_object (v_raw_output v))); [by eexists|].
  match goal with
  | |- context [flat_mapM ?f (array_items (field _ "recommendations"))] =>
      destruct (proj2 (flat_mapM_returns f
                  (array_items (field (v_raw_output v) "recommendations"))))
        as (listed & ->)
  end.
  { intros x Hx. apply array_items_plain in Hx; [|intros w; by apply field_plain].
    destruct x; try (by eexists);
      destruct (title_of_plain _ Hx) as (s & ->); by eexists. }
  cbn.
  match goal with
  | |- context [flat_mapM ?f (array_items (field _ "phasing_suggestion"))] =>
      destruct (proj2 (flat_mapM_returns f
                  (array_items (field (v_raw_output v) "phasing_suggestion"))))
        as (phases & ->)
  end.
  { intros x Hx. apply array_items_plain in Hx; [|intros w; by apply field_plain].
    destruct (is_object x); [|by eexists].
    destruct (String_of_plain (field x "phase")) as (s & ->);
      [intros w; by apply field_plain|].
    destruct (String_of_plain (nullish_or (field x "title") (field x "scope")))
      as (t & ->); [|by eexists].
    intros w. apply nullish_or_plain; intros y; by apply field_plain. }
  by eexists.
Qed.

(** The two extractions return when every payload is plain. *)
Lemma extraction_returns (verdicts : list AgentVerdict) :
  (forall v, v ∈ verdicts -> plain (v_raw_output v) = true) ->
  (exists issues,
     extractCriticalIssues JSON_stringify Number_toString verdicts = Normal issues)
  /\ (exists recs,
        extractRecommendations JSON_stringify Number_toString verdicts = Normal recs).
Proof.
  intros Hplain. unfold extractCriticalIssues, extractRecommendations. split.
  - destruct (proj2 (flat_mapM_returns
                       (issues_of_verdict JSON_stringify Number_toString) verdicts))
      as (l & ->); [|by eexists].
    intros v Hv. by apply issues_of_verdict_plain, Hplain.
  - destruct (proj2 (flat_mapM_returns
                       (recommendations_of_verdict JSON_stringify Number_toString)
                       verdicts))
      as (l & ->); [|by eexists].
    intros v Hv. by apply recommendations_of_verdict_plain, Hplain.
Qed.

(** Without a completed verdict [computeConsensus] returns before it
    reads a payload. *)
Lemma computeConsensus_none (verdicts : list AgentVerdict) :
  filter (fun v => v_status v = completed) verdicts = [] ->
  computeConsensus JSON_stringify Number_toString verdicts
  = Normal
      {| c_verdict := proceed_with_changes;
         c_confidence := binary64 0.2;
         c_critical_issues :=
           ["All agents failed or timed out — proceed with extreme caution"];
         c_recommendations :=
           ["Re-run the protocol or manually review the changes"] |}.
Proof. intros Hnone. unfold computeConsensus. by rewrite Hnone. Qed.

(** With a completed verdict it computes the decision and the confidence
    from the completed verdicts, then extracts the two lists, which may
    throw. *)
Lemma computeConsensus_some (verdicts : list AgentVerdict) :
  filter (fun v => v_status v = completed) verdicts <> [] ->
  computeConsensus JSON_stringify Number_toString verdicts
  = (critical_issues ←
       extractCriticalIssues JSON_stringify Number_toString verdicts;
     recommendations ←
       extractRecommendations JSON_stringify Number_toString verdicts;
     Normal
       {| c_verdict := tallied_decision verdicts;
          c_confidence :=
            completed_confidence (filter (fun v => v_status v = completed) verdicts);
          c_critical_issues := critical_issues;
          c_recommendations := recommendations |}).
Proof.
  intros Hne. unfold computeConsensus, completed_confidence, tallied_decision.
  destruct (filter (fun v => v_status v = completed) verdicts) as [|v l] eqn:Hf;
    [done|].
  rewrite <- Hf. replace (length _ =? 0)%nat with false by (by rewrite Hf).
  destruct (tally_completed verdicts
              {| n_proceed := 0; n_proceed_with_changes := 0; n_block := 0 |})
    as (_ & Hc & Hb).
  cbn [n_proceed n_proceed_with_changes n_block Nat.add] in Hc, Hb.
  rewrite Hc, Hb.
  destruct (fold_left add_weighted _ _) as [tw wc].
  destruct (2 <=? completed_with block verdicts)%nat; [reflexivity|].
  by destruct (completed_with block verdicts =? 1)%nat,
              (1 <=? completed_with proceed_with_changes verdicts)%nat.
Qed.

(** What a consensus that was returned for a completed verdict holds. *)
Lemma computeConsensus_returned (verdicts : list AgentVerdict) (consensus : Consensus) :
  filter (fun v => v_status v = completed) verdicts <> [] ->
  computeConsensus JSON_stringify Number_toString verdicts = Normal consensus ->
  c_verdict consensus = tallied_decision verdicts
  /\ c_confidence consensus
     = completed_confidence (filter (fun v => v_status v = completed) verdicts)
  /\ extractCriticalIssues JSON_stringify Number_toString verdicts
     = Normal (c_critical_issues consensus)
  /\ extractRecommendations JSON_stringify Number_toString verdicts
     = Normal (c_recommendations consensus).
Proof.
  intros Hne. rewrite (computeConsensus_some verdicts Hne).
  destruct (extractCriticalIssues _ _ verdicts) as [issues|e]; [|discriminate].
  destruct (extractRecommendations _ _ verdicts) as [recs|e]; [|discriminate].
  by intros [= <-].
Qed.

(** [computeConsensus] returns when every payload is plain. *)
Lemma computeConsensus_returns (verdicts : list AgentVerdict) :
  (forall v, v ∈ verdicts -> plain (v_raw_output v) = true) ->
  exists consensus,
    computeConsensus JSON_stringify Number_toString verdicts = Normal consensus.
Proof.
  intros Hplain.
  destruct (filter (fun v => v_status v = completed) verdicts) as [|v l] eqn:Hf.
  - rewrite (computeConsensus_none verdicts Hf). by eexists.
  - rewrite computeConsensus_some by (by rewrite Hf).
    destruct (extraction_returns verdicts Hplain) as [(issues & ->) (recs & ->)].
    by eexists.
Qed.

Lemma completed_filter_nonempty (verdicts : list AgentVerdict) :
  (exists v, v ∈ verdicts /\ v_status v = completed) ->
  filter (fun v => v_status v = completed) verdicts <> [].
Proof.
  intros (v0 & Hin & Hdone) Hnil.
  assert (Hv0 : v0 ∈ filter (fun v => v_status v = completed) verdicts)
    by (by apply list_elem_of_filter).
  rewrite Hnil in Hv0. by inversion Hv0.
Qed.

End ResultMergerFacts.

Section ResultMergerClaims.

Variable JSON_stringify : json -> string.
Variable Number_toString : Q -> string.

(** C1. When at least one verdict is completed, the decision of the
    consensus that [computeConsensus] returns follows the ordered rule on
    the completed verdicts: two or more blocks give block; exactly one
    block gives proceed_with_changes whatever the others say; no block and
    at least one proceed_with_changes give proceed_with_changes;
    otherwise, every completed verdict saying proceed, the decision is
    proceed.  The decision is settled before the payloads are read; reading
    them can throw, and [computeConsensus] returns whenever no payload
    holds an object with a member named [toString]. *)
Theorem computeConsensus_decision_rule (verdicts : list AgentVerdict) :
  (exists v, v ∈ verdicts /\ v_status v = completed) ->
  let blocks := completed_with block verdicts in
  let changes := completed_with proceed_with_changes verdicts in
  (forall consensus,
     computeConsensus JSON_stringify Number_toString verdicts = Normal consensus ->
     let decision := c_verdict consensus in
     (2 <= blocks -> decision = block)%nat
     /\ (blocks = 1 -> decision = proceed_with_changes)%nat
     /\ (blocks = 0 -> 1 <= changes -> decision = proceed_with_changes)%nat
     /\ (blocks = 0 -> changes = 0 ->
         decision = proceed
         /\ forall v, v ∈ verdicts -> v_status v = completed ->
                      v_verdict v = proceed)%nat)
  /\ ((forall v, v ∈ verdicts -> plain (v_raw_output v) = true) ->
      exists consensus,
        computeConsensus JSON_stringify Number_toString verdicts = Normal consensus).
Proof.
  intros Hsome. cbn zeta. split; [|apply computeConsensus_returns].
  intros consensus Hrun.
  destruct (computeConsensus_returned _ _ verdicts consensus
              (completed_filter_nonempty verdicts Hsome) Hrun) as (-> & _).
  unfold tallied_decision.
  split; [|split; [|split]].
  - intros H2. apply Nat.leb_le in H2. by rewrite H2.
  - by intros ->.
  - intros -> H1. apply Nat.leb_le in H1. by rewrite H1.
  - intros Hblocks Hchanges. split; [by rewrite Hblocks, Hchanges|].
    intros v Hv Hs.
    destruct (v_verdict v) eqn:Hd; [reflexivity| |]; exfalso.
    + unfold completed_with in Hchanges. apply length_zero_iff_nil in Hchanges.
      assert (Hmem : v ∈ filter (fun v => v_status v = completed
                                           ∧ v_verdict v = proceed_with_changes)
                                verdicts)
        by (by apply list_elem_of_filter).
      rewrite Hchanges in Hmem. by inversion Hmem.
    + unfold completed_with in Hblocks. apply length_zero_iff_nil in Hblocks.
      assert (Hmem : v ∈ filter (fun v => v_status v = completed
                                           ∧ v_verdict v = block) verdicts)
        by (by apply list_elem_of_filter).
      rewrite Hblocks in Hmem. by inversion Hmem.
Qed.

(** C8. When no verdict is completed, the empty list included,
    [computeConsensus] returns the degraded consensus: decision
    proceed_with_changes, confidence 0.2, a single issue that says that
    all agents failed, and a single recommendation to run the protocol
    again. *)
Theorem computeConsensus_degraded (verdicts : list AgentVerdict) :
  (forall v, v ∈ verdicts -> v_status v <> completed) ->
  exists consensus,
    computeConsensus JSON_stringify Number_toString verdicts = Normal consensus
    /\ c_verdict consensus = proceed_with_changes
    /\ c_confidence consensus = binary64 0.2
    /\ c_critical_issues consensus
       = ["All agents failed or timed out — proceed with extreme caution"]
    /\ length (c_critical_issues consensus) = 1%nat
    /\ c_recommendations consensus
       = ["Re-run the protocol or manually review the changes"].
Proof.
  intros Hnone. eexists. split.
  - apply computeConsensus_none, filter_completed_nil, Hnone.
  - by repeat split.
Qed.

(** C2. The confidence loop runs over the completed verdicts only, so a
    verdict with status timeout or error does not enter the mean at all:
    with a completed verdict of confidence 0.9 and an errored one of
    confidence 0.3 the code answers 0.9, as it does for the completed
    verdict alone, where the mean weighted 1.0 and 0.3 is 0.99 / 1.3,
    rounded 0.76. *)
Theorem computeConsensus_confidence_drops_failed :
  let verdicts := [ sample_verdict completed proceed 0.9;
                    sample_verdict error proceed_with_changes 0.3 ] in
  exists consensus alone,
    computeConsensus JSON_stringify Number_toString verdicts = Normal consensus
    /\ computeConsensus JSON_stringify Number_toString
         [sample_verdict completed proceed 0.9] = Normal alone
    /\ c_confidence consensus = binary64 0.9
    /\ spec_confidence verdicts = binary64 0.76
    /\ c_confidence consensus <> spec_confidence verdicts
    /\ c_confidence consensus = c_confidence alone.
Proof.
  cbn zeta. do 2 eexists. split; [by vm_compute|]. split; [by vm_compute|].
  repeat split; by vm_compute.
Qed.

(** C9, as the code has it.  The confidence of the consensus that
    [computeConsensus] returns is written with two decimals whenever it is
    finite, and when the confidence of every completed verdict lies in the
    unit interval it lies in it: it is one of 0, 0.01, ..., 1.
    [computeConsensus] returns whenever no payload holds an object with a
    member named [toString]. *)
Theorem computeConsensus_confidence_range (verdicts : list AgentVerdict) :
  (forall consensus,
     computeConsensus JSON_stringify Number_toString verdicts = Normal consensus ->
     two_decimals (c_confidence consensus)
     /\ ((forall v, v ∈ verdicts -> v_status v = completed ->
                     (0 <= v_confidence v <= 1)%Q) ->
         in_unit_interval (c_confidence consensus)
         /\ hundredth (c_confidence consensus)))
  /\ ((forall v, v ∈ verdicts -> plain (v_raw_output v) = true) ->
      exists consensus,
        computeConsensus JSON_stringify Number_toString verdicts = Normal consensus).
Proof.
  split; [|apply computeConsensus_returns].
  intros consensus Hrun.
  destruct (filter (fun v => v_status v = completed) verdicts) as [|v0 l] eqn:Hf.
  - rewrite (computeConsensus_none _ _ verdicts Hf) in Hrun.
    injection Hrun as <-. cbn [c_confidence].
    assert (H20 : binary64 0.2 = binary64 (inject_Z 20 / 100))
      by (by apply binary64_comp).
    split; [rewrite H20; apply two_decimals_binary64|].
    intros _. split; [by vm_compute|]. exists 20%Z. by split; [lia|].
  - assert (Hne : filter (fun v => v_status v = completed) verdicts <> [])
      by (by rewrite Hf).
    destruct (computeConsensus_returned _ _ verdicts consensus Hne Hrun)
      as (_ & -> & _).
    split; [apply completed_confidence_two_decimals|].
    intros Hunit.
    apply and_comm, completed_confidence_unit; [exact Hne|apply filter_completed_all|].
    apply Forall_forall. intros v Hv.
    apply list_elem_of_filter in Hv as [Hs Hv]. by apply Hunit.
Qed.

End ResultMergerClaims.

Lemma computeConsensus_decision_rule_witness :
  exists consensus,
    computeConsensus (fun _ => "") (fun _ => "")
      [ sample_verdict completed block 0.9;
        sample_verdict completed proceed 0.8;
        sample_verdict timeout proceed_with_changes 0.3 ] = Normal consensus
    /\ c_verdict consensus = proceed_with_changes.
Proof.
  destruct (computeConsensus_decision_rule (fun _ => "") (fun _ => "")
              [ sample_verdict completed block 0.9;
                sample_verdict completed proceed 0.8;
                sample_verdict timeout proceed_with_changes 0.3 ])
    as [Hrule Hreturns].
  - exists (sample_verdict completed block 0.9). split; [left|reflexivity].
  - destruct Hreturns as (consensus & Hrun).
    + intros v Hv.
      repeat (apply elem_of_cons in Hv as [-> | Hv]); try reflexivity.
      by inversion Hv.
    + exists consensus. split; [exact Hrun|].
      by apply (proj1 (proj2 (Hrule consensus Hrun))).
Defined.

Lemma computeConsensus_degraded_witness :
  exists consensus,
    computeConsensus (fun _ => "") (fun _ => "")
      [ sample_verdict timeout proceed_with_changes 0.3;
        sample_verdict error proceed_with_changes 0.3 ] = Normal consensus
    /\ c_confidence consensus = binary64 0.2.
Proof.
  destruct (computeConsensus_degraded (fun _ => "") (fun _ => "")
              [ sample_verdict timeout proceed_with_changes 0.3;
                sample_verdict error proceed_with_changes 0.3 ])
    as (consensus & Hrun & _ & Hconf & _).
  - intros v Hv.
    repeat (apply elem_of_cons in Hv as [-> | Hv]); try (by inversion Hv);
      discriminate.
  - by exists consensus.
Defined.

(** A completed verdict whose confidence is 7 gives a consensus of
    confidence 7: nothing clamps the value. *)
Lemma computeConsensus_confidence_unclamped :
  exists consensus,
    computeConsensus (fun _ => "") (fun _ => "")
      [sample_verdict completed proceed 7] = Normal consensus
    /\ c_confidence consensus = Num 7
    /\ ~ in_unit_interval (c_confidence consensus).
Proof.
  eexists. split; [by vm_compute|]. split; [reflexivity|].
  intros [_ H]. by vm_compute in H.
Qed.

(** Nor is the confidence always finite: a confidence written [1e400] is
    the number [Infinity], and so is the consensus; with [-1e400] beside it
    the consensus is [NaN]. *)
Example computeConsensus_confidence_not_finite :
  exists consensus consensus',
    computeConsensus (fun _ => "") (fun _ => "")
      [sample_verdict completed proceed (inject_Z (10 ^ 400))] = Normal consensus
    /\ c_confidence consensus = PosInfinity
    /\ computeConsensus (fun _ => "") (fun _ => "")
         [ sample_verdict completed proceed (inject_Z (10 ^ 400));
           sample_verdict completed proceed (- inject_Z (10 ^ 400)) ]
       = Normal consensus'
    /\ c_confidence consensus' = NaN.
Proof. do 2 eexists. repeat split; by vm_compute. Qed.

(** The rounding of each sum shows in the result: the mean of 0.7 and
    0.85 is 0.775 and the consensus is 0.77; of 0.145 alone it is 0.14; and
    0.5, 0.505 and 0.57 give 0.52 in that order and 0.53 in the reverse
    one. *)
Example computeConsensus_confidence_rounding :
  completed_confidence [ sample_verdict completed proceed 0.7;
                         sample_verdict completed proceed 0.85 ] = binary64 0.77
  /\ completed_confidence [sample_verdict completed proceed 0.145] = binary64 0.14
  /\ completed_confidence [ sample_verdict completed proceed 0.5;
                            sample_verdict completed proceed 0.505;
                            sample_verdict completed proceed 0.57 ] = binary64 0.52
  /\ completed_confidence [ sample_verdict completed proceed 0.57;
                            sample_verdict completed proceed 0.505;
                            sample_verdict completed proceed 0.5 ] = binary64 0.53.
Proof. repeat split; by vm_compute. Qed.

(** Two completed verdicts that block, one of them with an issue titled
    by an object that has a member named [toString]: the conversion of the
    title throws, and there is no consensus. *)
Example computeConsensus_throws :
  computeConsensus (fun _ => "") (fun _ => "")
    [shadowed_title_verdict; sample_verdict completed block 0.9]
  = Throw (TypeError "Cannot convert object to primitive value").
Proof. by vm_compute. Qed.

Lemma computeConsensus_confidence_range_witness :
  exists consensus,
    computeConsensus (fun _ => "") (fun _ => "")
      [ sample_verdict completed proceed 0.8;
        sample_verdict completed proceed 0.9;
        sample_verdict completed proceed_with_changes 0.6 ] = Normal consensus
    /\ in_unit_interval (c_confidence consensus).
Proof.
  destruct (computeConsensus_confidence_range (fun _ => "") (fun _ => "")
              [ sample_verdict completed proceed 0.8;
                sample_verdict completed proceed 0.9;
                sample_verdict completed proceed_with_changes 0.6 ])
    as [Hrange Hreturns].
  destruct Hreturns as (consensus & Hrun).
  - intros v Hv.
    repeat (apply elem_of_cons in Hv as [-> | Hv]); try reflexivity.
    by inversion Hv.
  - exists consensus. split; [exact Hrun|].
    apply (Hrange consensus Hrun).
    intros v Hv _.
    repeat (apply elem_of_cons in Hv as [-> | Hv]); try (by inversion Hv);
      split; by vm_compute.
Defined.

(** ** Response normalizer *)

(** The three kinds of output of the round trip: a fenced block, a bare
    object and prose. *)
Example parseAgentOutput_fenced :
  parseAgentOutput JSON.parse
    ("```json
" ++ block_object ++ "
```
") pragmatist
  = Normal (JObj [("verdict", JStr "block")]).
Proof. reflexivity. Qed.

Example parseAgentOutput_bare :
  parseAgentOutput JSON.parse ("  " ++ block_object) pragmatist
  = Normal (JObj [("verdict", JStr "block")]).
Proof. reflexivity. Qed.

Example parseAgentOutput_in_prose :
  parseAgentOutput JSON.parse ("Here it is: " ++ block_object ++ ". Done.") pragmatist
  = Normal (JObj [("verdict", JStr "block")]).
Proof. reflexivity. Qed.

Example parseAgentOutput_prose :
  parseAgentOutput JSON.parse prose_output pragmatist
  = Normal (fallback_payload prose_output pragmatist).
Proof. reflexivity. Qed.

(** C4. On the output [null] the normalizer returns, without raising,
    the value [null], which is no record: [invokeExternal] then fails to
    read its [verdict] and reports the agent as errored although the
    process succeeded. *)
Theorem parseAgentOutput_null_payload :
  parseAgentOutput JSON.parse null_output devils_advocate = Normal JNull
  /\ is_object JNull = false
  /\ (exists e, get_property JNull "verdict" = Throw e)
  /\ exists v,
      invokeExternal JSON.parse sample_prompt (exec_settling (Normal null_output))
        codex_assignment sample_input (sample_config {[ext_codex]}) = Normal v
      /\ v_status v = error
      /\ v_raw_output v = JNull
      /\ v_error v
         = Some "Agent failed: Cannot read properties of null (reading 'verdict')".
Proof.
  split; [reflexivity|]. split; [reflexivity|]. split; [by eexists|].
  eexists. split; [reflexivity|]. by repeat split.
Qed.

(** C5, as the code has it.  The normalizer parses the cleaned text, the
    output trimmed and stripped of one opening and one closing fence; if
    that throws it parses the text from the first opening brace to the
    last closing brace of the cleaned text, when there is one after the
    other; if there is none or that throws too it returns the fallback
    payload, whose decision is proceed_with_changes and whose note ends
    with the first 500 characters of the raw output.  A stage is reached
    only when every earlier one has failed. *)
Theorem parseAgentOutput_stages (JSON_parse : string -> completion json)
    (output : string) (role : AgentRole) :
  let cleaned := trim (strip_closing_fence (strip_opening_fence (trim output))) in
  parseAgentOutput JSON_parse output role
  = match JSON_parse cleaned with
    | Normal payload => Normal payload
    | Throw _ =>
        match brace_span cleaned with
        | Some span =>
            match JSON_parse span with
            | Normal payload => Normal payload
            | Throw _ => Normal (fallback_payload output role)
            end
        | None => Normal (fallback_payload output role)
        end
    end
  /\ field (fallback_payload output role) "verdict"
     = Some (JStr "proceed_with_changes")
  /\ exists note,
      field (fallback_payload output role) "reasoning"
      = Some (JStr ("[" ++ ROLE_LABELS_label role
                    ++ "] Raw output (could not parse as JSON): " ++ note))
      /\ String.prefix note output = true
      /\ String.length note = Nat.min 500 (String.length output).
Proof.
  cbn zeta. split; [|split].
  - unfold parseAgentOutput, try_catch, clean_output.
    by rewrite match_braces_span.
  - reflexivity.
  - exists (slice0 500 output). split; [reflexivity|]. apply slice0_prefix.
Qed.

(** The second stage does not look for the first balanced pair of
    braces: with two objects in prose the first balanced one parses, and
    the code returns the fallback payload. *)
Lemma parseAgentOutput_not_first_balanced :
  first_balanced_braces (clean_output two_objects_output) = Some block_object
  /\ JSON.parse block_object = Normal (JObj [("verdict", JStr "block")])
  /\ spec_parseAgentOutput JSON.parse two_objects_output devils_advocate
     = Normal (JObj [("verdict", JStr "block")])
  /\ parseAgentOutput JSON.parse two_objects_output devils_advocate
     = Normal (fallback_payload two_objects_output devils_advocate)
  /\ parseAgentOutput JSON.parse two_objects_output devils_advocate
     <> spec_parseAgentOutput JSON.parse two_objects_output devils_advocate.
Proof. repeat split; try reflexivity. discriminate. Qed.

(** C6, as the code has it.  From a parsed payload other than [null],
    [invokeExternal] takes the decision and the confidence with defaults:
    a [verdict] that is missing, not a string or not one of the three
    decisions gives proceed_with_changes, and a [confidence] that is
    missing or not a number gives 0.5.  The fallback payload of the
    normalizer carries the same decision, and the confidence 0.4. *)
Theorem invokeExternal_extraction_defaults
    (JSON_parse : string -> completion json)
    (buildPrompt : AgentRole -> ReviewInput -> string)
    (execFileAsync : string -> list string -> ExecOptions -> ExecSettled)
    (a : AgentAssignment) (input : ReviewInput) (config : RuntimeConfig)
    (cmd : string) (args : list string) (stdout : string) (parsed : json) :
  external_command (a_engine a)
    (buildStructuredPrompt buildPrompt (a_role a) input) = Normal (cmd, args) ->
  settled (execFileAsync cmd args (exec_options config)) = Normal stdout ->
  parseAgentOutput JSON_parse stdout (a_role a) = Normal parsed ->
  parsed <> JNull ->
  (exists v,
      invokeExternal JSON_parse buildPrompt execFileAsync a input config = Normal v
      /\ v_status v = completed
      /\ v_raw_output v = parsed
      /\ (field parsed "verdict" = None -> v_verdict v = proceed_with_changes)
      /\ (forall x, field parsed "verdict" = Some x ->
                    (forall s, s ∈ VALID_VERDICTS -> x <> JStr s) ->
                    v_verdict v = proceed_with_changes)
      /\ (field parsed "confidence" = None -> v_confidence v = 0.5%Q)
      /\ (forall x, field parsed "confidence" = Some x ->
                    (forall q, x <> JNum q) -> v_confidence v = 0.5%Q)
      /\ (forall q, field parsed "confidence" = Some (JNum q) -> v_confidence v = q)
      /\ (forall w, isVerdict (field parsed "verdict") = Some w -> v_verdict v = w))
  /\ (forall output role,
        isVerdict (field (fallback_payload output role) "verdict")
        = Some proceed_with_changes
        /\ isNumber (field (fallback_payload output role) "confidence")
           = Some 0.4%Q).
Proof.
  intros Hcmd Hexec Hparse Hnonnull. split; [|by intros].
  assert (Hprop : forall k, get_property parsed k = Normal (field parsed k)).
  { intros k. by destruct parsed. }
  eexists. split.
  { unfold invokeExternal. rewrite Hcmd. cbn. rewrite Hexec. cbn.
    rewrite Hparse. cbn. rewrite !Hprop. cbn. reflexivity. }
  cbn. repeat split.
  - by intros ->.
  - intros x -> Hx. destruct x as [| | |s| |]; try reflexivity. cbn.
    destruct (bool_decide (s ∈ VALID_VERDICTS)) eqn:Hs; [|reflexivity].
    apply bool_decide_eq_true in Hs. by destruct (Hx s Hs).
  - by intros ->.
  - intros x -> Hx. destruct x as [| |q| | |]; try reflexivity.
    by destruct (Hx q).
  - by intros q ->.
  - by intros w ->.
Qed.

Lemma invokeExternal_extraction_defaults_witness :
  exists v,
    invokeExternal JSON.parse sample_prompt (exec_settling (Normal untyped_output))
      codex_assignment sample_input (sample_config {[ext_codex]}) = Normal v
    /\ v_status v = completed
    /\ v_verdict v = proceed_with_changes
    /\ v_confidence v = 0.5%Q.
Proof.
  destruct (invokeExternal_extraction_defaults JSON.parse sample_prompt
              (exec_settling (Normal untyped_output)) codex_assignment
              sample_input (sample_config {[ext_codex]})
              _ _ untyped_output (JObj [("verdict", JNum 5)])
              eq_refl eq_refl eq_refl)
    as [(v & Hv & Hs & _ & _ & Hd & Hc & _) _]; [discriminate|].
  exists v. split; [exact Hv|]. split; [exact Hs|]. split.
  - apply (Hd (JNum 5)); [reflexivity|discriminate].
  - by apply Hc.
Defined.

(** The confidence the fallback payload carries is not the default of
    the extraction: an agent that answers in prose completes with
    confidence 0.4, not 0.5. *)
Lemma fallback_confidence_is_not_the_default :
  exists v,
    invokeExternal JSON.parse sample_prompt (exec_settling (Normal prose_output))
      codex_assignment sample_input (sample_config {[ext_codex]}) = Normal v
    /\ v_raw_output v = fallback_payload prose_output devils_advocate
    /\ isNumber (field (v_raw_output v) "confidence") = Some 0.4%Q
    /\ v_confidence v = 0.4%Q
    /\ ~ (v_confidence v == default 0.5 (isNumber None))%Q.
Proof.
  eexists. split; [reflexivity|]. repeat split. by vm_compute.
Qed.

(** * Further properties of the code *)

(** ** Result merger: the decision *)

Lemma completed_with_Permutation (d : Verdict) (l l' : list AgentVerdict) :
  l ≡ₚ l' -> completed_with d l = completed_with d l'.
Proof. intros H. unfold completed_with. by rewrite H. Qed.

Lemma tallied_decision_Permutation (l l' : list AgentVerdict) :
  l ≡ₚ l' -> tallied_decision l = tallied_decision l'.
Proof.
  intros H. unfold tallied_decision.
  by rewrite !(completed_with_Permutation _ _ _ H).
Qed.

Section ResultMergerOrder.

Variable JSON_stringify : json -> string.
Variable Number_toString : Q -> string.

(** Whether [computeConsensus] returns: it does without a completed
    verdict, and otherwise when the loop body of each extraction returns
    for every verdict. *)
Lemma computeConsensus_returns_iff (verdicts : list AgentVerdict) :
  (exists consensus,
     computeConsensus JSON_stringify Number_toString verdicts = Normal consensus)
  <-> filter (fun v => v_status v = completed) verdicts = []
      \/ forall v, v ∈ verdicts ->
           (exists l, issues_of_verdict JSON_stringify Number_toString v = Normal l)
           /\ (exists l, recommendations_of_verdict JSON_stringify Number_toString v
                         = Normal l).
Proof.
  destruct (filter (fun v => v_status v = completed) verdicts) as [|v0 l0] eqn:Hf.
  - rewrite (computeConsensus_none _ _ verdicts Hf). split; [by left|by eexists].
  - rewrite computeConsensus_some by (by rewrite Hf).
    unfold extractCriticalIssues, extractRecommendations.
    pose proof (flat_mapM_returns
                  (issues_of_verdict JSON_stringify Number_toString) verdicts) as Hi.
    pose proof (flat_mapM_returns
                  (recommendations_of_verdict JSON_stringify Number_toString)
                  verdicts) as Hr.
    destruct (flat_mapM (issues_of_verdict _ _) verdicts) as [issues|e];
      destruct (flat_mapM (recommendations_of_verdict _ _) verdicts) as [recs|e'];
      cbn; split.
    + intros _. right. intros v Hv. split; [apply Hi|apply Hr]; by eauto.
    + by eexists.
    + intros (c & Hc). discriminate.
    + intros [H|H]; [discriminate|].
      destruct (proj2 Hr) as (l & Hl); [intros v Hv; by apply H|discriminate].
    + intros (c & Hc). discriminate.
    + intros [H|H]; [discriminate|].
      destruct (proj2 Hi) as (l & Hl); [intros v Hv; by apply H|discriminate].
    + intros (c & Hc). discriminate.
    + intros [H|H]; [discriminate|].
      destruct (proj2 Hi) as (l & Hl); [intros v Hv; by apply H|discriminate].
Qed.

(** X1. Neither the decision nor whether [computeConsensus] returns
    depends on the order of the verdicts: for two lists that are
    permutations of each other, both calls return or both throw, and
    consensuses that are returned have the same decision. *)
Theorem computeConsensus_order_independent (verdicts verdicts' : list AgentVerdict) :
  verdicts ≡ₚ verdicts' ->
  ((exists consensus,
      computeConsensus JSON_stringify Number_toString verdicts = Normal consensus)
   <-> (exists consensus',
          computeConsensus JSON_stringify Number_toString verdicts'
          = Normal consensus'))
  /\ (forall consensus consensus',
        computeConsensus JSON_stringify Number_toString verdicts = Normal consensus ->
        computeConsensus JSON_stringify Number_toString verdicts' = Normal consensus' ->
        c_verdict consensus = c_verdict consensus').
Proof.
  intros Hperm.
  assert (Hfilter : filter (fun v => v_status v = completed) verdicts
                    ≡ₚ filter (fun v => v_status v = completed) verdicts')
    by (by rewrite Hperm).
  assert (Hnil : filter (fun v => v_status v = completed) verdicts = []
                 <-> filter (fun v => v_status v = completed) verdicts' = []).
  { split; intros H; rewrite H in Hfilter.
    - symmetry in Hfilter. by apply Permutation_nil_r in Hfilter.
    - by apply Permutation_nil_r in Hfilter. }
  split.
  - rewrite !computeConsensus_returns_iff, Hnil.
    split; (intros [H|H]; [by left|right]); intros v Hv; apply H.
    + by rewrite Hperm.
    + by rewrite <- Hperm.
  - intros consensus consensus' Hrun Hrun'.
    destruct (filter (fun v => v_status v = completed) verdicts) as [|v0 l0] eqn:Hf.
    + rewrite (computeConsensus_none _ _ verdicts Hf) in Hrun.
      rewrite (computeConsensus_none _ _ verdicts' (proj1 Hnil eq_refl)) in Hrun'.
      by injection Hrun as <-; injection Hrun' as <-.
    + assert (Hne : filter (fun v => v_status v = completed) verdicts <> [])
        by (by rewrite Hf).
      assert (Hne' : filter (fun v => v_status v = completed) verdicts' <> []).
      { intros H. apply Hnil in H. discriminate. }
      destruct (computeConsensus_returned _ _ verdicts consensus Hne Hrun) as (-> & _).
      destruct (computeConsensus_returned _ _ verdicts' consensus' Hne' Hrun')
        as (-> & _).
      by apply tallied_decision_Permutation.
Qed.

End ResultMergerOrder.

Lemma computeConsensus_order_independent_witness :
  exists consensus consensus',
    computeConsensus (fun _ => "") (fun _ => "")
      [ sample_verdict completed block 0.9;
        sample_verdict completed proceed 0.8 ] = Normal consensus
    /\ computeConsensus (fun _ => "") (fun _ => "")
         [ sample_verdict completed proceed 0.8;
           sample_verdict completed block 0.9 ] = Normal consensus'
    /\ c_verdict consensus = c_verdict consensus'.
Proof.
  destruct (computeConsensus_order_independent (fun _ => "") (fun _ => "")
              [ sample_verdict completed block 0.9;
                sample_verdict completed proceed 0.8 ]
              [ sample_verdict completed proceed 0.8;
                sample_verdict completed block 0.9 ]) as [Hreturns Hsame].
  - apply Permutation_swap.
  - assert (Hrun : exists consensus,
               computeConsensus (fun _ => "") (fun _ => "")
                 [ sample_verdict completed block 0.9;
                   sample_verdict completed proceed 0.8 ] = Normal consensus)
      by (eexists; by vm_compute).
    destruct (proj1 Hreturns Hrun) as (consensus' & Hrun').
    destruct Hrun as (consensus & Hrun).
    exists consensus, consensus'.
    split; [exact Hrun|]. split; [exact Hrun'|]. by apply Hsame.
Defined.

(** Over completed verdicts the loop counts the verdicts and adds their
    confidences: each weight is 1, and neither the count nor the product
    by the weight is rounded. *)
Lemma add_weighted_sums (l : list AgentVerdict) (n : Z) (acc : number) :
  Forall (fun v => v_status v = completed) l ->
  (0 <= n)%Z -> (n + Z.of_nat (length l) < 2 ^ 53)%Z ->
  fold_left add_weighted l (Num (inject_Z n), acc)
  = (Num (inject_Z (n + Z.of_nat (length l))),
     fold_left (fun acc v => number_add acc (binary64 (v_confidence v))) l acc).
Proof.
  revert n acc. induction l as [|v l IH]; intros n acc Hdone Hn Hmax.
  - cbn. by rewrite Z.add_0_r.
  - apply Forall_cons in Hdone as [Hv Hdone]. cbn [fold_left].
    cbn [length] in Hmax. rewrite Nat2Z.inj_succ in Hmax.
    assert (Hstep : add_weighted (Num (inject_Z n), acc) v
                    = (Num (inject_Z (n + 1)),
                       number_add acc (binary64 (v_confidence v)))).
    { unfold add_weighted. destruct (decide (v_status v = completed)); [|done].
      rewrite binary64_1, number_mul_1. cbn [number_add]. f_equal.
      rewrite (binary64_comp (inject_Z n + 1) (inject_Z (n + 1)))
        by (rewrite inject_Z_plus; reflexivity).
      apply binary64_integer. lia. }
    rewrite Hstep, IH by (try done; lia).
    cbn [length]. rewrite Nat2Z.inj_succ. do 2 f_equal. f_equal. lia.
Qed.

Section ResultMergerMean.

Variable JSON_stringify : json -> string.
Variable Number_toString : Q -> string.

(** X2. With at least one completed verdict, in a list of fewer than
    [2^32] verdicts as every array is, the confidence of the consensus that
    [computeConsensus] returns is [Math.round(mean * 100) / 100], where
    [mean] is the sum of the confidences of the completed verdicts, added
    in their order, divided by their number: each completed verdict counts
    once, and a verdict that is not completed does not count.
    [computeConsensus] returns whenever no payload holds an object with a
    member named [toString]. *)
Theorem computeConsensus_confidence_mean (verdicts : list AgentVerdict) :
  (exists v, v ∈ verdicts /\ v_status v = completed) ->
  (Z.of_nat (length verdicts) < 2 ^ 32)%Z ->
  let completedVerdicts := filter (fun v => v_status v = completed) verdicts in
  (forall consensus,
     computeConsensus JSON_stringify Number_toString verdicts = Normal consensus ->
     c_confidence consensus
     = round2 (number_div (sum_confidence completedVerdicts)
                          (binary64 (inject_Z (Z.of_nat (length completedVerdicts))))))
  /\ ((forall v, v ∈ verdicts -> plain (v_raw_output v) = true) ->
      exists consensus,
        computeConsensus JSON_stringify Number_toString verdicts = Normal consensus).
Proof.
  intros Hsome Hlen. cbn zeta. split; [|apply computeConsensus_returns].
  intros consensus Hrun.
  pose proof (completed_filter_nonempty verdicts Hsome) as Hne.
  destruct (computeConsensus_returned _ _ verdicts consensus Hne Hrun) as (_ & -> & _).
  pose proof (filter_completed_length verdicts) as Hle.
  set (l := filter (fun v => v_status v = completed) verdicts) in *.
  assert (Hcount : (0 < Z.of_nat (length l) < 2 ^ 53)%Z).
  { split; [destruct l; [done|cbn; lia]|]. lia. }
  unfold completed_confidence, sum_confidence. rewrite binary64_0.
  change (Num 0) with (Num (inject_Z 0)) at 1.
  rewrite (add_weighted_sums l 0) by (try apply filter_completed_all; lia).
  rewrite Z.add_0_l, binary64_integer by lia.
  assert (Hgt : number_gtb (Num (inject_Z (Z.of_nat (length l)))) (Num 0) = true).
  { cbn [number_gtb]. destruct (Qle_bool _ _) eqn:E; [|reflexivity].
    apply Qle_bool_iff in E. change 0%Q with (inject_Z 0) in E.
    rewrite <- Zle_Qle in E. lia. }
  by rewrite Hgt.
Qed.

End ResultMergerMean.

Lemma computeConsensus_confidence_mean_witness :
  exists consensus,
    computeConsensus (fun _ => "") (fun _ => "")
      [ sample_verdict completed proceed 0.7;
        sample_verdict error proceed_with_changes 0.3;
        sample_verdict completed proceed 0.85 ] = Normal consensus
    /\ c_confidence consensus = binary64 0.77.
Proof.
  destruct (computeConsensus_confidence_mean (fun _ => "") (fun _ => "")
              [ sample_verdict completed proceed 0.7;
                sample_verdict error proceed_with_changes 0.3;
                sample_verdict completed proceed 0.85 ]) as [Hmean Hreturns].
  - exists (sample_verdict completed proceed 0.7). split; [left|reflexivity].
  - by vm_compute.
  - destruct Hreturns as (consensus & Hrun).
    + intros v Hv.
      repeat (apply elem_of_cons in Hv as [-> | Hv]); try reflexivity.
      by inversion Hv.
    + exists consensus. split; [exact Hrun|].
      rewrite (Hmean consensus Hrun). by vm_compute.
Defined.

Lemma completed_with_zero (d : Verdict) (l : list AgentVerdict) :
  completed_with d l = 0%nat
  <-> forall v, v ∈ l -> v_status v = completed -> v_verdict v <> d.
Proof.
  unfold completed_with. rewrite length_zero_iff_nil. split.
  - intros Hnil v Hv Hs Hd.
    assert (Hmem : v ∈ filter (fun v => v_status v = completed ∧ v_verdict v = d) l)
      by (by apply list_elem_of_filter).
    rewrite Hnil in Hmem. by inversion Hmem.
  - intros Hnone. induction l as [|v l IH]; [reflexivity|].
    rewrite filter_cons. destruct (decide _) as [[Hs Hd]|_].
    + exfalso. apply (Hnone v); [left|exact Hs|exact Hd].
    + apply IH. intros w Hw. apply Hnone. by right.
Qed.

Lemma completed_with_le (d : Verdict) (l : list AgentVerdict) :
  (completed_with d l <= length (filter (fun v => v_status v = completed) l))%nat.
Proof.
  unfold completed_with. induction l as [|v l IH]; [done|].
  rewrite !filter_cons.
  destruct (decide (v_status v = completed ∧ v_verdict v = d)) as [[Hs _]|Hn];
    destruct (decide (v_status v = completed)) as [Hs'|Hs']; cbn; try lia.
  by destruct Hs'.
Qed.

Section ResultMergerDecision.

Variable JSON_stringify : json -> string.
Variable Number_toString : Q -> string.

(** The decision of a returned consensus, whether or not a verdict is
    completed. *)
Lemma computeConsensus_decision (verdicts : list AgentVerdict) (consensus : Consensus) :
  computeConsensus JSON_stringify Number_toString verdicts = Normal consensus ->
  c_verdict consensus
  = if (length (filter (fun v => v_status v = completed) verdicts) =? 0)%nat
    then proceed_with_changes
    else tallied_decision verdicts.
Proof.
  intros Hrun.
  destruct (filter (fun v => v_status v = completed) verdicts) as [|v0 l] eqn:Hf.
  - rewrite (computeConsensus_none _ _ verdicts Hf) in Hrun. by injection Hrun as <-.
  - assert (Hne : filter (fun v => v_status v = completed) verdicts <> [])
      by (by rewrite Hf).
    by destruct (computeConsensus_returned _ _ verdicts consensus Hne Hrun) as (-> & _).
Qed.

(** X3. The consensus that [computeConsensus] returns is block exactly
    when at least two completed verdicts block, and proceed exactly when
    some verdict is completed and every completed verdict says proceed; in
    every other case, total failure included, it is proceed_with_changes.
    [computeConsensus] returns whenever no payload holds an object with a
    member named [toString]. *)
Theorem computeConsensus_decision_characterised (verdicts : list AgentVerdict) :
  (forall consensus,
     computeConsensus JSON_stringify Number_toString verdicts = Normal consensus ->
     let decision := c_verdict consensus in
     (decision = block <-> (2 <= completed_with block verdicts)%nat)
     /\ (decision = proceed
         <-> (exists v, v ∈ verdicts /\ v_status v = completed)
             /\ forall v, v ∈ verdicts -> v_status v = completed ->
                          v_verdict v = proceed))
  /\ ((forall v, v ∈ verdicts -> plain (v_raw_output v) = true) ->
      exists consensus,
        computeConsensus JSON_stringify Number_toString verdicts = Normal consensus).
Proof.
  split; [|apply computeConsensus_returns].
  intros consensus Hrun. cbn zeta.
  rewrite (computeConsensus_decision verdicts consensus Hrun).
  destruct (filter (fun v => v_status v = completed) verdicts) as [|v0 l] eqn:Hf.
  - assert (Hnone : forall v, v ∈ verdicts -> v_status v <> completed).
    { intros v Hv Hs.
      assert (Hmem : v ∈ filter (fun v => v_status v = completed) verdicts)
        by (by apply list_elem_of_filter).
      rewrite Hf in Hmem. by inversion Hmem. }
    pose proof (completed_with_le block verdicts) as Hle. rewrite Hf in Hle.
    cbn in *. split; split.
    + discriminate.
    + lia.
    + discriminate.
    + intros [(v & Hv & Hs) _]. by destruct (Hnone v Hv).
  - assert (Hv0 : v0 ∈ verdicts /\ v_status v0 = completed).
    { assert (Hmem : v0 ∈ filter (fun v => v_status v = completed) verdicts)
        by (rewrite Hf; left).
      apply list_elem_of_filter in Hmem. tauto. }
    cbn [length Nat.eqb]. unfold tallied_decision.
    pose proof (completed_with_zero block verdicts) as Hb0.
    pose proof (completed_with_zero proceed_with_changes verdicts) as Hc0.
    destruct (2 <=? completed_with block verdicts)%nat eqn:H2.
    { apply Nat.leb_le in H2. split; split; try done.
      intros [_ Hall]. exfalso.
      assert (completed_with block verdicts = 0%nat); [|lia].
      apply Hb0. intros v Hv Hs. by rewrite (Hall v Hv Hs). }
    apply Nat.leb_gt in H2.
    destruct (completed_with block verdicts =? 1)%nat eqn:H1.
    { apply Nat.eqb_eq in H1. split; split; try done; try lia.
      intros [_ Hall]. exfalso.
      assert (completed_with block verdicts = 0%nat); [|lia].
      apply Hb0. intros v Hv Hs. by rewrite (Hall v Hv Hs). }
    apply Nat.eqb_neq in H1.
    destruct (1 <=? completed_with proceed_with_changes verdicts)%nat eqn:Hc.
    { apply Nat.leb_le in Hc. split; split; try done; try lia.
      intros [_ Hall]. exfalso.
      assert (completed_with proceed_with_changes verdicts = 0%nat); [|lia].
      apply Hc0. intros v Hv Hs. by rewrite (Hall v Hv Hs). }
    apply Nat.leb_gt in Hc. split; split; try done; try lia.
    intros _. split; [by exists v0|].
    intros v Hv Hs. destruct (v_verdict v) eqn:Hd; [reflexivity| |]; exfalso.
    + assert (H0 : completed_with proceed_with_changes verdicts = 0%nat) by lia.
      by apply (proj1 Hc0 H0 v Hv Hs).
    + assert (H0 : completed_with block verdicts = 0%nat) by lia.
      by apply (proj1 Hb0 H0 v Hv Hs).
Qed.

End ResultMergerDecision.

(** ** Result merger: issues and recommendations *)

Lemma dedupe_seen_elem (x : string) (seen l : list string) :
  x ∈ dedupe_seen seen l <-> x ∈ l /\ x ∉ seen.
Proof.
  revert seen. induction l as [|y l IH]; intros seen; cbn.
  - split; [by inversion 1|by intros [H _]; inversion H].
  - destruct (bool_decide (y ∈ seen)) eqn:Hy.
    + apply bool_decide_eq_true in Hy. rewrite IH, elem_of_cons.
      split; [tauto|]. intros [[->|H] Hn]; [done|tauto].
    + apply bool_decide_eq_false in Hy. rewrite !elem_of_cons, IH, elem_of_cons.
      split.
      * intros [->|[H Hn]]; [tauto|]. split; [tauto|]. tauto.
      * intros [[->|H] Hn]; [tauto|].
        destruct (decide (x = y)) as [->|Hne]; [tauto|]. right. tauto.
Qed.

Lemma dedupe_seen_NoDup (seen l : list string) : NoDup (dedupe_seen seen l).
Proof.
  revert seen. induction l as [|y l IH]; intros seen; cbn; [constructor|].
  destruct (bool_decide (y ∈ seen)); [apply IH|].
  constructor; [|apply IH].
  rewrite dedupe_seen_elem, elem_of_cons. tauto.
Qed.

(** The distinct strings come out in the order in which they first came
    in. *)
Lemma dedupe_seen_sublist (seen l : list string) : sublist (dedupe_seen seen l) l.
Proof.
  revert seen. induction l as [|y l IH]; intros seen; cbn; [constructor|].
  destruct (bool_decide (y ∈ seen)).
  - by apply sublist_cons.
  - by apply sublist_skip.
Qed.

Section ResultMergerLists.

Variable JSON_stringify : json -> string.
Variable Number_toString : Q -> string.

(** What an entry that is a string, or an object titled by a string,
    pushes. *)
Lemma listed_entry (entry : json) (text : string) :
  (entry = JStr text
   \/ exists members, entry = JObj members
                      /\ obj_get members "title" = Some (JStr text)) ->
  match entry with
  | JStr s => Normal [s]
  | JObj _ | JArr _ =>
      title ← title_of JSON_stringify Number_toString entry; Normal [title]
  | _ => Normal []
  end = Normal [text].
Proof.
  intros [->|(members & -> & Htitle)]; [reflexivity|].
  unfold title_of. cbn. by rewrite Htitle.
Qed.

(** X4. The issue list and the recommendation list that the extractions
    return have no duplicates, and nothing a payload lists as a plain
    string or under a string title is lost: a string entry of
    [critical_issues] or [recommendations], and the title of an object
    entry, of any verdict whose payload is an object, is in the list.
    The extractions return whenever no payload holds an object with a
    member named [toString]. *)
Theorem extracted_lists_distinct_and_complete (verdicts : list AgentVerdict) :
  (forall issues,
     extractCriticalIssues JSON_stringify Number_toString verdicts = Normal issues ->
     NoDup issues
     /\ forall v fields items entry text,
          v ∈ verdicts -> v_raw_output v = JObj fields ->
          obj_get fields "critical_issues" = Some (JArr items) ->
          entry ∈ items ->
          (entry = JStr text
           \/ exists members, entry = JObj members
                              /\ obj_get members "title" = Some (JStr text)) ->
          text ∈ issues)
  /\ (forall recs,
        extractRecommendations JSON_stringify Number_toString verdicts = Normal recs ->
        NoDup recs
        /\ forall v fields items entry text,
             v ∈ verdicts -> v_raw_output v = JObj fields ->
             obj_get fields "recommendations" = Some (JArr items) ->
             entry ∈ items ->
             (entry = JStr text
              \/ exists members, entry = JObj members
                                 /\ obj_get members "title" = Some (JStr text)) ->
             text ∈ recs)
  /\ ((forall v, v ∈ verdicts -> plain (v_raw_output v) = true) ->
      (exists issues,
         extractCriticalIssues JSON_stringify Number_toString verdicts
         = Normal issues)
      /\ (exists recs,
            extractRecommendations JSON_stringify Number_toString verdicts
            = Normal recs)).
Proof.
  split; [|split; [|apply extraction_returns]].
  - intros issues Hrun. unfold extractCriticalIssues in Hrun.
    destruct (flat_mapM _ verdicts) as [pushed|e] eqn:Hloop; [|discriminate].
    injection Hrun as <-. split; [apply dedupe_seen_NoDup|].
    intros v fields items entry text Hv Hraw Hfield Hentry Hshape.
    apply dedupe_seen_elem. split; [|by inversion 1].
    destruct (flat_mapM_elem _ _ _ v Hloop Hv) as (own & Hown & Hsub).
    apply Hsub. unfold issues_of_verdict in Hown. rewrite Hraw in Hown.
    cbn in Hown. rewrite Hfield in Hown. cbn in Hown.
    destruct (flat_mapM _ items) as [critical|e] eqn:Hitems; [|discriminate].
    cbn in Hown.
    destruct (flat_mapM _ (array_items _)) as [structural|e]; [|discriminate].
    injection Hown as <-.
    destruct (flat_mapM_elem _ _ _ entry Hitems Hentry) as (one & Hone & Hin).
    rewrite (listed_entry entry text Hshape) in Hone. injection Hone as <-.
    apply elem_of_app. left. apply Hin. left.
  - intros recs Hrun. unfold extractRecommendations in Hrun.
    destruct (flat_mapM _ verdicts) as [pushed|e] eqn:Hloop; [|discriminate].
    injection Hrun as <-. split; [apply dedupe_seen_NoDup|].
    intros v fields items entry text Hv Hraw Hfield Hentry Hshape.
    apply dedupe_seen_elem. split; [|by inversion 1].
    destruct (flat_mapM_elem _ _ _ v Hloop Hv) as (own & Hown & Hsub).
    apply Hsub. unfold recommendations_of_verdict in Hown. rewrite Hraw in Hown.
    cbn in Hown. rewrite Hfield in Hown. cbn in Hown.
    destruct (flat_mapM _ items) as [listed|e] eqn:Hitems; [|discriminate].
    cbn in Hown.
    destruct (flat_mapM _ (array_items _)) as [phases|e]; [|discriminate].
    injection Hown as <-.
    destruct (flat_mapM_elem _ _ _ entry Hitems Hentry) as (one & Hone & Hin).
    rewrite (listed_entry entry text Hshape) in Hone. injection Hone as <-.
    apply elem_of_app. left. apply Hin. left.
Qed.

(** X5. A verdict whose payload is neither an object nor an array, as is
    every verdict of a failed invocation, whose payload is [null], adds
    nothing to the issues and the recommendations. *)
Theorem extraction_skips_payloads_without_fields
    (before after : list AgentVerdict) (v : AgentVerdict) :
  is_object (v_raw_output v) = false ->
  extractCriticalIssues JSON_stringify Number_toString (before ++ v :: after)
  = extractCriticalIssues JSON_stringify Number_toString (before ++ after)
  /\ extractRecommendations JSON_stringify Number_toString (before ++ v :: after)
     = extractRecommendations JSON_stringify Number_toString (before ++ after).
Proof.
  intros Hskip. unfold extractCriticalIssues, extractRecommendations.
  rewrite !flat_mapM_skip; [done| |].
  - unfold recommendations_of_verdict. by rewrite Hskip.
  - unfold issues_of_verdict. by rewrite Hskip.
Qed.

End ResultMergerLists.

Lemma extracted_lists_distinct_and_complete_witness :
  exists issues,
    extractCriticalIssues (fun _ => "") (fun _ => "") [race_verdict] = Normal issues
    /\ "Token refresh race" ∈ issues.
Proof.
  destruct (extracted_lists_distinct_and_complete
              (fun _ => "") (fun _ => "") [race_verdict]) as (Hissues & _ & Hreturn).
  destruct Hreturn as [(issues & Hrun) _].
  - intros v Hv. apply elem_of_cons in Hv as [-> | Hv]; [reflexivity|by inversion Hv].
  - exists issues. split; [exact Hrun|].
    destruct (Hissues issues Hrun) as [_ Hin].
    apply (Hin race_verdict [("critical_issues", JArr race_issues)] race_issues
             (JStr "Token refresh race") "Token refresh race").
    + left.
    + reflexivity.
    + reflexivity.
    + right. left.
    + by left.
Defined.

Lemma extraction_skips_payloads_without_fields_witness :
  extractRecommendations (fun _ => "") (fun _ => "")
    ([] ++ failure_verdict codex_assignment (sample_config ∅) 12 killed_error :: [])
  = extractRecommendations (fun _ => "") (fun _ => "") ([] ++ []).
Proof.
  apply (extraction_skips_payloads_without_fields (fun _ => "") (fun _ => "")).
  reflexivity.
Defined.

(** ** Agent invoker: what [executeAgents] hands back *)

Lemma filter_via_lengths (assignments : list AgentAssignment) :
  (length (filter (fun a => a_via a = subprocess) assignments)
   + length (filter (fun a => a_via a = subagent_prompt) assignments)
   = length assignments)%nat.
Proof.
  induction assignments as [|a l IH]; [reflexivity|].
  rewrite !filter_cons.
  destruct (decide (a_via a = subprocess)) as [H1|H1],
           (decide (a_via a = subagent_prompt)) as [H2|H2]; cbn; try lia.
  - congruence.
  - by destruct (a_via a).
Qed.

Section AgentInvokerResults.

Variable JSON_parse : string -> completion json.
Variable buildPrompt : AgentRole -> ReviewInput -> string.
Variable execFileAsync : string -> list string -> ExecOptions -> ExecSettled.

(** X6. [executeAgents] splits the assignments in two without losing or
    adding any: the verdicts are for the subprocess assignments, the
    instructions for the subagent_prompt assignments, each in the order of
    the assignments and with the role of its assignment; and every
    instruction names the model opus, the three read-only tools, and the
    plain prompt of its role, without the JSON-only suffix. *)
Theorem executeAgents_splits_assignments (assignments : list AgentAssignment)
    (input : ReviewInput) (config : RuntimeConfig) :
  exists verdicts prompts,
    executeAgents JSON_parse buildPrompt execFileAsync assignments input config
    = Normal (verdicts, prompts)
    /\ map v_role verdicts
       = map a_role (filter (fun a => a_via a = subprocess) assignments)
    /\ map s_role prompts
       = map a_role (filter (fun a => a_via a = subagent_prompt) assignments)
    /\ (length verdicts + length prompts = length assignments)%nat
    /\ forall p, p ∈ prompts ->
         s_model p = "opus"
         /\ s_tools p = ["Read"; "Glob"; "Grep"]
         /\ s_prompt p = buildPrompt (s_role p) input.
Proof.
  do 2 eexists. split; [apply executeAgents_settles_all|].
  split; [|split; [|split]].
  - rewrite <- list_fmap_compose. apply list_fmap_ext.
    intros i a _. apply settled_verdict_role.
  - by rewrite <- list_fmap_compose.
  - rewrite !length_map. apply filter_via_lengths.
  - intros p [a [-> _]]%list_elem_of_fmap. by cbn.
Qed.

(** What one invocation can settle with. *)
Lemma invokeExternal_invariant (a : AgentAssignment) (input : ReviewInput)
    (config : RuntimeConfig) (v : AgentVerdict) :
  invokeExternal JSON_parse buildPrompt execFileAsync a input config = Normal v ->
  (v_status v = completed /\ v_error v = None /\ v_raw_output v <> JNull)
  \/ (v_status v <> completed /\ v_verdict v = proceed_with_changes
      /\ v_confidence v = 0.3%Q /\ v_raw_output v = JNull
      /\ is_Some (v_error v)).
Proof.
  unfold invokeExternal.
  destruct (external_command _ _) as [[cmd args]|e]; cbn; [|discriminate].
  assert (Hfail : forall duration err,
             let w := failure_verdict a config duration err in
             v_status w <> completed /\ v_verdict w = proceed_with_changes
             /\ v_confidence w = 0.3%Q /\ v_raw_output w = JNull
             /\ is_Some (v_error w)).
  { intros duration err. cbn. repeat split; [by destruct (err_killed err)|by eexists]. }
  destruct (settled _) as [stdout|e]; cbn; [|intros [= <-]; right; apply Hfail].
  destruct (parseAgentOutput _ _ _) as [parsed|e]; cbn;
    [|intros [= <-]; right; apply Hfail].
  destruct (get_property parsed "verdict") as [pv|e] eqn:Hpv; cbn;
    [|intros [= <-]; right; apply Hfail].
  destruct (get_property parsed "confidence") as [pc|e]; cbn;
    [|intros [= <-]; right; apply Hfail].
  intros [= <-]. left. cbn. repeat split. intros ->. discriminate.
Qed.

(** X7. Every verdict [executeAgents] returns is of one of two kinds: a
    completed one, with no error text and a payload that is not [null];
    or a failed one, with status timeout or error, the decision
    proceed_with_changes, the confidence 0.3, the payload [null] and an
    error text. *)
Theorem executeAgents_verdict_kinds (assignments : list AgentAssignment)
    (input : ReviewInput) (config : RuntimeConfig) :
  exists verdicts prompts,
    executeAgents JSON_parse buildPrompt execFileAsync assignments input config
    = Normal (verdicts, prompts)
    /\ forall v, v ∈ verdicts ->
         (v_status v = completed /\ v_error v = None /\ v_raw_output v <> JNull)
         \/ (v_status v <> completed /\ v_verdict v = proceed_with_changes
             /\ v_confidence v = 0.3%Q /\ v_raw_output v = JNull
             /\ is_Some (v_error v)).
Proof.
  do 2 eexists. split; [apply executeAgents_settles_all|].
  intros v [a [-> _]]%list_elem_of_fmap.
  destruct (invokeExternal _ _ _ a input config) as [w|reason] eqn:Hinv; cbn.
  - by apply (invokeExternal_invariant a input config).
  - right. repeat split; [discriminate|by eexists].
Qed.

(** X8. A subprocess assignment for the claude engine starts no process:
    the invocation rejects before [execFileAsync] is called, and
    [executeAgents] records an errored verdict that names the unsupported
    engine. *)
Theorem executeAgents_unsupported_engine (assignments : list AgentAssignment)
    (input : ReviewInput) (config : RuntimeConfig) (a : AgentAssignment) :
  a ∈ assignments -> a_via a = subprocess -> a_engine a = claude ->
  invokeExternal JSON_parse buildPrompt execFileAsync a input config
  = Throw (new_Error "Unsupported external engine: claude")
  /\ exists verdicts prompts,
      executeAgents JSON_parse buildPrompt execFileAsync assignments input config
      = Normal (verdicts, prompts)
      /\ {| v_role := a_role a; v_engine := claude; v_model := a_model a;
            v_verdict := proceed_with_changes; v_confidence := 0.3%Q;
            v_raw_output := JNull; v_duration_ms := 0; v_status := error;
            v_error := Some "Unexpected failure: Error: Unsupported external engine: claude" |}
         ∈ verdicts.
Proof.
  intros Hin Hvia Hengine.
  assert (Hthrow : invokeExternal JSON_parse buildPrompt execFileAsync a input config
                   = Throw (new_Error "Unsupported external engine: claude")).
  { unfold invokeExternal. by rewrite Hengine. }
  split; [exact Hthrow|].
  do 2 eexists. split; [apply executeAgents_settles_all|].
  apply list_elem_of_fmap. exists a. split.
  - rewrite Hthrow. unfold settled_verdict, rejected_verdict. by rewrite Hengine.
  - by apply list_elem_of_filter.
Qed.

End AgentInvokerResults.

Lemma executeAgents_unsupported_engine_witness :
  invokeExternal JSON.parse sample_prompt (exec_settling (Normal null_output))
    claude_subprocess sample_input (sample_config ∅)
  = Throw (new_Error "Unsupported external engine: claude").
Proof.
  apply (executeAgents_unsupported_engine JSON.parse sample_prompt
           (exec_settling (Normal null_output)) [claude_subprocess]
           sample_input (sample_config ∅) claude_subprocess);
    [left|reflexivity|reflexivity].
Defined.

(** X9. [isVerdict] accepts exactly the three strings proceed,
    proceed_with_changes and block, spelled so: any other value, a string
    in another case or with hyphens included, is no verdict. *)
Theorem isVerdict_exact (v : option json) (d : Verdict) :
  isVerdict v = Some d <-> v = Some (JStr (Verdict_string d)).
Proof.
  split.
  - destruct v as [[| | |s| |]|]; cbn; try discriminate.
    destruct (bool_decide (s ∈ VALID_VERDICTS)) eqn:Hs; [|discriminate].
    apply bool_decide_eq_true in Hs. unfold VALID_VERDICTS in Hs.
    repeat (apply elem_of_cons in Hs as [->|Hs]); try (by inversion Hs);
      cbn; by intros [= <-].
  - intros ->. by destruct d.
Qed.

Lemma isVerdict_exact_witness :
  isVerdict (Some (JStr "block")) = Some block
  /\ isVerdict (Some (JStr "BLOCK")) = None
  /\ isVerdict (Some (JStr "proceed-with-changes")) = None.
Proof.
  split; [|by split].
  by apply (proj2 (isVerdict_exact (Some (JStr "block")) block)).
Defined.

(** ** Response normalizer: what the cleaning keeps *)

Lemma string_app_assoc (a b c : string) : (a ++ b) ++ c = a ++ (b ++ c).
Proof.
  induction a as [|x a IH]; [reflexivity|].
  change (String x ((a ++ b) ++ c) = String x (a ++ b ++ c)). by rewrite IH.
Qed.

Lemma string_app_cons (x : ascii) (a b : string) :
  String x a ++ b = String x (a ++ b).
Proof. reflexivity. Qed.

Lemma string_app_nil (b : string) : EmptyString ++ b = b.
Proof. reflexivity. Qed.

Lemma trimStart_head (s : string) :
  trimStart s = EmptyString
  \/ exists c t, trimStart s = String c t /\ isWhiteSpace c = false.
Proof.
  induction s as [|c t IH]; cbn; [by left|].
  destruct (isWhiteSpace c) eqn:Hc; [exact IH|]. right. by exists c, t.
Qed.

Lemma trimStart_all_whitespace (w s : string) :
  all_whitespace w = true -> trimStart (w ++ s) = trimStart s.
Proof.
  induction w as [|c w IH]; [reflexivity|].
  rewrite string_app_cons. cbn.
  intros [Hc Hw]%andb_true_iff. rewrite Hc. by apply IH.
Qed.

Lemma trimStart_app (s r : string) (c : ascii) :
  isWhiteSpace c = false ->
  trimStart (s ++ String c r) = trimStart s ++ String c r.
Proof.
  intros Hc. induction s as [|x s IH].
  - rewrite string_app_nil. cbn. by rewrite Hc.
  - rewrite string_app_cons. cbn. by destruct (isWhiteSpace x).
Qed.

Lemma trimStart_no_backtick (s : string) :
  no_backtick s = true -> no_backtick (trimStart s) = true.
Proof.
  induction s as [|c t IH]; cbn; [done|].
  intros H. destruct (isWhiteSpace c); [|exact H].
  apply andb_true_iff in H as [_ H]. by apply IH.
Qed.

Lemma trimEnd_all_whitespace (w : string) :
  all_whitespace w = true <-> trimEnd w = EmptyString.
Proof.
  induction w as [|c w IH]; cbn; [done|].
  rewrite andb_true_iff, IH.
  destruct (trimEnd w) as [|x y]; destruct (isWhiteSpace c);
    split; try done; try by intros [? ?].
Qed.

Lemma trimEnd_app_whitespace (s w : string) :
  all_whitespace w = true -> trimEnd (s ++ w) = trimEnd s.
Proof.
  intros Hw. induction s as [|c s IH].
  - rewrite string_app_nil. by apply trimEnd_all_whitespace.
  - rewrite string_app_cons. cbn. by rewrite IH.
Qed.

Lemma trimEnd_idem (s : string) : trimEnd (trimEnd s) = trimEnd s.
Proof.
  induction s as [|c s IH]; cbn; [reflexivity|].
  destruct (trimEnd s) as [|x y] eqn:Hs.
  - destruct (isWhiteSpace c) eqn:Hc; cbn; [reflexivity|by rewrite Hc].
  - cbn [trimEnd]. cbn [trimEnd] in IH. rewrite IH. reflexivity.
Qed.

Lemma trimEnd_fence (s : string) : trimEnd (s ++ "```") = s ++ "```".
Proof.
  induction s as [|c s IH]; [reflexivity|].
  rewrite string_app_cons. cbn [trimEnd]. rewrite IH. by destruct s.
Qed.

Lemma trim_idem (s : string) : trim (trim s) = trim s.
Proof.
  unfold trim.
  assert (Hstart : trimStart (trimEnd (trimStart s)) = trimEnd (trimStart s)).
  { destruct (trimStart_head s) as [->|(c & t & -> & Hc)]; [reflexivity|].
    cbn [trimEnd]. rewrite Hc.
    destruct (trimEnd t); cbn; by rewrite Hc. }
  rewrite Hstart. apply trimEnd_idem.
Qed.

Lemma closing_fence_here_head (c : ascii) (r : string) :
  isWhiteSpace c = false -> Ascii.eqb c "`" = false ->
  closing_fence_here (String c r) = false.
Proof.
  intros Hws Hbt. unfold closing_fence_here. cbn [trimStart]. rewrite Hws.
  by destruct c as [[] [] [] [] [] [] [] []].
Qed.

Lemma strip_opening_fence_head (c : ascii) (r : string) :
  Ascii.eqb c "`" = false -> strip_opening_fence (String c r) = String c r.
Proof. intros Hbt. by destruct c as [[] [] [] [] [] [] [] []]. Qed.

(** Before the closing fence of a text without backticks the expression
    matches at a position exactly when only white space is left. *)
Lemma closing_fence_here_fence (t : string) :
  no_backtick t = true ->
  closing_fence_here (t ++ "```") = all_whitespace t.
Proof.
  induction t as [|c t IH]; [reflexivity|].
  rewrite string_app_cons. cbn [no_backtick all_whitespace].
  intros [Hc Ht]%andb_true_iff. apply negb_true_iff in Hc.
  destruct (isWhiteSpace c) eqn:Hws.
  - rewrite <- (IH Ht). unfold closing_fence_here. cbn [trimStart].
    by rewrite Hws.
  - by apply closing_fence_here_head.
Qed.

Lemma closing_fence_here_plain (t : string) :
  no_backtick t = true -> closing_fence_here t = false.
Proof.
  induction t as [|c t IH]; [reflexivity|]. cbn [no_backtick].
  intros [Hc Ht]%andb_true_iff. apply negb_true_iff in Hc.
  destruct (isWhiteSpace c) eqn:Hws.
  - rewrite <- (IH Ht). unfold closing_fence_here. cbn [trimStart].
    by rewrite Hws.
  - by apply closing_fence_here_head.
Qed.

Lemma strip_closing_fence_fence (t : string) :
  no_backtick t = true -> strip_closing_fence (t ++ "```") = trimEnd t.
Proof.
  induction t as [|c t IH]; [reflexivity|]. intros Hnb.
  rewrite string_app_cons. cbn [strip_closing_fence].
  rewrite <- string_app_cons.
  rewrite (closing_fence_here_fence (String c t) Hnb).
  cbn [no_backtick] in Hnb. apply andb_true_iff in Hnb as [_ Ht].
  destruct (all_whitespace (String c t)) eqn:Hall.
  - symmetry. by apply trimEnd_all_whitespace.
  - rewrite (IH Ht). cbn [trimEnd all_whitespace] in *.
    destruct (trimEnd t) as [|x y] eqn:Hend; [|reflexivity].
    apply trimEnd_all_whitespace in Hend. rewrite Hend, andb_true_r in Hall.
    by rewrite Hall.
Qed.

Lemma strip_closing_fence_plain (t : string) :
  no_backtick t = true -> strip_closing_fence t = t.
Proof.
  induction t as [|c t IH]; [reflexivity|]. intros Hnb.
  cbn [strip_closing_fence]. rewrite (closing_fence_here_plain _ Hnb).
  cbn [no_backtick] in Hnb. apply andb_true_iff in Hnb as [_ Ht].
  by rewrite (IH Ht).
Qed.

(** X10. A fenced block is cleaned to its body: for a body without
    backticks, between the fence [```json] (in either case) and the fence
    [```], with white space allowed around the whole, the cleaned text is
    the trimmed body; so when the trimmed body parses, its value is what
    the normalizer returns. *)
Theorem clean_output_fenced (JSON_parse : string -> completion json)
    (before tag body after : string) (role : AgentRole) :
  all_whitespace before = true -> all_whitespace after = true ->
  no_backtick body = true ->
  tag = "json" \/ tag = "JSON" ->
  clean_output (before ++ "```" ++ tag ++ body ++ "```" ++ after) = trim body
  /\ forall payload,
      JSON_parse (trim body) = Normal payload ->
      parseAgentOutput JSON_parse
        (before ++ "```" ++ tag ++ body ++ "```" ++ after) role
      = Normal payload.
Proof.
  intros Hbefore Hafter Hbody Htag.
  assert (Hclean : clean_output (before ++ "```" ++ tag ++ body ++ "```" ++ after)
                   = trim body).
  { unfold clean_output.
    assert (Htrim : trim (before ++ "```" ++ tag ++ body ++ "```" ++ after)
                    = "```" ++ tag ++ body ++ "```").
    { unfold trim. rewrite (trimStart_all_whitespace _ _ Hbefore).
      replace ("```" ++ tag ++ body ++ "```" ++ after)
        with ((("```" ++ tag ++ body) ++ "```") ++ after)
        by (by rewrite !string_app_assoc).
      replace (trimStart ((("```" ++ tag ++ body) ++ "```") ++ after))
        with ((("```" ++ tag ++ body) ++ "```") ++ after) by reflexivity.
      rewrite (trimEnd_app_whitespace _ _ Hafter), trimEnd_fence.
      by rewrite !string_app_assoc. }
    rewrite Htrim.
    assert (Hopen : strip_opening_fence ("```" ++ tag ++ body ++ "```")
                    = trimStart (body ++ "```")).
    { by destruct Htag as [-> | ->]. }
    rewrite Hopen.
    change "```" with (String "`" "``") at 1.
    rewrite (trimStart_app body "``" "`" eq_refl).
    change (String "`" "``") with "```".
    rewrite (strip_closing_fence_fence _ (trimStart_no_backtick _ Hbody)).
    apply trim_idem. }
  split; [exact Hclean|].
  intros payload Hparse. unfold parseAgentOutput. rewrite Hclean, Hparse.
  reflexivity.
Qed.

(** X11. A text without backticks is cleaned to its trimmed self: white
    space around the output changes nothing of what is parsed. *)
Theorem clean_output_plain (output : string) :
  no_backtick output = true -> clean_output output = trim output.
Proof.
  intros Hnb. unfold clean_output.
  assert (Htrim : no_backtick (trim output) = true).
  { unfold trim.
    assert (Hend : forall s, no_backtick s = true -> no_backtick (trimEnd s) = true).
    { induction s as [|c s IH]; cbn; [done|].
      intros [Hc Hs]%andb_true_iff. specialize (IH Hs).
      destruct (trimEnd s) as [|x y].
      - destruct (isWhiteSpace c); cbn; [done|]. by rewrite Hc.
      - change (negb (Ascii.eqb c "`") && no_backtick (String x y) = true).
        by rewrite Hc, IH. }
    by apply Hend, trimStart_no_backtick. }
  assert (Hopen : strip_opening_fence (trim output) = trim output).
  { destruct (trim output) as [|c r]; [reflexivity|].
    cbn [no_backtick] in Htrim. apply andb_true_iff in Htrim as [Hc _].
    apply strip_opening_fence_head. by apply negb_true_iff. }
  rewrite Hopen, (strip_closing_fence_plain _ Htrim). apply trim_idem.
Qed.

Lemma clean_output_fenced_witness :
  parseAgentOutput JSON.parse
    ("```" ++ "json" ++ (" " ++ block_object ++ " ") ++ "```" ++ " ") pragmatist
  = Normal (JObj [("verdict", JStr "block")]).
Proof.
  refine (proj2 (clean_output_fenced JSON.parse "" "json"
                   (" " ++ block_object ++ " ") " " pragmatist
                   eq_refl eq_refl eq_refl (or_introl eq_refl)) _ eq_refl).
Defined.

Lemma clean_output_plain_witness :
  clean_output ("  " ++ block_object ++ " ") = block_object.
Proof.
  exact (clean_output_plain ("  " ++ block_object ++ " ") eq_refl).
Defined.

(** ** Agent resolver: processes and descriptions *)

Lemma resolveAgents_by_availability (config : RuntimeConfig) :
  resolveAgents config
  = resolveAgents {| available_agents := available_agents config;
                     timeout_seconds := 0; auto_trigger_patterns := [];
                     default_mode := standard_mode; repo_root := "" |}.
Proof. reflexivity. Qed.

(** X12. [resolveAgents] plans one subprocess per available engine and
    delegates the rest: the subprocess assignments are as many as the
    availability set has elements, their engines are exactly the available
    ones, and the delegated assignments make up the three. *)
Theorem resolveAgents_one_process_per_engine (config : RuntimeConfig) :
  length (filter (fun a => a_via a = subprocess) (resolveAgents config))
  = size (available_agents config)
  /\ (length (filter (fun a => a_via a = subagent_prompt) (resolveAgents config))
      = 3 - size (available_agents config))%nat
  /\ (forall e, e ∈ available_agents config
                <-> exists a, a ∈ resolveAgents config /\ a_via a = subprocess
                              /\ a_engine a = external_engine e)
  /\ (forall a, a ∈ resolveAgents config ->
                (a_via a = subagent_prompt <-> a_engine a = claude)).
Proof.
  split; [|split; [|split]].
  - rewrite resolveAgents_by_availability.
    by destruct (availability_cases (available_agents config))
      as [-> | [-> | [-> | ->]]].
  - rewrite resolveAgents_by_availability.
    by destruct (availability_cases (available_agents config))
      as [-> | [-> | [-> | ->]]].
  - intros e. rewrite <- has_true. resolve_cases config;
      destruct e; rewrite ?Hcodex, ?Hgemini;
      (split;
       [ intros Hhas; try discriminate Hhas;
         first [ eexists; split; [apply list_elem_of_here|]; by split
               | eexists; split;
                 [apply list_elem_of_further, list_elem_of_here|]; by split ]
       | intros (a & Ha & Hvia & Hengine); try reflexivity;
         repeat (apply elem_of_cons in Ha as [->|Ha]); try (by inversion Ha);
         discriminate ]).
  - intros a. resolve_cases config; intros Ha;
      repeat (apply elem_of_cons in Ha as [->|Ha]); try (by inversion Ha);
      by split.
Qed.

(** X13. The description of a resolved configuration names the engines
    that will run as processes: both, the single available one with two
    Claude subagents, or three Claude subagents; and any list with three
    or more subprocess assignments is described as three Claude
    subagents. *)
Theorem describeAgentConfig_of_resolved (config : RuntimeConfig) :
  describeAgentConfig (resolveAgents config)
  = (if has (available_agents config) ext_codex
     then if has (available_agents config) ext_gemini
          then "3 agents: codex (gpt-5.3-codex) + gemini (gemini-3-pro-preview) + Claude (claude-opus-4-6)"
          else "3 agents: codex (gpt-5.3-codex) + 2× Claude (claude-opus-4-6) isolated subagents"
     else if has (available_agents config) ext_gemini
          then "3 agents: gemini (gemini-3-pro-preview) + 2× Claude (claude-opus-4-6) isolated subagents"
          else "3 isolated Claude (claude-opus-4-6) subagents — separate context windows, zero opinion bleed")
  /\ forall assignments,
      (3 <= length (filter (fun a => a_via a = subprocess) assignments))%nat ->
      describeAgentConfig assignments
      = "3 isolated Claude (claude-opus-4-6) subagents — separate context windows, zero opinion bleed".
Proof.
  split.
  - unfold resolveAgents.
    destruct (has (available_agents config) ext_codex),
             (has (available_agents config) ext_gemini); reflexivity.
  - intros assignments. unfold describeAgentConfig.
    destruct (filter (fun a => a_via a = subprocess) assignments)
      as [|e0 [|e1 [|e2 l]]]; cbn [length]; intros Hlen; try lia.
    reflexivity.
Qed.

Lemma describeAgentConfig_of_resolved_witness :
  describeAgentConfig [codex_assignment; codex_assignment; codex_assignment]
  = "3 isolated Claude (claude-opus-4-6) subagents — separate context windows, zero opinion bleed".
Proof.
  apply (describeAgentConfig_of_resolved (sample_config ∅)).
  vm_compute. lia.
Defined.

(** ** The review pipeline: resolver, invoker and merger together *)

Lemma resolveAgents_subprocess_count (config : RuntimeConfig) :
  length (filter (fun a => a_via a = subprocess) (resolveAgents config))
  = size (available_agents config).
Proof.
  rewrite resolveAgents_by_availability.
  by destruct (availability_cases (available_agents config))
    as [-> | [-> | [-> | ->]]].
Qed.

Section ReviewPipeline.

Variable JSON_parse : string -> completion json.
Variable buildPrompt : AgentRole -> ReviewInput -> string.
Variable execFileAsync : string -> list string -> ExecOptions -> ExecSettled.
Variable JSON_stringify : json -> string.
Variable Number_toString : Q -> string.

(** Fewer than two verdicts never make a block. *)
Lemma computeConsensus_needs_two (verdicts : list AgentVerdict) (consensus : Consensus) :
  (length verdicts < 2)%nat ->
  computeConsensus JSON_stringify Number_toString verdicts = Normal consensus ->
  c_verdict consensus <> block.
Proof.
  intros Hlen Hrun.
  rewrite (computeConsensus_decision _ _ verdicts consensus Hrun).
  destruct (length (filter _ verdicts) =? 0)%nat; [discriminate|].
  unfold tallied_decision.
  pose proof (completed_with_le block verdicts) as Hle.
  pose proof (filter_completed_length verdicts) as Hle'.
  destruct (2 <=? completed_with block verdicts)%nat eqn:H2.
  { apply Nat.leb_le in H2. lia. }
  by destruct (completed_with block verdicts =? 1)%nat,
              (1 <=? completed_with proceed_with_changes verdicts)%nat.
Qed.

(** X14. What the review handler computes from a configuration: the
    invoker returns one verdict per available engine and instructions for
    the other roles, three in all; with fewer than two engines available
    no consensus that [computeConsensus] returns for those verdicts is
    block; and with none available there is no verdict and
    [computeConsensus] returns the degraded consensus. *)
Theorem review_pipeline (config : RuntimeConfig) (input : ReviewInput) :
  exists verdicts prompts,
    executeAgents JSON_parse buildPrompt execFileAsync
      (resolveAgents config) input config = Normal (verdicts, prompts)
    /\ length verdicts = size (available_agents config)
    /\ (length verdicts + length prompts = 3)%nat
    /\ ((size (available_agents config) < 2)%nat ->
        forall consensus,
          computeConsensus JSON_stringify Number_toString verdicts
          = Normal consensus ->
          c_verdict consensus <> block)
    /\ (available_agents config = ∅ ->
        verdicts = []
        /\ computeConsensus JSON_stringify Number_toString verdicts
           = Normal
               {| c_verdict := proceed_with_changes;
                  c_confidence := binary64 0.2;
                  c_critical_issues :=
                    ["All agents failed or timed out — proceed with extreme caution"];
                  c_recommendations :=
                    ["Re-run the protocol or manually review the changes"] |}).
Proof.
  do 2 eexists. split; [apply executeAgents_settles_all|].
  assert (Hcount : length (map (fun a =>
                      settled_verdict a
                        (invokeExternal JSON_parse buildPrompt execFileAsync
                           a input config))
                      (filter (fun a => a_via a = subprocess) (resolveAgents config)))
                   = size (available_agents config)).
  { rewrite length_map. apply resolveAgents_subprocess_count. }
  split; [exact Hcount|]. split; [|split].
  - rewrite !length_map. rewrite filter_via_lengths.
    by resolve_cases config.
  - intros Hsize consensus. apply computeConsensus_needs_two. by rewrite Hcount.
  - intros Hempty. rewrite Hempty in Hcount. rewrite size_empty in Hcount.
    apply length_zero_iff_nil in Hcount. by rewrite Hcount.
Qed.

End ReviewPipeline.

Lemma review_pipeline_witness :
  exists verdicts prompts,
    executeAgents JSON.parse sample_prompt (exec_settling (Normal prose_output))
      (resolveAgents (sample_config ∅)) sample_input (sample_config ∅)
    = Normal (verdicts, prompts)
    /\ verdicts = [] /\ length prompts = 3%nat.
Proof.
  destruct (review_pipeline JSON.parse sample_prompt
              (exec_settling (Normal prose_output)) (fun _ => "") (fun _ => "")
              (sample_config ∅) sample_input)
    as (verdicts & prompts & Hrun & _ & Hsum & _ & Hnone).
  exists verdicts, prompts. split; [exact Hrun|].
  destruct (Hnone eq_refl) as [-> _]. split; [reflexivity|exact Hsum].
Defined.

(** ** Configuration *)

(** X15. The availability of engines is decided by the first of: the
    list given with the call, the list in the repository configuration,
    the detected engines.  A list given with the call, the empty list
    included, overrides detection; with the empty list every role is
    delegated even when both engines were detected.  The timeout is 180
    seconds unless the call or the repository sets it. *)
Theorem buildRuntimeConfig_precedence (repoRoot : string)
    (repoConfig : ConfigureInput) (detected : gset ExternalEngine)
    (userOverrides : option ConfigureInput) :
  let config := buildRuntimeConfig repoRoot repoConfig detected userOverrides in
  (forall l, userOverrides ≫= in_available_agents = Some l ->
             forall e, e ∈ available_agents config <-> e ∈ l)
  /\ (forall l, userOverrides ≫= in_available_agents = None ->
                in_available_agents repoConfig = Some l ->
                forall e, e ∈ available_agents config <-> e ∈ l)
  /\ (userOverrides ≫= in_available_agents = None ->
      in_available_agents repoConfig = None ->
      available_agents config = detected)
  /\ (userOverrides ≫= in_available_agents = Some [] ->
      map a_via (resolveAgents config)
      = [subagent_prompt; subagent_prompt; subagent_prompt])
  /\ (userOverrides ≫= in_timeout_seconds = None ->
      in_timeout_seconds repoConfig = None ->
      timeout_seconds config = 180%N).
Proof.
  cbn zeta. unfold buildRuntimeConfig. cbn [available_agents timeout_seconds].
  split; [|split; [|split; [|split]]].
  - intros l ->. cbn. intros e. apply elem_of_list_to_set.
  - intros l -> ->. cbn. intros e. apply elem_of_list_to_set.
  - intros -> ->. cbn. apply list_to_set_elements_L.
  - intros ->. reflexivity.
  - by intros -> ->.
Qed.

Lemma buildRuntimeConfig_precedence_witness :
  map a_via
    (resolveAgents
       (buildRuntimeConfig "/repo" no_config {[ext_codex; ext_gemini]}
          (Some {| in_available_agents := Some [];
                   in_timeout_seconds := None;
                   in_auto_trigger_patterns := None;
                   in_default_mode := None |})))
  = [subagent_prompt; subagent_prompt; subagent_prompt].
Proof.
  by apply (buildRuntimeConfig_precedence "/repo" no_config
              {[ext_codex; ext_gemini]}).
Defined.

(** X16. What [tenth_man_configure] persists is what a later session
    loads: the configuration built from the merged record without
    overrides is the one built at the time of the call from the existing
    record and the overrides, for the same detected engines. *)
Theorem configure_persists (repoRoot : string) (existing overrides : ConfigureInput)
    (detected : gset ExternalEngine) :
  buildRuntimeConfig repoRoot (merge_overrides existing overrides) detected None
  = buildRuntimeConfig repoRoot existing detected (Some overrides)
  /\ buildRuntimeConfig repoRoot (merge_overrides existing overrides) detected
       (Some overrides)
     = buildRuntimeConfig repoRoot existing detected (Some overrides).
Proof.
  unfold buildRuntimeConfig, merge_overrides. cbn.
  destruct overrides as [[a|] [t|] [p|] [m|]]; cbn; by split.
Qed.

(** ** Repository files *)

Lemma includes_app_r (a b sub : string) :
  includes b sub = true -> includes (a ++ b) sub = true.
Proof.
  intros Hb. induction a as [|c a IH]; [exact Hb|].
  rewrite string_app_cons. cbn [includes]. rewrite IH. apply orb_true_r.
Qed.

Lemma prefix_nil (s : string) : String.prefix EmptyString s = true.
Proof. by destruct s. Qed.

Lemma prefix_app (a b : string) : String.prefix a (a ++ b) = true.
Proof.
  induction a as [|c a IH]; [apply prefix_nil|].
  rewrite string_app_cons. cbn. by destruct (ascii_dec c c).
Qed.

Lemma prefix_refl (a : string) : String.prefix a a = true.
Proof. induction a as [|c a IH]; cbn; [done|]. by destruct (ascii_dec c c). Qed.

Lemma trimEnd_prefix (s : string) : String.prefix (trimEnd s) s = true.
Proof.
  induction s as [|c s IH]; [reflexivity|]. cbn [trimEnd].
  destruct (trimEnd s) as [|x y].
  - destruct (isWhiteSpace c); cbn; [done|].
    destruct (ascii_dec c c); [apply prefix_nil|done].
  - cbn [String.prefix]. by destruct (ascii_dec c c).
Qed.

Section RepositoryFilesFacts.

Variable join : string -> string -> string.

(** X17. [ensureGitignore] of the loader leaves a [.gitignore] that
    lists [.tenth-man/] and begins with what the file held before; it
    touches no other file; and a second call changes nothing. *)
Theorem loader_ensureGitignore_idempotent (fs : gmap string string)
    (repoRoot : string) :
  let path := join repoRoot ".gitignore" in
  let fs' := loader_ensureGitignore join fs repoRoot in
  (exists content',
      fs' !! path = Some content'
      /\ includes content' ".tenth-man/" = true
      /\ forall content, fs !! path = Some content ->
                         String.prefix content content' = true)
  /\ (forall other, other <> path -> fs' !! other = fs !! other)
  /\ loader_ensureGitignore join fs' repoRoot = fs'.
Proof.
  cbn zeta. unfold loader_ensureGitignore.
  destruct (fs !! join repoRoot ".gitignore") as [content|] eqn:Hfile.
  - destruct (includes content ".tenth-man/") eqn:Hinc; cbn [negb].
    + rewrite Hfile, Hinc. cbn [negb]. split; [|by split].
      exists content. split; [reflexivity|]. split; [exact Hinc|].
      intros ? [= <-]. apply prefix_refl.
    + match goal with
      | |- context [insert _ (?c ++ ?suffix) _] =>
          assert (Hsuffix : includes suffix ".tenth-man/" = true)
            by (by vm_compute);
          pose proof (includes_app_r c suffix _ Hsuffix) as Hnew
      end.
      rewrite lookup_insert_eq, Hnew. cbn [negb].
      split; [|split; [|reflexivity]].
      * eexists. split; [reflexivity|]. split; [exact Hnew|].
        intros ? [= <-]. apply prefix_app.
      * intros other Hother. by rewrite lookup_insert_ne.
  - rewrite lookup_insert_eq. split; [|split; [|reflexivity]].
    + eexists. split; [reflexivity|]. split; [reflexivity|]. discriminate.
    + intros other Hother. by rewrite lookup_insert_ne.
Qed.

(** X18. [ensureGitignore] of config/gitignore.ts leaves a [.gitignore]
    that lists [.tenth-man/] and begins with what the file held before,
    up to white space at its end; it touches no other file; and a second
    call changes nothing. *)
Theorem ensureGitignore_idempotent (fs : gmap string string) (repoRoot : string) :
  let path := join repoRoot ".gitignore" in
  let fs' := ensureGitignore join fs repoRoot in
  (exists content',
      fs' !! path = Some content'
      /\ includes content' ".tenth-man/" = true
      /\ forall content, fs !! path = Some content ->
                         String.prefix (trimEnd content) content' = true)
  /\ (forall other, other <> path -> fs' !! other = fs !! other)
  /\ ensureGitignore join fs' repoRoot = fs'.
Proof.
  cbn zeta. unfold ensureGitignore.
  destruct (fs !! join repoRoot ".gitignore") as [content|] eqn:Hfile.
  - destruct (includes content ".tenth-man/") eqn:Hinc; cbn [negb].
    + rewrite Hfile, Hinc. cbn [negb]. split; [|by split].
      exists content. split; [reflexivity|]. split; [exact Hinc|].
      intros ? [= <-]. apply trimEnd_prefix.
    + match goal with
      | |- context [insert _ (?c ++ ?suffix) _] =>
          assert (Hsuffix : includes suffix ".tenth-man/" = true)
            by (by vm_compute);
          pose proof (includes_app_r c suffix _ Hsuffix) as Hnew
      end.
      rewrite lookup_insert_eq, Hnew. cbn [negb].
      split; [|split; [|reflexivity]].
      * eexists. split; [reflexivity|]. split; [exact Hnew|].
        intros ? [= <-]. apply prefix_app.
      * intros other Hother. by rewrite lookup_insert_ne.
  - rewrite lookup_insert_eq. split; [|split; [|reflexivity]].
    + eexists. split; [reflexivity|]. split; [reflexivity|]. discriminate.
    + intros other Hother. by rewrite lookup_insert_ne.
Qed.

(** X19. [ensureClaudeMd] leaves a [CLAUDE.md] that holds the protocol
    section and begins with what the file held before, up to white space
    at its end; it touches no other file; and a second call changes
    nothing. *)
Theorem ensureClaudeMd_idempotent (fs : gmap string string) (repoRoot : string) :
  let path := join repoRoot "CLAUDE.md" in
  let fs' := ensureClaudeMd join fs repoRoot in
  (exists content',
      fs' !! path = Some content'
      /\ includes content' CLAUDE_MD_MARKER = true
      /\ forall content, fs !! path = Some content ->
                         String.prefix (trimEnd content) content' = true)
  /\ (forall other, other <> path -> fs' !! other = fs !! other)
  /\ ensureClaudeMd join fs' repoRoot = fs'.
Proof.
  cbn zeta. unfold ensureClaudeMd.
  assert (Hsnippet : includes ("
" ++ CLAUDE_MD_SNIPPET) CLAUDE_MD_MARKER = true) by (by vm_compute).
  assert (Hfresh : includes (trimStart CLAUDE_MD_SNIPPET) CLAUDE_MD_MARKER = true)
    by (by vm_compute).
  destruct (fs !! join repoRoot "CLAUDE.md") as [content|] eqn:Hfile.
  - destruct (includes content CLAUDE_MD_MARKER) eqn:Hinc; cbn [negb].
    + rewrite Hfile, Hinc. cbn [negb]. split; [|by split].
      exists content. split; [reflexivity|]. split; [exact Hinc|].
      intros ? [= <-]. apply trimEnd_prefix.
    + pose proof (includes_app_r (trimEnd content) _ _ Hsnippet) as Hnew.
      rewrite lookup_insert_eq, Hnew. cbn [negb].
      split; [|split; [|reflexivity]].
      * eexists. split; [reflexivity|]. split; [exact Hnew|].
        intros ? [= <-]. apply prefix_app.
      * intros other Hother. by rewrite lookup_insert_ne.
  - rewrite lookup_insert_eq, Hfresh. cbn [negb].
    split; [|split; [|reflexivity]].
    + eexists. split; [reflexivity|]. split; [exact Hfresh|]. discriminate.
    + intros other Hother. by rewrite lookup_insert_ne.
Qed.

End RepositoryFilesFacts.

(** ** Audit index *)

Lemma slice_to_sublist {A} (l : list A) (n : Z) : sublist (slice_to l n) l.
Proof. apply sublist_take. Qed.

Lemma slice_to_length {A} (l : list A) (n : Z) :
  (0 <= n)%Z -> (Z.of_nat (length (slice_to l n)) <= n)%Z.
Proof.
  intros Hn. unfold slice_to. rewrite length_take.
  destruct (n <? 0)%Z eqn:Hneg; [apply Z.ltb_lt in Hneg; lia|]. lia.
Qed.

(** The entries the filters of [readHistory] keep. *)
Lemma readHistory_filtered (entries : list AuditEntry)
    (severityFilter : option Severity) (verdictFilter : option Verdict) :
  let kept :=
    match verdictFilter with
    | Some d => filter (fun e => e_verdict e = d)
                  (match severityFilter with
                   | Some s => filter (fun e => e_severity e = s) entries
                   | None => entries
                   end)
    | None => match severityFilter with
              | Some s => filter (fun e => e_severity e = s) entries
              | None => entries
              end
    end in
  sublist kept entries
  /\ forall e, e ∈ kept ->
       (forall s, severityFilter = Some s -> e_severity e = s)
       /\ (forall d, verdictFilter = Some d -> e_verdict e = d).
Proof.
  cbn zeta. destruct severityFilter as [s|], verdictFilter as [d|]; split.
  - etrans; apply sublist_filter.
  - intros e [Hd [Hs _]%list_elem_of_filter]%list_elem_of_filter.
    split; by intros ? [= <-].
  - apply sublist_filter.
  - intros e [Hs _]%list_elem_of_filter. split; [by intros ? [= <-]|done].
  - apply sublist_filter.
  - intros e [Hd _]%list_elem_of_filter. split; [done|by intros ? [= <-]].
  - reflexivity.
  - by intros e _.
Qed.

(** X20. [readHistory] returns entries of the index in the order of the
    index, each of the severity and of the verdict asked for, and no more
    than the number asked for, five when none is given; without an index,
    or with one that cannot be read, it returns nothing. *)
Theorem readHistory_bounded_and_filtered (index : IndexFile) (lastN : option Z)
    (severityFilter : option Severity) (verdictFilter : option Verdict) :
  let history := readHistory index lastN severityFilter verdictFilter in
  (forall entries, index = IndexEntries entries -> sublist history entries)
  /\ (forall e, e ∈ history ->
        (forall s, severityFilter = Some s -> e_severity e = s)
        /\ (forall d, verdictFilter = Some d -> e_verdict e = d))
  /\ ((0 <= default 5 lastN)%Z ->
      (Z.of_nat (length history) <= default 5 lastN)%Z)
  /\ (index = IndexMissing \/ index = IndexUnreadable -> history = []).
Proof.
  cbn zeta. unfold readHistory.
  destruct index as [| |entries].
  1,2: (split; [by intros ? [=]|]; split; [intros e He; by inversion He|];
        split; [cbn; lia|by intros _]).
  pose proof (readHistory_filtered entries severityFilter verdictFilter)
    as [Hsub Hkept]. cbn zeta in Hsub, Hkept.
  split; [|split; [|split]].
  - intros ? [= <-]. etrans; [apply slice_to_sublist|exact Hsub].
  - intros e He. apply Hkept.
    eapply elem_of_sublist; [exact He|]. apply slice_to_sublist.
  - apply slice_to_length.
  - intros [|]; discriminate.
Qed.

Lemma readHistory_bounded_and_filtered_witness :
  readHistory
    (IndexEntries [ sample_entry "a3f8c2" critical block;
                    sample_entry "b71d09" high proceed;
                    sample_entry "c0ffee" critical proceed ])
    (Some 1%Z) (Some critical) None
  = [sample_entry "a3f8c2" critical block]
  /\ (Z.of_nat (length
        (readHistory
           (IndexEntries [ sample_entry "a3f8c2" critical block;
                           sample_entry "b71d09" high proceed;
                           sample_entry "c0ffee" critical proceed ])
           (Some 1%Z) (Some critical) None)) <= 1)%Z.
Proof.
  split; [reflexivity|].
  apply (readHistory_bounded_and_filtered
           (IndexEntries [ sample_entry "a3f8c2" critical block;
                           sample_entry "b71d09" high proceed;
                           sample_entry "c0ffee" critical proceed ])
           (Some 1%Z) (Some critical) None).
  cbn. lia.
Defined.

(** X21. [updateIndex] puts the new entry first and keeps the entries of
    a readable index after it, so that a history of at least one entry
    read without filters begins with the entry just written; an index
    that is missing or cannot be read is replaced by one that holds the
    new entry alone. *)
Theorem updateIndex_newest_first (index : IndexFile) (entry : AuditEntry)
    (lastN : Z) :
  (1 <= lastN)%Z ->
  readHistory (updateIndex index entry) (Some lastN) None None
  = entry :: readHistory index (Some (lastN - 1)%Z) None None
  /\ (index = IndexMissing \/ index = IndexUnreadable ->
      updateIndex index entry = IndexEntries [entry]).
Proof.
  intros Hn. split; [|by intros [-> | ->]].
  unfold readHistory, updateIndex, slice_to. cbn [default]. unfold id.
  assert (Hneg : (lastN <? 0)%Z = false) by (apply Z.ltb_ge; lia).
  assert (Hneg' : (lastN - 1 <? 0)%Z = false) by (apply Z.ltb_ge; lia).
  rewrite Hneg.
  destruct index as [| |entries]; cbn [length].
  1,2: replace (Z.to_nat _) with 1%nat by lia; by cbn.
  rewrite Hneg'.
  replace (Z.to_nat (Z.min lastN (Z.of_nat (S (length entries)))))
    with (S (Z.to_nat (Z.min (lastN - 1) (Z.of_nat (length entries))))) by lia.
  reflexivity.
Qed.

Lemma updateIndex_newest_first_witness :
  readHistory (updateIndex IndexUnreadable (sample_entry "a3f8c2" critical block))
    (Some 5%Z) None None
  = sample_entry "a3f8c2" critical block
    :: readHistory IndexUnreadable (Some (5 - 1)%Z) None None.
Proof.
  apply (updateIndex_newest_first IndexUnreadable
           (sample_entry "a3f8c2" critical block) 5).
  lia.
Defined.
